(** * Progress-tracking tasks: [src/tasks.py] and [src/logger/utils.py]

    A shallow embedding of the task tree of the repository: the listener
    registry of [Task], the three concrete tasks [SimpleTask], [CounterTask]
    and [MultiTask], the id allocator [unique_integer_key], and the
    formatter of durations [expand].

    - Python objects live in a heap indexed by their identity; a method that
      mutates [self] becomes a state transformer over that heap, and an
      exception is an outcome that still carries the heap as it was when the
      exception was raised.
    - A listener is either the bound method [update] of a task or a callback
      of the environment.  Every call of a listener is recorded in a trace,
      which is how the statements count notifications.
    - [multiprocessing.Value("i", _)] is a C [int] of 32 bits; a store wraps
      around silently.  The target of a counted leaf is a Python [int], as the
      signature of [CounterTask.__init__] says (the driver script passes
      floats such as [512.0], whose value is an integer).
    - [completeness()] is a Python [float]; it is modelled by the exact
      rational that the float rounds.
    - The clock given to [expand] is a Python [float], an IEEE binary64
      number: a primitive float of Rocq, whose product rounds as Python's.
    - Recursion through the tree is bounded by a fuel, the depth of calls;
      the statements hold for every fuel above a bound that is linear in the
      number of tasks. *)

From Stdlib Require Import ZArith QArith String Lia Lqa.
From Stdlib Require Import Ascii Floats DecimalString DecimalPos DecimalN.
From stdpp Require Import base list.

Local Open Scope Z_scope.

(** ** Python values used by the tasks *)

(** [multiprocessing.Value("i", _)] is a C [int]: storing into [.value]
    keeps the low 32 bits, read back as a signed number. *)
Definition c_int (z : Z) : Z := (z + 2 ^ 31) mod 2 ^ 32 - 2 ^ 31.

Definition INT_MAX : Z := 2 ^ 31 - 1.

(** Truth value of an [int], as [if], [not] and [all] take it. *)
Definition truthy (z : Z) : bool := negb (z =? 0).

(** The exceptions.  [RecursionError] is raised when the calls nest deeper
    than the fuel allows.  [ReferenceError] stands for the use of an identity
    that no object has; a Python program cannot do it, its references being
    objects. *)
Inductive exn : Type :=
| KeyError
| ZeroDivisionError
| RecursionError
| ReferenceError.

(** Result of an expression that reads the heap and may raise. *)
Inductive result (A : Type) : Type :=
| Ok (x : A)
| Error (e : exn).
Arguments Ok {A} x.
Arguments Error {A} e.

#[export] Instance result_ret : MRet result := fun A x => Ok x.
#[export] Instance result_bind : MBind result := fun A B f r =>
  match r with
  | Ok x => f x
  | Error e => Error e
  end.

(** ** [src/logger/utils.py]

    The id allocator [unique_integer_key]; [expand], which formats a duration
    and has no part in the tasks, comes after them. *)

Module utils.

Fixpoint insert_sorted (x : Z) (l : list Z) : list Z :=
  match l with
  | [] => [x]
  | y :: l' => if x <=? y then x :: y :: l' else y :: insert_sorted x l'
  end.

(** The builtin [sorted] on a list of integers. *)
Definition sorted (l : list Z) : list Z := foldr insert_sorted [] l.

(** The [for uid in ...] loop of [unique_integer_key], [prev] being the
    loop-carried variable. *)
Fixpoint scan (prev : Z) (uids : list Z) : Z :=
  match uids with
  | [] => prev + 1
  | uid :: rest =>
      if negb (uid - prev =? 1) then uid - 1 else scan uid rest
  end.

Definition unique_integer_key {V : Type} (dictionary : list (Z * V)) : Z :=
  scan 0 (sorted (dictionary.*1)).

End utils.

(** ** Dictionaries keyed by integers

    A Python [dict] keeps its items in insertion order; the registry of
    listeners is iterated with [.items()], so the order is part of the
    model. *)

Module dict.
Section ops.
Context {V : Type}.

Definition t : Type := list (Z * V).

Definition keys (d : t) : list Z := d.*1.

(** [d[k] = v]: an existing key keeps its place, a new one goes last. *)
Fixpoint set (k : Z) (v : V) (d : t) : t :=
  match d with
  | [] => [(k, v)]
  | (k', v') :: d' => if k' =? k then (k', v) :: d' else (k', v') :: set k v d'
  end.

(** [del d[k]]: [None] stands for the [KeyError] of a missing key. *)
Fixpoint del (k : Z) (d : t) : option t :=
  match d with
  | [] => None
  | (k', v') :: d' =>
      if k' =? k then Some d' else cons (k', v') <$> del k d'
  end.

End ops.
Arguments t : clear implicits.
End dict.

(** ** The heap of tasks *)

(** The identity of an object: its rank among the tasks ever built. *)
Abbreviation addr := nat (only parsing).

(** What a task can hold as a listener: the bound method [task.update] of
    another task (what [MultiTask.__init__] registers on its children), or a
    callback of the environment, which does not touch the tasks and is only
    known by a tag. *)
Inductive callback : Type :=
| BoundUpdate (self : addr)
| Extern (tag : nat).

#[export] Instance callback_eq_dec : EqDecision callback.
Proof. solve_decision. Defined.

(** The fields that the three concrete classes add to [Task]; the two
    [Value("i", _)] are held by their integer value. *)
Inductive variant : Type :=
| SimpleTask (_is_done : Z)
| CounterTask (_progress : Z) (_length : Z)
| MultiTask (_sub_tasks : list addr).

(** An object of a concrete class: the fields of [Task] and those of the
    class. *)
Record task : Type := Task {
  _name : string;
  _update_listeners : dict.t callback;
  state : variant
}.

(** One call [listener()] made by the task at [ev_task] for the entry
    [ev_uid] of its registry. *)
Record event : Type := Called {
  ev_task : addr;
  ev_uid : Z;
  ev_listener : callback
}.

(** The objects built so far, in the order they were built, and the calls
    of listeners made so far. *)
Record world : Type := World {
  heap : list task;
  trace : list event
}.

Definition empty_world : world := World [] [].

(** Outcome of a statement: normal return or a raised exception, each with
    the state it leaves behind. *)
Inductive outcome (A : Type) : Type :=
| Return (x : A) (w : world)
| Raise (e : exn) (w : world).
Arguments Return {A} x w.
Arguments Raise {A} e w.

(** A statement or method call that returns an [A]. *)
Definition M (A : Type) : Type := world -> outcome A.

#[export] Instance M_ret : MRet M := fun A x w => Return x w.
#[export] Instance M_bind : MBind M := fun A B f m w =>
  match m w with
  | Return x w' => f x w'
  | Raise e w' => Raise e w'
  end.

Definition raise {A : Type} (e : exn) : M A := fun w => Raise e w.

(** Evaluate an expression on the current heap. *)
Definition eval {A : Type} (q : list task -> result A) : M A := fun w =>
  match q (heap w) with
  | Ok x => Return x w
  | Error e => Raise e w
  end.

Definition lookup_task (a : addr) (h : list task) : result task :=
  match h !! a with
  | Some t => Ok t
  | None => Error ReferenceError
  end.

(** Write the fields of the object at [a]. *)
Definition store_task (a : addr) (t : task) : M unit := fun w =>
  Return () (World (<[a := t]> (heap w)) (trace w)).

(** Build an object; its identity is the next free rank. *)
Definition alloc_task (t : task) : M addr := fun w =>
  Return (length (heap w)) (World (heap w ++ [t]) (trace w)).

(** Record a call of a listener. *)
Definition log (e : event) : M unit := fun w =>
  Return () (World (heap w) (trace w ++ [e])).

(** A [for x in l: body(x)] loop. *)
Fixpoint for_each {A : Type} (body : A -> M unit) (l : list A) : M unit :=
  match l with
  | [] => mret ()
  | x :: l' => body x ≫= fun _ => for_each body l'
  end.

(** ** [src/tasks.py] *)

(** The builtin [all] over a generator: it stops at the first false item. *)
Fixpoint all {A : Type} (f : A -> result bool) (l : list A) : result bool :=
  match l with
  | [] => Ok true
  | x :: l' => b ← f x; if b : bool then all f l' else Ok false
  end.

(** The accumulation loop [acc += task.completeness()]. *)
Fixpoint accumulate {A : Type} (f : A -> result Q) (acc : Q) (l : list A) : result Q :=
  match l with
  | [] => Ok acc
  | x :: l' => q ← f x; accumulate f (acc + q)%Q l'
  end.

(** [is_done()], dispatched on the class of the task.  The fuel bounds the
    depth of the calls, as the interpreter's stack does. *)
Fixpoint is_done (fuel : nat) (h : list task) (self : addr) : result bool :=
  match fuel with
  | O => Error RecursionError
  | S fuel' =>
      t ← lookup_task self h;
      match state t with
      | SimpleTask v => Ok (truthy v)
      | CounterTask progress len => Ok (len <=? progress)
      | MultiTask subs => all (is_done fuel' h) subs
      end
  end.

(** [completeness()].  Python computes in binary floating point; here the
    value is the exact rational the float stands for. *)
Fixpoint completeness (fuel : nat) (h : list task) (self : addr) : result Q :=
  match fuel with
  | O => Error RecursionError
  | S fuel' =>
      t ← lookup_task self h;
      match state t with
      | SimpleTask v => Ok (inject_Z v)
      | CounterTask progress len =>
          if len =? 0 then Error ZeroDivisionError
          else Ok (inject_Z progress / inject_Z len)%Q
      | MultiTask subs =>
          if (length subs =? 0)%nat then Ok 1%Q
          else
            acc ← accumulate (completeness fuel' h) 0%Q subs;
            Ok (acc / inject_Z (Z.of_nat (length subs)))%Q
      end
  end.

(** *** class Task *)

Definition set_state (t : task) (s : variant) : task :=
  Task (_name t) (_update_listeners t) s.

Definition set_listeners (t : task) (d : dict.t callback) : task :=
  Task (_name t) d (state t).

(** [name or "task"] *)
Definition name_or_task (name : string) : string :=
  match name with
  | EmptyString => "task"%string
  | _ => name
  end.

Definition add (self : addr) (listener : callback) : M Z :=
  t ← eval (lookup_task self);
  let uid := utils.unique_integer_key (_update_listeners t) in
  _ ← store_task self (set_listeners t (dict.set uid listener (_update_listeners t)));
  mret uid.

Definition remove (self : addr) (uid : Z) : M unit :=
  t ← eval (lookup_task self);
  match dict.del uid (_update_listeners t) with
  | Some d => store_task self (set_listeners t d)
  | None => raise KeyError
  end.

(** [_update()] of the three classes. *)
Definition _update (self : addr) : M unit :=
  t ← eval (lookup_task self);
  match state t with
  | SimpleTask _ => store_task self (set_state t (SimpleTask (c_int 1)))
  | CounterTask progress len =>
      store_task self (set_state t (CounterTask (c_int (progress + 1)) len))
  | MultiTask _ => mret ()
  end.

(** The call [listener()] for one item of the registry of [self]; [upd] is
    [Task.update], which a bound method runs on its own task. *)
Definition call (upd : addr -> M unit) (self : addr) (item : Z * callback) : M unit :=
  _ ← log (Called self item.1 item.2);
  match item.2 with
  | BoundUpdate target => upd target
  | Extern _ => mret ()
  end.

(** The loop [for key, listener in self._update_listeners.items()]. *)
Definition notify (upd : addr -> M unit) (self : addr) : M unit :=
  t ← eval (lookup_task self);
  for_each (call upd self) (_update_listeners t).

(** [Task.update]: nothing when the task is done, else the step of the class
    and one round of notification. *)
Fixpoint update (fuel : nat) (self : addr) : M unit :=
  match fuel with
  | O => raise RecursionError
  | S fuel' =>
      done ← eval (fun h => is_done fuel' h self);
      if done : bool then mret ()
      else
        _ ← _update self;
        notify (update fuel') self
  end.

(** [_reset()] of the three classes; [rst] is [Task.reset]. *)
Definition _reset (rst : addr -> M unit) (self : addr) : M unit :=
  t ← eval (lookup_task self);
  match state t with
  | SimpleTask _ => store_task self (set_state t (SimpleTask (c_int 0)))
  | CounterTask _ len => store_task self (set_state t (CounterTask (c_int 0) len))
  | MultiTask subs => for_each rst subs
  end.

(** [Task.reset]: the reset of the class, then one round of notification,
    whatever the state. *)
Fixpoint reset (fuel : nat) (self : addr) : M unit :=
  match fuel with
  | O => raise RecursionError
  | S fuel' =>
      _ ← _reset (reset fuel') self;
      notify (update fuel') self
  end.

(** *** Constructors *)

Definition new_SimpleTask (name : string) : M addr :=
  alloc_task (Task (name_or_task name) [] (SimpleTask (c_int 0))).

Definition new_CounterTask (progress_length : Z) (name : string) : M addr :=
  alloc_task (Task (name_or_task name) [] (CounterTask (c_int 0) progress_length)).

(** [self._sub_tasks.append(task)] *)
Definition append_sub_task (self task : addr) : M unit :=
  t ← eval (lookup_task self);
  match state t with
  | MultiTask subs => store_task self (set_state t (MultiTask (subs ++ [task])))
  | _ => mret ()
  end.

(** The arguments of a constructor are objects that exist when it is
    called. *)
Definition existing (tasks : list addr) : M unit :=
  for_each (fun task => _ ← eval (lookup_task task); mret ()) tasks.

(** [MultiTask.__init__]: the composite registers its [update] on each child,
    in the order of the arguments. *)
Definition new_MultiTask (name : string) (tasks : list addr) : M addr :=
  _ ← existing tasks;
  self ← alloc_task (Task (name_or_task name) [] (MultiTask []));
  _ ← for_each (fun task =>
         _ ← add task (BoundUpdate self);
         append_sub_task self task) tasks;
  mret self.

(** ** Observations *)

(** How many times the task at [a] has called the entry [uid] of its
    registry. *)
Definition calls (a : addr) (uid : Z) (tr : list event) : nat :=
  length (filter (fun e => ev_task e = a ∧ ev_uid e = uid) tr).

(** How many times the external callback [tag] has run. *)
Definition runs (tag : nat) (tr : list event) : nat :=
  length (filter (fun e => ev_listener e = Extern tag) tr).

Definition state_at (w : world) (a : addr) : option variant :=
  state <$> heap w !! a.

Definition listeners_at (w : world) (a : addr) : option (dict.t callback) :=
  _update_listeners <$> heap w !! a.

(** The world after a program, whatever its outcome. *)
Definition world_of {A : Type} (o : outcome A) : world :=
  match o with
  | Return _ w => w
  | Raise _ w => w
  end.

(** ** [src/logger/utils.py]: [expand] *)

(** The exceptions of the builtin [int] on a float. *)
Inductive conversion_error : Type :=
| ValueError
| OverflowError.

(** The builtin [int] on a float: the integer towards zero; NaN and the
    infinities have none. *)
Definition int_of_float (x : float) : conversion_error + Z :=
  match Prim2SF x with
  | S754_nan => inl ValueError
  | S754_infinity _ => inl OverflowError
  | S754_zero _ => inr 0
  | S754_finite sign m e =>
      let magnitude := if 0 <=? e then Z.pos m * 2 ^ e else Z.pos m / 2 ^ (- e) in
      inr (if sign then - magnitude else magnitude)
  end.

(** The builtin [divmod] on integers. *)
Definition divmod (a b : Z) : Z * Z := (a / b, a mod b).

(** [str] of a natural number. *)
Definition digits (n : Z) : string := NilZero.string_of_uint (N.to_uint (Z.to_N n)).

(** [n] times the character "0". *)
Definition zeros (n : nat) : string := string_of_list_ascii (repeat "0"%char n).

(** The format [{:0wd}]: the sign if negative, then zeros up to the width
    [w], then the digits. *)
Definition format_0d (width : nat) (n : Z) : string :=
  let sign := if n <? 0 then "-"%string else ""%string in
  let ds := digits (Z.abs n) in
  (sign ++ zeros (width - String.length sign - String.length ds) ++ ds)%string.

(** [expand(clock)]: the text of a duration given in seconds.  As in the
    source, [clock] is rebound to the milliseconds, and [s] and [m] to the
    remainders. *)
Definition expand (clock : float) : conversion_error + string :=
  match int_of_float (clock * 1000)%float with
  | inl e => inl e
  | inr clock =>
      let '(s, ms) := divmod clock 1000 in
      let '(m, s) := divmod s 60 in
      let '(h, m) := divmod m 60 in
      inr (if negb (h =? 0)%Z then
             format_0d 2 h ++ "h " ++ format_0d 2 m ++ "m "
             ++ format_0d 2 s ++ "s " ++ format_0d 3 ms ++ "ms"
           else if negb (m =? 0)%Z then
             format_0d 2 m ++ "m " ++ format_0d 2 s ++ "s " ++ format_0d 3 ms ++ "ms"
           else if negb (s =? 0)%Z then
             format_0d 2 s ++ "s " ++ format_0d 3 ms ++ "ms"
           else
             format_0d 3 ms ++ "ms")%string
  end.

(** * Vocabulary of the statements *)

(** ** Keys of a registry *)

(** [lower x l]: [x] is strictly below every item of [l]. *)
Definition lower (x : Z) (l : list Z) : Prop := Forall (fun y => x < y) l.

(** Strictly increasing lists, as [sorted] makes of distinct keys. *)
Fixpoint increasing (l : list Z) : Prop :=
  match l with
  | [] => True
  | x :: l' => lower x l' ∧ increasing l'
  end.

(** The largest key, 0 for no key at all. *)
Definition max_key (ks : list Z) : Z := foldr Z.max 0 ks.

(** ** Well-formed heaps

    What the constructors and methods maintain: registries have distinct,
    positive keys; a bound [update] in the registry of a task belongs to a
    [MultiTask] built later; the children of a [MultiTask] were built before
    it; and the shared values stay in the range their updates leave them
    in. *)

Definition is_multi (t : task) : Prop := ∃ subs, state t = MultiTask subs.

(** A flag is 0 or 1.  A counter is a C [int]; it is not above a positive
    target, and not negative when the target fits a C [int]. *)
Definition wf_value (s : variant) : Prop :=
  match s with
  | SimpleTask v => v = 0 ∨ v = 1
  | CounterTask progress len =>
      - 2 ^ 31 <= progress <= INT_MAX
      ∧ (0 < len -> progress <= len)
      ∧ (len <= INT_MAX -> 0 <= progress)
  | MultiTask _ => True
  end.

Record wf_task (h : list task) (a : addr) (t : task) : Prop := {
  wf_nodup : NoDup (dict.keys (_update_listeners t));
  wf_pos : ∀ k, k ∈ dict.keys (_update_listeners t) -> 1 <= k;
  wf_bound : ∀ k p, (k, BoundUpdate p) ∈ _update_listeners t ->
             (a < p)%nat ∧ ∃ t', h !! p = Some t' ∧ is_multi t';
  wf_subs : ∀ subs c, state t = MultiTask subs -> c ∈ subs -> (c < a)%nat;
  wf_val : wf_value (state t)
}.

Definition wf (h : list task) : Prop := ∀ a t, h !! a = Some t -> wf_task h a t.

(** A callback that [add] may be given for the task at [a]. *)
Definition registrable (h : list task) (a : addr) (cb : callback) : Prop :=
  match cb with
  | BoundUpdate p => (a < p)%nat ∧ ∃ tp, h !! p = Some tp ∧ is_multi tp
  | Extern _ => True
  end.

(** ** The effect of [update] and [reset] on the heap *)

(** The value of [is_done()] on a well-formed heap. *)
Definition finished (h : list task) (a : addr) : bool :=
  match is_done (S a) h a with
  | Ok b => b
  | Error _ => false
  end.

(** The state after [_update()]. *)
Definition step_state (s : variant) : variant :=
  match s with
  | SimpleTask _ => SimpleTask (c_int 1)
  | CounterTask progress len => CounterTask (c_int (progress + 1)) len
  | MultiTask subs => MultiTask subs
  end.

(** The state of a leaf after [_reset()]. *)
Definition zero_state (s : variant) : variant :=
  match s with
  | SimpleTask _ => SimpleTask (c_int 0)
  | CounterTask _ len => CounterTask (c_int 0) len
  | MultiTask subs => MultiTask subs
  end.

Definition step_task (t : task) : task := set_state t (step_state (state t)).
Definition zero_task (t : task) : task := set_state t (zero_state (state t)).

(** The heap after [update()] on the task at [a]. *)
Definition updated (h : list task) (a : addr) : list task :=
  if finished h a then h
  else match h !! a with
       | Some t => <[a := step_task t]> h
       | None => h
       end.

(** [t'] is [t] with another value in its flag or counter. *)
Definition revalued (t t' : task) : Prop :=
  _name t' = _name t
  ∧ _update_listeners t' = _update_listeners t
  ∧ match state t, state t' with
    | SimpleTask _, SimpleTask _ => True
    | CounterTask _ len, CounterTask _ len' => len' = len
    | MultiTask subs, MultiTask subs' => subs' = subs
    | _, _ => False
    end.

(** Heaps that differ only in the values of flags and counters. *)
Definition revalued_heap (h h' : list task) : Prop := Forall2 revalued h h'.

(** [b] is the task [a] or is reached from it through [_sub_tasks]. *)
Inductive descendant (h : list task) : addr -> addr -> Prop :=
| descendant_self a : descendant h a a
| descendant_sub a t subs c b :
    h !! a = Some t -> state t = MultiTask subs -> c ∈ subs ->
    descendant h c b -> descendant h a b.

(** [h'] is [h] with the tasks of [D] put back to zero. *)
Definition zeroed (D : addr -> Prop) (h h' : list task) : Prop :=
  length h' = length h
  ∧ ∀ b t, h !! b = Some t ->
      (h' !! b = Some t ∨ h' !! b = Some (zero_task t))
      ∧ (D b -> h' !! b = Some (zero_task t))
      ∧ (¬ D b -> h' !! b = Some t).

(** ** The calls of listeners *)

(** The calls made by the task at [a] itself, among the events [tr]. *)
Definition own (a : addr) (tr : list event) : list event :=
  filter (fun e => ev_task e = a) tr.

(** All the events [tr] come from [a] or from tasks built after it. *)
Definition above (a : addr) (tr : list event) : Prop :=
  Forall (fun e => (a <= ev_task e)%nat) tr.

(** The calls of one round of notification by [a]: one per entry of its
    registry, in the order of the registry. *)
Definition round (a : addr) (t : task) : list event :=
  (fun item => Called a item.1 item.2) <$> _update_listeners t.

(** ** Reachable worlds

    The worlds a client of the module can produce: it builds tasks, registers
    callbacks of its own, removes registry entries, and calls [update] and
    [reset].  A step is a call that returns; the depth allowed to a call is
    arbitrary. *)

Inductive reachable : world -> Prop :=
| reachable_start : reachable empty_world
| reachable_SimpleTask w name a w' :
    reachable w -> new_SimpleTask name w = Return a w' -> reachable w'
| reachable_CounterTask w len name a w' :
    reachable w -> new_CounterTask len name w = Return a w' -> reachable w'
| reachable_MultiTask w name tasks a w' :
    reachable w -> new_MultiTask name tasks w = Return a w' -> reachable w'
| reachable_add w a tag uid w' :
    reachable w -> add a (Extern tag) w = Return uid w' -> reachable w'
| reachable_remove w a uid w' :
    reachable w -> remove a uid w = Return () w' -> reachable w'
| reachable_update w fuel a w' :
    reachable w -> update fuel a w = Return () w' -> reachable w'
| reachable_reset w fuel a w' :
    reachable w -> reset fuel a w = Return () w' -> reachable w'.

(** A client's script: a sequence of calls, each of which has to return. *)
Inductive api : Type :=
| NewSimpleTask (name : string)
| NewCounterTask (progress_length : Z) (name : string)
| NewMultiTask (name : string) (tasks : list addr)
| Add (self : addr) (tag : nat)
| Remove (self : addr) (uid : Z)
| Update (fuel : nat) (self : addr)
| Reset (fuel : nat) (self : addr).

Definition returned {A : Type} (o : outcome A) : option world :=
  match o with
  | Return _ w => Some w
  | Raise _ _ => None
  end.

Definition run_call (c : api) (w : world) : option world :=
  match c with
  | NewSimpleTask name => returned (new_SimpleTask name w)
  | NewCounterTask len name => returned (new_CounterTask len name w)
  | NewMultiTask name tasks => returned (new_MultiTask name tasks w)
  | Add self tag => returned (add self (Extern tag) w)
  | Remove self uid => returned (remove self uid w)
  | Update fuel self => returned (update fuel self w)
  | Reset fuel self => returned (reset fuel self w)
  end.

Fixpoint run_script (cs : list api) (w : world) : option world :=
  match cs with
  | [] => Some w
  | c :: cs' =>
      match run_call c w with
      | Some w' => run_script cs' w'
      | None => None
      end
  end.

(** [n] calls of [m] in a row. *)
Fixpoint times (n : nat) (m : M unit) : M unit :=
  match n with
  | O => mret ()
  | S n' => m ≫= fun _ => times n' m
  end.

(** ** Ratios *)

Definition sumQ (qs : list Q) : Q := foldr Qplus 0%Q qs.

(** The arithmetic mean of a list of ratios. *)
Definition mean (qs : list Q) : Q :=
  (sumQ qs / inject_Z (Z.of_nat (length qs)))%Q.




(** ** Sample worlds *)

(** Two counted leaves, with targets 2 and 4, under one composite that has
    one listener. *)
Definition sample_script : list api :=
  [NewCounterTask 2 "mul"; NewCounterTask 4 "sum";
   NewMultiTask "tasks" [0; 1]%nat; Add 2%nat 0%nat].

Definition sample_world : world :=
  World [Task "mul" [(1, BoundUpdate 2%nat)] (CounterTask 0 2);
         Task "sum" [(1, BoundUpdate 2%nat)] (CounterTask 0 4);
         Task "tasks" [(1, Extern 0)] (MultiTask [0; 1]%nat)] [].

(** The sample world after the first leaf was driven past its target, the
    composite reset, and each leaf updated once. *)
Definition driven_script : list api :=
  sample_script ++ [Update 6 0; Update 6 0; Update 6 0; Reset 9 2; Update 6 1; Update 6 0]%nat.

(** A boolean leaf with one listener of the environment. *)
Definition flag_world : world :=
  World [Task "flag" [(1, Extern 7)] (SimpleTask 0)] [].

(** ** Registering and removing *)

(** The registry holds exactly the ids 1, ..., n, n being its size: what a
    registry is after any number of [add] on a new task. *)
Definition dense (d : dict.t callback) : Prop :=
  ∀ j, j ∈ dict.keys d ↔ 1 <= j <= Z.of_nat (length d).

(** ** Who gets called *)

(** The call [e] is the call of an entry that the registry of its task
    holds in [w]. *)
Definition registered (w : world) (e : event) : Prop :=
  ∃ ls, listeners_at w (ev_task e) = Some ls ∧ (ev_uid e, ev_listener e) ∈ ls.

(** From [w] to [w'] no registry has changed, and the calls made are calls
    of entries of the registries. *)
Definition calls_registered (w w' : world) : Prop :=
  (∀ b, listeners_at w' b = listeners_at w b)
  ∧ ∃ tr, trace w' = trace w ++ tr ∧ Forall (registered w) tr.

(** A script that only updates and resets. *)
Definition drives (c : api) : bool :=
  match c with
  | Update _ _ | Reset _ _ => true
  | _ => false
  end.

(** ** What a composite hears of the updates below it *)

(** From [w] to [w'] the heap is the same and the task at [m] has made no
    call. *)
Definition silent (m : addr) (w w' : world) : Prop :=
  heap w' = heap w ∧ ∃ tr, trace w' = trace w ++ tr ∧ own m tr = [].

(** From [w] to [w'] the heap is the same and the trace has grown. *)
Definition extends (w w' : world) : Prop :=
  heap w' = heap w ∧ ∃ tr, trace w' = trace w ++ tr.

(** The [update] of the task at [a] is relayed to the composite at [m]:
    [a] is [m], or the registry of [a] holds the [update] of a composite that
    is not done and relays to [m]. *)
Inductive relays (h : list task) : addr -> addr -> Prop :=
| relays_here m : relays h m m
| relays_step a t k p m :
    h !! a = Some t -> (k, BoundUpdate p) ∈ _update_listeners t ->
    finished h p = false -> relays h p m -> relays h a m.

(** ** When [completeness()] raises *)

(** The task at [b] is a counted leaf with target 0. *)
Definition zero_target (h : list task) (b : addr) : Prop :=
  ∃ t progress, h !! b = Some t ∧ state t = CounterTask progress 0.

(** ** What [MultiTask.__init__] does to its children *)

(** The entries that the [update] of the composite at [self] takes in a
    registry, under the ids [ids]. *)
Definition subscriptions (self : addr) (ids : list Z) : dict.t callback :=
  (fun k => (k, BoundUpdate self)) <$> ids.

(** How many times [a] is given among the arguments [tasks]. *)
Definition occurrences (a : addr) (tasks : list addr) : nat :=
  length (filter (fun c => c = a) tasks).

(** ** What never changes *)

(** [t'] has the name, the class, the target and the children of [t]. *)
Definition same_shape (t t' : task) : Prop :=
  _name t' = _name t
  ∧ match state t with
    | SimpleTask _ => ∃ v, state t' = SimpleTask v
    | CounterTask _ len => ∃ progress, state t' = CounterTask progress len
    | MultiTask subs => state t' = MultiTask subs
    end.

(** [h'] holds the tasks of [h], each with the shape it had, and after them
    tasks with a name that is not empty. *)
Definition grown (h h' : list task) : Prop :=
  ∃ new, Forall2 same_shape (h ++ new) h'
         ∧ Forall (fun t => _name t ≠ EmptyString) new.

(** ** Invariants of the flags and of the registries *)

(** Every bound [update] held by a registry belongs to a composite that has
    the holder among its children. *)
Definition subscribed_by_parents (h : list task) : Prop :=
  ∀ a t k p, h !! a = Some t -> (k, BoundUpdate p) ∈ _update_listeners t ->
    ∃ tp subs, h !! p = Some tp ∧ state tp = MultiTask subs ∧ a ∈ subs.

(** ** After a reset *)

(** Below the task at [a] every counted leaf has a positive target and
    every composite has a child. *)
Definition populated (h : list task) (a : addr) : Prop :=
  ∀ b t, descendant h a b -> h !! b = Some t ->
    match state t with
    | SimpleTask _ => True
    | CounterTask _ len => 0 < len
    | MultiTask subs => subs ≠ []
    end.

(** The tasks at and below [a] are at zero. *)
Definition at_zero (h : list task) (a : addr) : Prop :=
  ∀ b t, descendant h a b -> h !! b = Some t ->
    match state t with
    | SimpleTask v => v = 0
    | CounterTask progress len => progress = 0 ∧ 0 < len
    | MultiTask subs => subs ≠ []
    end.

(** ** Reading a duration back *)

(** The number that a text of digits with an optional sign stands for. *)
Definition read_int (s : string) : option Z :=
  option_map Z.of_int (NilEmpty.int_of_string s).

(** The text from the milliseconds, the seconds, the minutes or the hours
    on. *)
Definition from_ms (ms : Z) : string := (format_0d 3 ms ++ "ms")%string.

Definition from_s (s ms : Z) : string := (format_0d 2 s ++ "s " ++ from_ms ms)%string.

Definition from_m (m s ms : Z) : string := (format_0d 2 m ++ "m " ++ from_s s ms)%string.

Definition from_h (h m s ms : Z) : string := (format_0d 2 h ++ "h " ++ from_m m s ms)%string.

(** * Properties *)

(** ** The C [int] *)

Lemma c_int_id (z : Z) : - 2 ^ 31 <= z <= INT_MAX -> c_int z = z.
Proof.
  unfold c_int, INT_MAX. intros Hz.
  rewrite Z.mod_small by lia. lia.
Qed.

Lemma c_int_range (z : Z) : - 2 ^ 31 <= c_int z <= INT_MAX.
Proof.
  unfold c_int, INT_MAX.
  pose proof (Z.mod_pos_bound (z + 2 ^ 31) (2 ^ 32) ltac:(lia)). lia.
Qed.

Lemma c_int_le (z : Z) : - 2 ^ 31 <= z -> c_int z <= z.
Proof.
  unfold c_int. intros Hz.
  pose proof (Z.mod_le (z + 2 ^ 31) (2 ^ 32) ltac:(lia) ltac:(lia)). lia.
Qed.

Lemma c_int_wraps : c_int (INT_MAX + 1) = - 2 ^ 31.
Proof. reflexivity. Qed.

(** ** The id allocator *)

Module utils_facts.
Import utils.

Lemma insert_sorted_perm (x : Z) (l : list Z) : insert_sorted x l ≡ₚ x :: l.
Proof.
  induction l as [|y l IH]; simpl; [done|].
  destruct (x <=? y); [done|].
  rewrite IH. apply Permutation_swap.
Qed.

Lemma sorted_perm (l : list Z) : sorted l ≡ₚ l.
Proof.
  induction l as [|x l IH]; simpl; [done|].
  unfold sorted in *. simpl. rewrite insert_sorted_perm. by rewrite IH.
Qed.

Lemma elem_of_sorted (x : Z) (l : list Z) : x ∈ sorted l ↔ x ∈ l.
Proof. by rewrite sorted_perm. Qed.

Lemma insert_sorted_increasing (x : Z) (l : list Z) :
  x ∉ l -> increasing l -> increasing (insert_sorted x l).
Proof.
  induction l as [|y l IH]; simpl; intros Hx Hl.
  - split; [constructor|done].
  - destruct Hl as [Hy Hl]. apply not_elem_of_cons in Hx as [Hxy Hx].
    destruct (Z.leb_spec x y).
    + simpl. repeat split; [|done..].
      constructor; [lia|]. eapply Forall_impl; [exact Hy|]. simpl. lia.
    + simpl. split; [|by apply IH].
      unfold lower. rewrite insert_sorted_perm. constructor; [lia|done].
Qed.

Lemma sorted_increasing (l : list Z) : NoDup l -> increasing (sorted l).
Proof.
  induction 1 as [|x l Hx _ IH]; [done|].
  unfold sorted in *. simpl. apply insert_sorted_increasing; [|done].
  fold (sorted l). by rewrite elem_of_sorted.
Qed.

(** What the scan returns on an increasing list above [prev]: the ids
    [prev+1 .. c] are taken, [c+1 .. r] are free, and [r] is either the id
    just below the next taken one or, when nothing is left, [c + 1]. *)
Lemma scan_spec (uids : list Z) (prev : Z) :
  lower prev uids -> increasing uids ->
  ∃ c, prev <= c < scan prev uids
       ∧ (∀ j, prev < j <= c -> j ∈ uids)
       ∧ (∀ j, c < j <= scan prev uids -> j ∉ uids)
       ∧ ((scan prev uids + 1) ∈ uids
          ∨ ((∀ k, k ∈ uids -> k <= c) ∧ scan prev uids = c + 1)).
Proof.
  revert prev. induction uids as [|uid rest IH]; intros prev Hlow Hinc; simpl.
  - exists prev. split; [lia|]. split; [intros; lia|].
    split; [intros j _; apply not_elem_of_nil|].
    right. split; [|done]. intros k Hk. by apply elem_of_nil in Hk.
  - destruct Hinc as [Hlo Hinc].
    apply Forall_cons in Hlow as [Hprev Hlow].
    destruct (Z.eqb_spec (uid - prev) 1) as [Heq|Hne]; simpl.
    + destruct (IH uid Hlo Hinc) as (c & Hc & Htaken & Hfree & Hnext).
      exists c. split; [lia|]. split; [|split].
      * intros j Hj. destruct (decide (j = uid)) as [->|]; [left|right].
        apply Htaken. lia.
      * intros j Hj. apply not_elem_of_cons. split; [lia|]. by apply Hfree.
      * destruct Hnext as [Hnext|[Hall Hr]]; [left; by right|].
        right. split; [|done].
        intros k [->|Hk]%elem_of_cons; [lia|]. by apply Hall.
    + exists prev. split; [lia|]. split; [intros; lia|]. split.
      * intros j Hj. apply not_elem_of_cons. split; [lia|].
        intros Hin. eapply Forall_forall in Hlo; [|exact Hin]. simpl in Hlo. lia.
      * left. replace (uid - 1 + 1) with uid by lia. left.
Qed.

Lemma max_key_ge (ks : list Z) (k : Z) : k ∈ ks -> k <= max_key ks.
Proof.
  induction ks as [|x ks IH]; simpl; [by intros ?%elem_of_nil|].
  intros [->|Hk]%elem_of_cons; [lia|]. specialize (IH Hk). lia.
Qed.

Lemma max_key_elem (ks : list Z) :
  (∀ k, k ∈ ks -> 1 <= k) -> ks ≠ [] -> max_key ks ∈ ks.
Proof.
  induction ks as [|x ks IH]; [done|]. intros Hpos _. simpl.
  destruct ks as [|y ks].
  - simpl. assert (1 <= x) by (apply Hpos; left).
    rewrite Z.max_l by lia. left.
  - destruct (Z.max_spec x (max_key (y :: ks))) as [[_ ->]|[_ ->]]; [|left].
    right. apply IH; [|done]. intros k Hk. apply Hpos. by right.
Qed.

(** The allocator on a registry of distinct positive keys. *)
Lemma unique_integer_key_spec {V : Type} (d : list (Z * V)) :
  NoDup (d.*1) -> (∀ k, k ∈ (d.*1) -> 1 <= k) ->
  let uid := unique_integer_key d in
  1 <= uid ∧ (uid ∉ (d.*1))
  ∧ (∃ c, 0 <= c < uid
          ∧ (∀ j, 1 <= j <= c -> j ∈ (d.*1))
          ∧ (∀ j, c < j <= uid -> j ∉ (d.*1))
          ∧ ((uid + 1) ∈ (d.*1) ∨ ((∀ k, k ∈ (d.*1) -> k <= c) ∧ uid = c + 1))).
Proof.
  intros Hnd Hpos uid.
  destruct (scan_spec (sorted (d.*1)) 0) as (c & Hc & Htaken & Hfree & Hnext).
  - apply Forall_forall. intros k Hk. rewrite elem_of_sorted in Hk.
    apply Hpos in Hk. lia.
  - by apply sorted_increasing.
  - fold (unique_integer_key d) in *. fold uid in Hc, Hfree, Hnext.
    setoid_rewrite elem_of_sorted in Htaken.
    setoid_rewrite elem_of_sorted in Hfree.
    setoid_rewrite elem_of_sorted in Hnext.
    split; [lia|]. split; [apply Hfree; lia|].
    exists c. repeat split; try lia; try done.
    intros j Hj. apply Htaken. lia.
Qed.

Lemma unique_integer_key_empty {V : Type} : unique_integer_key (@nil (Z * V)) = 1.
Proof. reflexivity. Qed.

Example unique_integer_key_first_gap :
  unique_integer_key [(5, tt); (1, tt); (2, tt); (9, tt)] = 4.
Proof. reflexivity. Qed.

Example unique_integer_key_no_key_1 : unique_integer_key [(3, tt); (2, tt)] = 1.
Proof. reflexivity. Qed.

Example unique_integer_key_no_gap : unique_integer_key [(2, tt); (1, tt); (3, tt)] = 4.
Proof. reflexivity. Qed.

Lemma unique_integer_key_dense {V : Type} (d : list (Z * V)) :
  NoDup (d.*1) -> (∀ k, k ∈ (d.*1) -> 1 <= k) ->
  (∀ j, 1 <= j <= max_key (d.*1) -> j ∈ (d.*1)) ->
  unique_integer_key d = max_key (d.*1) + 1.
Proof.
  intros Hnd Hpos Hdense.
  destruct (unique_integer_key_spec d Hnd Hpos) as (Hge & Hfresh & c & Hc & Htaken & Hfree & Hnext).
  destruct Hnext as [Hnext|[Hall Huid]].
  - apply max_key_ge in Hnext. exfalso. apply Hfresh, Hdense. lia.
  - rewrite Huid. f_equal.
    destruct (decide (d.*1 = [])) as [Hnil|Hne].
    + rewrite Hnil in *. simpl. destruct (decide (c = 0)) as [|Hc0]; [done|].
      exfalso. eapply not_elem_of_nil, (Htaken 1). lia.
    + pose proof (max_key_elem _ Hpos Hne) as Hmax. apply Hall in Hmax.
      destruct (decide (c = 0)) as [->|Hc0].
      * pose proof (max_key_elem _ Hpos Hne) as H1. apply Hpos in H1. lia.
      * assert (c ∈ d.*1) as Hcin by (apply Htaken; lia).
        apply max_key_ge in Hcin. lia.
Qed.

End utils_facts.

(** ** Dictionaries *)

Module dict_facts.
Section facts.
Context {V : Type}.
Implicit Types (d : dict.t V) (k : Z) (v : V).

Lemma set_fresh k v d : k ∉ dict.keys d -> dict.set k v d = d ++ [(k, v)].
Proof.
  induction d as [|[k' v'] d IH]; simpl; [done|].
  intros [Hne Hk]%not_elem_of_cons.
  destruct (Z.eqb_spec k' k); [congruence|]. by rewrite IH.
Qed.

Lemma keys_set_fresh k v d : k ∉ dict.keys d -> dict.keys (dict.set k v d) = dict.keys d ++ [k].
Proof. intros Hk. rewrite set_fresh by done. unfold dict.keys. by rewrite fmap_app. Qed.

Lemma del_None k d : k ∉ dict.keys d -> dict.del k d = None.
Proof.
  induction d as [|[k' v'] d IH]; simpl; [done|].
  intros [Hne Hk]%not_elem_of_cons.
  destruct (Z.eqb_spec k' k); [congruence|]. by rewrite IH.
Qed.

Lemma del_Some k d : k ∈ dict.keys d -> is_Some (dict.del k d).
Proof.
  induction d as [|[k' v'] d IH]; simpl; [by intros ?%elem_of_nil|].
  intros Hk. destruct (Z.eqb_spec k' k); [by eexists|].
  apply elem_of_cons in Hk as [?|Hk]; [congruence|].
  destruct (IH Hk) as [d' ->]. by eexists.
Qed.

Lemma del_sublist k d d' : dict.del k d = Some d' -> sublist d' d.
Proof.
  revert d'. induction d as [|[k' v'] d IH]; simpl; intros d'; [done|].
  destruct (Z.eqb_spec k' k).
  - intros [= <-]. by apply sublist_cons.
  - destruct (dict.del k d) as [d''|]; [|done]. intros [= <-].
    apply sublist_skip. by apply IH.
Qed.

Lemma del_keys_sublist k d d' : dict.del k d = Some d' -> sublist (dict.keys d') (dict.keys d).
Proof. intros H. unfold dict.keys. apply fmap_sublist. by eapply del_sublist. Qed.

End facts.
End dict_facts.

(** ** The monad of statements *)

Lemma bind_Return {A B : Type} (m : M A) (f : A -> M B) (w w' : world) (x : A) :
  m w = Return x w' -> (m ≫= f) w = f x w'.
Proof. unfold mbind, M_bind. by intros ->. Qed.

Lemma bind_Raise {A B : Type} (m : M A) (f : A -> M B) (w w' : world) (e : exn) :
  m w = Raise e w' -> (m ≫= f) w = Raise e w'.
Proof. unfold mbind, M_bind. by intros ->. Qed.

Lemma bind_inv_Return {A B : Type} (m : M A) (f : A -> M B) (w w' : world) (y : B) :
  (m ≫= f) w = Return y w' -> ∃ x w1, m w = Return x w1 ∧ f x w1 = Return y w'.
Proof. unfold mbind, M_bind. destruct (m w); [eauto|done]. Qed.

Lemma eval_Ok {A : Type} (q : list task -> result A) (w : world) (x : A) :
  q (heap w) = Ok x -> eval q w = Return x w.
Proof. unfold eval. by intros ->. Qed.

Lemma eval_inv_Return {A : Type} (q : list task -> result A) (w w' : world) (x : A) :
  eval q w = Return x w' -> q (heap w) = Ok x ∧ w' = w.
Proof. unfold eval. destruct (q (heap w)); [|done]. by intros [= -> ->]. Qed.

Lemma bind_eval {A B : Type} (q : list task -> result A) (f : A -> M B)
    (h : list task) (tr : list event) (x : A) :
  q h = Ok x -> (eval q ≫= f) (World h tr) = f x (World h tr).
Proof. intros Hq. apply bind_Return. by apply eval_Ok. Qed.

Lemma bind_lookup {B : Type} (f : task -> M B) (h : list task) (tr : list event)
    (a : addr) (t : task) :
  h !! a = Some t -> (eval (lookup_task a) ≫= f) (World h tr) = f t (World h tr).
Proof. intros Ht. apply bind_eval. unfold lookup_task. by rewrite Ht. Qed.

Lemma lookup_task_Ok (a : addr) (h : list task) (t : task) :
  h !! a = Some t -> lookup_task a h = Ok t.
Proof. unfold lookup_task. by intros ->. Qed.

Lemma lookup_task_inv (a : addr) (h : list task) (t : task) :
  lookup_task a h = Ok t -> h !! a = Some t.
Proof. unfold lookup_task. by destruct (h !! a); [intros [= ->]|]. Qed.

(** ** The queries do not depend on the fuel, once there is enough *)

Lemma all_ext {A : Type} (f g : A -> result bool) (l : list A) (b : bool) :
  (∀ x b', x ∈ l -> f x = Ok b' -> g x = Ok b') ->
  all f l = Ok b -> all g l = Ok b.
Proof.
  induction l as [|x l IH]; simpl; [done|]. intros Hfg.
  destruct (f x) as [bx|] eqn:Hfx; simpl; [|done].
  rewrite (Hfg x bx) by (done || left). simpl.
  destruct bx; [|done]. apply IH. intros y b' Hy. apply Hfg. by right.
Qed.

Lemma is_done_mono (f f' : nat) (h : list task) (a : addr) (b : bool) :
  (f <= f')%nat -> is_done f h a = Ok b -> is_done f' h a = Ok b.
Proof.
  revert f' a b. induction f as [|f IH]; intros f' a b Hle; simpl; [done|].
  destruct f' as [|f']; [lia|]. simpl.
  destruct (lookup_task a h) as [t|]; simpl; [|done].
  destruct (state t); try done.
  apply all_ext. intros x b' _. apply IH. lia.
Qed.

Lemma accumulate_ext {A : Type} (f g : A -> result Q) (l : list A) (acc q : Q) :
  (∀ x q', x ∈ l -> f x = Ok q' -> g x = Ok q') ->
  accumulate f acc l = Ok q -> accumulate g acc l = Ok q.
Proof.
  revert acc. induction l as [|x l IH]; simpl; intros acc; [done|]. intros Hfg.
  destruct (f x) as [qx|] eqn:Hfx; simpl; [|done].
  rewrite (Hfg x qx) by (done || left). simpl.
  apply IH. intros y q' Hy. apply Hfg. by right.
Qed.

Lemma completeness_mono (f f' : nat) (h : list task) (a : addr) (q : Q) :
  (f <= f')%nat -> completeness f h a = Ok q -> completeness f' h a = Ok q.
Proof.
  revert f' a q. induction f as [|f IH]; intros f' a q Hle; simpl; [done|].
  destruct f' as [|f']; [lia|]. simpl.
  destruct (lookup_task a h) as [t|]; simpl; [|done].
  destruct (state t) as [| |subs]; try done.
  destruct (length subs =? 0)%nat; [done|].
  destruct (accumulate (completeness f h) 0 subs) as [acc|] eqn:Hacc; simpl; [|done].
  erewrite accumulate_ext; [done| |exact Hacc].
  intros x q' _. apply IH. lia.
Qed.

Lemma all_forallb {A : Type} (f : A -> result bool) (g : A -> bool) (l : list A) :
  (∀ x, x ∈ l -> f x = Ok (g x)) -> all f l = Ok (forallb g l).
Proof.
  induction l as [|x l IH]; simpl; [done|]. intros Hfg.
  rewrite Hfg by left. simpl. destruct (g x); [|done].
  apply IH. intros y Hy. apply Hfg. by right.
Qed.

Lemma is_done_finished (h : list task) (a : addr) (f : nat) :
  wf h -> (a < length h)%nat -> (a < f)%nat -> is_done f h a = Ok (finished h a).
Proof.
  intros Hwf. revert f. induction (lt_wf a) as [a _ IH]. intros f Ha Hf.
  assert (∃ b, is_done (S a) h a = Ok b) as [b Hb].
  { simpl. destruct (lookup_lt_is_Some_2 h a Ha) as [t Ht].
    rewrite (lookup_task_Ok _ _ _ Ht). simpl.
    destruct (state t) as [| |subs] eqn:Hst; [by eexists..|].
    eexists. apply all_forallb with (g := finished h). intros c Hc.
    pose proof (wf_subs _ _ _ (Hwf _ _ Ht) _ _ Hst Hc) as Hlt.
    apply IH; lia. }
  unfold finished. rewrite Hb. eapply is_done_mono; [|exact Hb]. lia.
Qed.

Lemma finished_unfold (h : list task) (a : addr) (t : task) :
  wf h -> h !! a = Some t ->
  finished h a = match state t with
             | SimpleTask v => truthy v
             | CounterTask progress len => len <=? progress
             | MultiTask subs => forallb (finished h) subs
             end.
Proof.
  intros Hwf Ht. unfold finished at 1. simpl.
  rewrite (lookup_task_Ok _ _ _ Ht). simpl.
  destruct (state t) as [| |subs] eqn:Hst; [done..|].
  rewrite all_forallb with (g := finished h); [done|].
  intros c Hc. pose proof (wf_subs _ _ _ (Hwf _ _ Ht) _ _ Hst Hc) as Hlt.
  apply lookup_lt_Some in Ht. apply is_done_finished; [done|lia..].
Qed.

(** ** Replacing the shared value of a task *)

Lemma revalued_refl (t : task) : revalued t t.
Proof. repeat split. by destruct (state t). Qed.

Lemma revalued_trans (t1 t2 t3 : task) : revalued t1 t2 -> revalued t2 t3 -> revalued t1 t3.
Proof.
  intros (Hn1 & Hl1 & Hs1) (Hn2 & Hl2 & Hs2). split; [congruence|]. split; [congruence|].
  destruct (state t1), (state t2), (state t3); try done; congruence.
Qed.

Lemma revalued_step (t : task) : revalued t (step_task t).
Proof. repeat split. simpl. by destruct (state t). Qed.

Lemma revalued_zero (t : task) : revalued t (zero_task t).
Proof. repeat split. simpl. by destruct (state t). Qed.

Lemma revalued_multi (t t' : task) : revalued t t' -> is_multi t -> is_multi t'.
Proof.
  intros (_ & _ & Hs) [subs Hsubs]. rewrite Hsubs in Hs.
  destruct (state t') as [| |subs'] eqn:E; try done. by exists subs'.
Qed.

Lemma revalued_subs (t t' : task) (subs : list addr) :
  revalued t t' -> state t' = MultiTask subs -> state t = MultiTask subs.
Proof.
  intros (_ & _ & Hs) Hsubs. rewrite Hsubs in Hs.
  destruct (state t); try done. by subst.
Qed.

Lemma set_state_same (t : task) : set_state t (state t) = t.
Proof. by destruct t. Qed.

Lemma step_task_multi (t : task) : is_multi t -> step_task t = t.
Proof. intros [subs Hs]. unfold step_task. rewrite Hs. simpl. rewrite <- Hs. apply set_state_same. Qed.

Lemma zero_task_multi (t : task) : is_multi t -> zero_task t = t.
Proof. intros [subs Hs]. unfold zero_task. rewrite Hs. simpl. rewrite <- Hs. apply set_state_same. Qed.

Lemma zero_task_idemp (t : task) : zero_task (zero_task t) = zero_task t.
Proof. unfold zero_task, set_state. simpl. by destruct (state t). Qed.

Lemma wf_insert (h : list task) (a : addr) (t t' : task) :
  wf h -> h !! a = Some t -> revalued t t' -> wf_value (state t') ->
  wf (<[a := t']> h).
Proof.
  intros Hwf Ht Hrev Hval b tb Hb.
  assert (∀ p tp, h !! p = Some tp -> is_multi tp ->
            ∃ tp', <[a := t']> h !! p = Some tp' ∧ is_multi tp') as Hmulti.
  { intros p tp Hp Hm. destruct (decide (a = p)) as [<-|Hne].
    - exists t'. rewrite list_lookup_insert_eq by by eapply lookup_lt_Some.
      assert (tp = t) as -> by congruence.
      split; [done|]. by eapply revalued_multi.
    - exists tp. by rewrite list_lookup_insert_ne. }
  assert (∃ tb0, h !! b = Some tb0 ∧ revalued tb0 tb ∧ wf_value (state tb))
    as (tb0 & Hb0 & Hrev0 & Hval0).
  { destruct (decide (a = b)) as [<-|Hne].
    - rewrite list_lookup_insert_eq in Hb by by eapply lookup_lt_Some.
      injection Hb as <-. by exists t.
    - rewrite list_lookup_insert_ne in Hb by done. exists tb.
      split; [done|]. split; [apply revalued_refl|]. apply (wf_val _ _ _ (Hwf _ _ Hb)). }
  destruct (Hwf _ _ Hb0) as [Hnd Hpos Hbound Hsubs _].
  destruct Hrev0 as (Hn & Hl & Hs).
  split; rewrite ?Hl; try done.
  - intros k p Hin. destruct (Hbound k p Hin) as (Hlt & tp & Hp & Hm).
    split; [done|]. by eapply Hmulti.
  - intros subs c Hst. apply Hsubs. eapply revalued_subs; [|done]. by repeat split.
Qed.

Lemma wf_step (h : list task) (a : addr) (t : task) :
  wf h -> h !! a = Some t -> finished h a = false -> wf (<[a := step_task t]> h).
Proof.
  intros Hwf Ht Hdone. eapply wf_insert; [done..|apply revalued_step|].
  rewrite (finished_unfold _ _ _ Hwf Ht) in Hdone.
  pose proof (wf_val _ _ _ (Hwf _ _ Ht)) as Hval. simpl.
  destruct (state t) as [v|progress len|subs]; simpl in *; [by right| |done].
  apply Z.leb_gt in Hdone. destruct Hval as (Hrange & Hle & Hge).
  pose proof (c_int_range (progress + 1)). pose proof (c_int_le (progress + 1)).
  split; [done|]. split; [lia|]. intros Hlen.
  rewrite c_int_id; unfold INT_MAX in *; lia.
Qed.

Lemma wf_zero (h : list task) (a : addr) (t : task) :
  wf h -> h !! a = Some t -> wf (<[a := zero_task t]> h).
Proof.
  intros Hwf Ht. eapply wf_insert; [done..|apply revalued_zero|].
  simpl. destruct (state t); simpl; [by left| |done].
  change (c_int 0) with 0. unfold INT_MAX. lia.
Qed.

(** ** What [update] does on a well-formed heap *)

Lemma own_app (a : addr) (tr1 tr2 : list event) : own a (tr1 ++ tr2) = own a tr1 ++ own a tr2.
Proof. apply filter_app. Qed.

Lemma own_above (a b : addr) (tr : list event) : (a < b)%nat -> above b tr -> own a tr = [].
Proof.
  intros Hlt Hab. unfold own. induction Hab as [|e tr He _ IH]; [done|].
  rewrite filter_cons_False by lia. done.
Qed.

Lemma above_le (a b : addr) (tr : list event) : (a <= b)%nat -> above b tr -> above a tr.
Proof. intros Hle H. eapply Forall_impl; [exact H|]. intros e. simpl. lia. Qed.

Lemma _update_run (h : list task) (tr : list event) (a : addr) (t : task) :
  h !! a = Some t ->
  _update a (World h tr) = Return () (World (<[a := step_task t]> h) tr).
Proof.
  intros Ht. unfold _update. rewrite (bind_lookup _ _ _ _ _ Ht).
  unfold step_task. destruct (state t) eqn:Hs; simpl; try done.
  unfold mret, M_ret. rewrite <- Hs, set_state_same. by rewrite list_insert_id.
Qed.

Section notify.
Variables (upd : addr -> M unit) (h : list task) (a : addr).
Hypothesis upd_multi : ∀ q tq tr0, (a < q)%nat -> h !! q = Some tq -> is_multi tq ->
  ∃ tr, upd q (World h tr0) = Return () (World h (tr0 ++ tr)) ∧ above q tr.

Lemma for_each_call (ls : list (Z * callback)) (tr0 : list event) :
  (∀ k p, (k, BoundUpdate p) ∈ ls -> (a < p)%nat ∧ ∃ t', h !! p = Some t' ∧ is_multi t') ->
  ∃ tr, for_each (call upd a) ls (World h tr0) = Return () (World h (tr0 ++ tr))
        ∧ above a tr
        ∧ own a tr = (fun item => Called a item.1 item.2) <$> ls.
Proof.
  revert tr0. induction ls as [|[k cb] ls IH]; intros tr0 Hls; simpl.
  - exists []. rewrite app_nil_r. repeat split. constructor.
  - assert (∃ tr1, call upd a (k, cb) (World h tr0)
                   = Return () (World h (tr0 ++ Called a k cb :: tr1))
                   ∧ above (S a) tr1) as (tr1 & Hcall & Hab1).
    { unfold call. simpl. unfold mbind, M_bind, log. simpl.
      destruct cb as [p|tag].
      - destruct (Hls k p) as (Hlt & tp & Hp & Hm); [left|].
        destruct (upd_multi p tp (tr0 ++ [Called a k (BoundUpdate p)]) Hlt Hp Hm)
          as (tr & Hupd & Hab).
        rewrite Hupd.
        exists tr. rewrite <- app_assoc. split; [done|].
        eapply above_le; [|done]. lia.
      - exists []. split; [done|constructor]. }
    destruct (IH (tr0 ++ Called a k cb :: tr1)) as (tr2 & Hrest & Hab2 & Hown2).
    { intros k' p Hin. apply (Hls k'). by right. }
    exists (Called a k cb :: tr1 ++ tr2).
    rewrite (bind_Return _ _ _ _ _ Hcall), Hrest.
    split; [by rewrite <- app_assoc|]. split.
    + constructor; [simpl; lia|]. apply Forall_app. split; [|done].
      eapply above_le; [|done]. lia.
    + unfold own. rewrite filter_cons_True by done. f_equal.
      fold (own a (tr1 ++ tr2)). rewrite own_app, Hown2.
      by rewrite (own_above a (S a)) by (done || lia).
Qed.

Lemma notify_run (t : task) (tr0 : list event) :
  h !! a = Some t ->
  (∀ k p, (k, BoundUpdate p) ∈ _update_listeners t ->
          (a < p)%nat ∧ ∃ t', h !! p = Some t' ∧ is_multi t') ->
  ∃ tr, notify upd a (World h tr0) = Return () (World h (tr0 ++ tr))
        ∧ above a tr ∧ own a tr = round a t.
Proof.
  intros Ht Hls. unfold notify. rewrite (bind_lookup _ _ _ _ _ Ht).
  by apply for_each_call.
Qed.

End notify.

Lemma updated_multi (h : list task) (a : addr) (t : task) :
  h !! a = Some t -> is_multi t -> updated h a = h.
Proof.
  intros Ht Hm. unfold updated. rewrite Ht, (step_task_multi _ Hm).
  rewrite list_insert_id by done. by destruct (finished h a).
Qed.

Lemma update_spec (fuel : nat) (h : list task) (a : addr) (t : task) (tr0 : list event) :
  wf h -> h !! a = Some t -> (2 * length h - a <= fuel)%nat ->
  ∃ tr, update fuel a (World h tr0) = Return () (World (updated h a) (tr0 ++ tr))
        ∧ above a tr
        ∧ own a tr = (if finished h a then [] else round a t).
Proof.
  revert h a t tr0. induction fuel as [|fuel IH]; intros h a t tr0 Hwf Ht Hfuel.
  { apply lookup_lt_Some in Ht. lia. }
  pose proof (lookup_lt_Some _ _ _ Ht) as Ha.
  simpl. unfold updated. rewrite Ht.
  rewrite (bind_eval _ _ _ _ (finished h a)) by (apply is_done_finished; [done..|lia]).
  destruct (finished h a) eqn:Hdone.
  { exists []. rewrite app_nil_r. repeat split. constructor. }
  rewrite (bind_Return _ _ _ _ _ (_update_run _ _ _ _ Ht)).
  pose proof (wf_step _ _ _ Hwf Ht Hdone) as Hwf1.
  assert (<[a := step_task t]> h !! a = Some (step_task t)) as Ht1
    by by apply list_lookup_insert_eq.
  destruct (notify_run (update fuel) (<[a := step_task t]> h) a) with (t := step_task t) (tr0 := tr0)
    as (tr & Hrun & Hab & Hown); [|done| |].
  - intros q tq tr1 Hlt Hq Hm.
    destruct (IH _ q tq tr1 Hwf1 Hq) as (tr & Hrun & Hab & _).
    { rewrite length_insert. lia. }
    rewrite (updated_multi _ _ _ Hq Hm) in Hrun. eauto.
  - apply (wf_bound _ _ _ (Hwf1 _ _ Ht1)).
  - exists tr. split; [done|]. split; [done|]. by rewrite Hown.
Qed.

(** ** What [reset] does on a well-formed heap *)

Lemma descendant_le (h : list task) (a b : addr) :
  wf h -> descendant h a b -> (b <= a)%nat.
Proof.
  intros Hwf. induction 1 as [a|a t subs c b Ht Hs Hc _ IH]; [done|].
  pose proof (wf_subs _ _ _ (Hwf _ _ Ht) _ _ Hs Hc). lia.
Qed.

Lemma descendant_leaf (h : list task) (a b : addr) (t : task) :
  h !! a = Some t -> ¬ is_multi t -> descendant h a b -> b = a.
Proof.
  intros Ht Hm. destruct 1 as [a|a t' subs c b Ht' Hs]; [done|].
  exfalso. apply Hm. exists subs. congruence.
Qed.

Lemma revalued_heap_lookup (h h' : list task) (a : addr) (t' : task) :
  revalued_heap h h' -> h' !! a = Some t' -> ∃ t, h !! a = Some t ∧ revalued t t'.
Proof. intros Hrev Ha. by eapply Forall2_lookup_r. Qed.

Lemma revalued_heap_lookup_l (h h' : list task) (a : addr) (t : task) :
  revalued_heap h h' -> h !! a = Some t -> ∃ t', h' !! a = Some t' ∧ revalued t t'.
Proof. intros Hrev Ha. by eapply Forall2_lookup_l. Qed.

Lemma revalued_heap_refl (h : list task) : revalued_heap h h.
Proof. apply Forall2_same_length_lookup. split; [done|]. intros ??? -> [= ->]. apply revalued_refl. Qed.

Lemma revalued_heap_trans (h1 h2 h3 : list task) :
  revalued_heap h1 h2 -> revalued_heap h2 h3 -> revalued_heap h1 h3.
Proof.
  intros H12 H23. eapply Forall2_trans; [|done..].
  intros ???. apply revalued_trans.
Qed.

Lemma revalued_heap_insert (h : list task) (a : addr) (t t' : task) :
  h !! a = Some t -> revalued t t' -> revalued_heap h (<[a := t']> h).
Proof.
  intros Ht Hrev. apply Forall2_same_length_lookup. split; [by rewrite length_insert|].
  intros b tb tb' Hb Hb'. destruct (decide (a = b)) as [<-|Hne].
  - rewrite list_lookup_insert_eq in Hb' by by eapply lookup_lt_Some. congruence.
  - rewrite list_lookup_insert_ne in Hb' by done. assert (tb' = tb) as -> by congruence.
    apply revalued_refl.
Qed.

Lemma zeroed_revalued (D : addr -> Prop) (h h' : list task) :
  zeroed D h h' -> revalued_heap h h'.
Proof.
  intros [Hlen Hz]. apply Forall2_same_length_lookup. split; [done|].
  intros b t t' Hb Hb'. destruct (Hz _ _ Hb) as ([H|H] & _); rewrite H in Hb'; injection Hb' as <-.
  - apply revalued_refl.
  - apply revalued_zero.
Qed.

Lemma descendant_revalued (h h' : list task) (a b : addr) :
  revalued_heap h h' -> descendant h a b -> descendant h' a b.
Proof.
  intros Hrev. induction 1 as [a|a t subs c b Ht Hs Hc _ IH]; [constructor|].
  destruct (revalued_heap_lookup_l _ _ _ _ Hrev Ht) as (t' & Ht' & Hr).
  destruct (revalued_multi _ _ Hr) as [subs' Hs']; [by exists subs|].
  pose proof (revalued_subs _ _ _ Hr Hs') as Hs''.
  assert (subs' = subs) as -> by congruence.
  by eapply descendant_sub.
Qed.

Lemma descendant_revalued_inv (h h' : list task) (a b : addr) :
  revalued_heap h h' -> descendant h' a b -> descendant h a b.
Proof.
  intros Hrev. induction 1 as [a|a t' subs c b Ht' Hs' Hc _ IH]; [constructor|].
  destruct (revalued_heap_lookup _ _ _ _ Hrev Ht') as (t & Ht & Hr).
  pose proof (revalued_subs _ _ _ Hr Hs') as Hs.
  by eapply descendant_sub.
Qed.

Lemma zeroed_wf (D : addr -> Prop) (h h' : list task) : wf h -> zeroed D h h' -> wf h'.
Proof.
  intros Hwf Hz a t' Ha'.
  pose proof (zeroed_revalued _ _ _ Hz) as Hrev.
  destruct (revalued_heap_lookup _ _ _ _ Hrev Ha') as (t & Ha & (Hn & Hl & Hs)).
  destruct (Hwf _ _ Ha) as [Hnd Hpos Hbound Hsubs Hval].
  split; rewrite ?Hl; try done.
  - intros k p Hin. destruct (Hbound k p Hin) as (Hlt & tp & Hp & Hm).
    split; [done|].
    destruct (revalued_heap_lookup_l _ _ _ _ Hrev Hp) as (tp' & Hp' & Hr).
    exists tp'. split; [done|]. by eapply revalued_multi.
  - intros subs c Hst. apply Hsubs. eapply revalued_subs; [|done]. by repeat split.
  - destruct Hz as [_ Hz]. destruct (Hz _ _ Ha) as ([H|H] & _); rewrite H in Ha'; injection Ha' as <-.
    + done.
    + simpl. destruct (state t); simpl; [by left| |done].
      change (c_int 0) with 0. unfold INT_MAX. lia.
Qed.

Lemma zeroed_refl (D : addr -> Prop) (h : list task) :
  (∀ b t, h !! b = Some t -> D b -> zero_task t = t) -> zeroed D h h.
Proof.
  intros HD. split; [done|]. intros b t Hb. split; [by left|]. split; [|done].
  intros Hd. by rewrite (HD _ _ Hb Hd).
Qed.

Lemma zeroed_ext (D D' : addr -> Prop) (h h' : list task) :
  (∀ b, D b ↔ D' b) -> zeroed D h h' -> zeroed D' h h'.
Proof.
  intros HD [Hlen Hz]. split; [done|]. intros b t Hb.
  destruct (Hz _ _ Hb) as (H1 & H2 & H3). split; [done|].
  split; intros ?; [apply H2|apply H3]; by rewrite HD.
Qed.

Lemma zeroed_weaken (D D' : addr -> Prop) (h h' : list task) :
  (∀ b, D b -> D' b) ->
  (∀ b t, h !! b = Some t -> D' b -> D b ∨ zero_task t = t) ->
  zeroed D h h' -> zeroed D' h h'.
Proof.
  intros Hsub Hold [Hlen Hz]. split; [done|]. intros b t Hb.
  destruct (Hz _ _ Hb) as (H1 & H2 & H3). split; [done|]. split.
  - intros Hd. destruct (Hold _ _ Hb Hd) as [?|Heq]; [by apply H2|].
    destruct H1 as [->| ->]; by rewrite ?Heq.
  - intros Hnd. apply H3. intros ?. by apply Hnd, Hsub.
Qed.

(** Zeroing [D1] and then [D2] zeroes their union. *)
Lemma zeroed_seq (D1 D2 : addr -> Prop) (h h1 h2 : list task) :
  zeroed D1 h h1 -> zeroed D2 h1 h2 -> zeroed (fun b => D1 b ∨ D2 b) h h2.
Proof.
  intros [Hlen1 Hz1] [Hlen2 Hz2]. split; [congruence|]. intros b t Hb.
  destruct (Hz1 _ _ Hb) as (Hc1 & Hin1 & Hout1).
  assert (∀ t1, h1 !! b = Some t1 -> zero_task t1 = zero_task t ->
            (h2 !! b = Some t1 ∨ h2 !! b = Some (zero_task t))
            ∧ (D2 b -> h2 !! b = Some (zero_task t))
            ∧ (¬ D2 b -> h2 !! b = Some t1)) as Hstep.
  { intros t1 Hb1 Hzz. destruct (Hz2 _ _ Hb1) as (Hc2 & Hin2 & Hout2).
    rewrite Hzz in Hc2, Hin2. done. }
  destruct Hc1 as [Hb1|Hb1].
  - destruct (Hstep _ Hb1 eq_refl) as (Hc2 & Hin2 & Hout2).
    split; [done|]. split.
    + intros [Hd1|Hd2]; [|by apply Hin2].
      specialize (Hin1 Hd1). rewrite Hb1 in Hin1. injection Hin1 as Heq.
      destruct Hc2 as [->| ->]; by rewrite <- ?Heq.
    + intros Hnd. apply Hout2. tauto.
  - destruct (Hstep _ Hb1 (zero_task_idemp t)) as (Hc2 & Hin2 & Hout2).
    assert (h2 !! b = Some (zero_task t)) as Hb2 by (by destruct Hc2).
    split; [by right|]. split; [done|].
    intros Hnd. rewrite Hb2. f_equal.
    assert (¬ D1 b) as Hnd1 by tauto. specialize (Hout1 Hnd1). congruence.
Qed.

Section reset_children.
Variables (rst : addr -> M unit) (a : addr) (n : nat).
Hypothesis rst_spec : ∀ c h t tr0,
  (c < a)%nat -> wf h -> length h = n -> h !! c = Some t ->
  ∃ h' tr, rst c (World h tr0) = Return () (World h' (tr0 ++ tr))
           ∧ zeroed (descendant h c) h h'.

Lemma for_each_rst (cs : list addr) (h : list task) (tr0 : list event) :
  wf h -> length h = n -> (a < n)%nat -> (∀ c, c ∈ cs -> (c < a)%nat) ->
  ∃ h' tr, for_each rst cs (World h tr0) = Return () (World h' (tr0 ++ tr))
           ∧ zeroed (fun b => ∃ c, c ∈ cs ∧ descendant h c b) h h'.
Proof.
  intros Hwf Hlen Han. revert h tr0 Hwf Hlen.
  induction cs as [|c cs IH]; intros h tr0 Hwf Hlen Hcs; simpl.
  - exists h, []. rewrite app_nil_r. split; [done|].
    apply zeroed_refl. intros b t _ (c & Hc & _). by apply elem_of_nil in Hc.
  - assert (c < a)%nat as Hca by (apply Hcs; left).
    destruct (lookup_lt_is_Some_2 h c) as [t Ht]; [lia|].
    destruct (rst_spec c h t tr0 Hca Hwf Hlen Ht) as (h1 & tr1 & Hrun1 & Hz1).
    pose proof (zeroed_wf _ _ _ Hwf Hz1) as Hwf1.
    pose proof (zeroed_revalued _ _ _ Hz1) as Hrev1.
    destruct (IH h1 (tr0 ++ tr1)) as (h2 & tr2 & Hrun2 & Hz2); [done| | |].
    { destruct Hz1 as [-> _]. done. }
    { intros c' Hc'. apply Hcs. by right. }
    exists h2, (tr1 ++ tr2). rewrite (bind_Return _ _ _ _ _ Hrun1), Hrun2.
    split; [by rewrite app_assoc|].
    eapply zeroed_ext; [|exact (zeroed_seq _ _ _ _ _ Hz1 Hz2)].
    intros b. simpl. split.
    + intros [Hd|(c' & Hc' & Hd)].
      * exists c. split; [left|done].
      * exists c'. split; [by right|]. by eapply descendant_revalued_inv.
    + intros (c' & [->|Hc']%elem_of_cons & Hd); [by left|].
      right. exists c'. split; [done|]. by eapply descendant_revalued.
Qed.

End reset_children.

Lemma round_revalued (a : addr) (t t' : task) : revalued t t' -> round a t' = round a t.
Proof. intros (_ & Hl & _). unfold round. by rewrite Hl. Qed.

Lemma reset_spec (a : addr) :
  ∀ (fuel : nat) (h : list task) (t : task) (tr0 : list event),
    wf h -> h !! a = Some t -> (2 * length h + a + 1 <= fuel)%nat ->
    ∃ h' tr1 tr2,
      reset fuel a (World h tr0) = Return () (World h' (tr0 ++ tr1 ++ tr2))
      ∧ zeroed (descendant h a) h h'
      ∧ above a tr2
      ∧ own a tr2 = round a t.
Proof.
  induction (lt_wf a) as [a _ IH]. intros fuel h t tr0 Hwf Ht Hfuel.
  destruct fuel as [|fuel]; [lia|].
  pose proof (lookup_lt_Some _ _ _ Ht) as Ha.
  (* the variant-specific part *)
  assert (∃ h1 tr1 t1,
    _reset (reset fuel) a (World h tr0) = Return () (World h1 (tr0 ++ tr1))
    ∧ zeroed (descendant h a) h h1 ∧ h1 !! a = Some t1 ∧ revalued t t1)
    as (h1 & tr1 & t1 & Hrun1 & Hz1 & Ht1 & Hrev1).
  { unfold _reset. rewrite (bind_lookup _ _ _ _ _ Ht).
    assert (¬ is_multi t ->
              store_task a (zero_task t) (World h tr0)
              = Return () (World (<[a := zero_task t]> h) (tr0 ++ []))
              ∧ zeroed (descendant h a) h (<[a := zero_task t]> h)) as Hleaf.
    { intros Hm. rewrite app_nil_r. split; [done|].
      split; [by rewrite length_insert|]. intros b tb Hb.
      destruct (decide (a = b)) as [<-|Hne].
      - rewrite list_lookup_insert_eq by done. assert (tb = t) as -> by congruence.
        split; [by right|]. split; [done|]. intros []. constructor.
      - rewrite list_lookup_insert_ne by done.
        split; [by left|]. split; [|done].
        intros Hd. apply (descendant_leaf _ _ _ _ Ht Hm) in Hd. congruence. }
    destruct (state t) as [v|progress len|subs] eqn:Hs.
    - assert (set_state t (SimpleTask (c_int 0)) = zero_task t) as ->
        by (unfold zero_task; by rewrite Hs).
      destruct Hleaf as [Hrun Hz]; [intros [? ?]; congruence|].
      exists (<[a := zero_task t]> h), [], (zero_task t).
      split; [done|]. split; [done|].
      split; [by apply list_lookup_insert_eq|apply revalued_zero].
    - assert (set_state t (CounterTask (c_int 0) len) = zero_task t) as ->
        by (unfold zero_task; by rewrite Hs).
      destruct Hleaf as [Hrun Hz]; [intros [? ?]; congruence|].
      exists (<[a := zero_task t]> h), [], (zero_task t).
      split; [done|]. split; [done|].
      split; [by apply list_lookup_insert_eq|apply revalued_zero].
    - assert (∀ c, c ∈ subs -> (c < a)%nat) as Hsubs
        by (intros c; by apply (wf_subs _ _ _ (Hwf _ _ Ht))).
      destruct (for_each_rst (reset fuel) a (length h)) with (cs := subs) (h := h) (tr0 := tr0)
        as (h1 & tr1 & Hrun & Hz); [|done..|].
      { intros c hc tc tr Hc Hwfc Hlen Htc.
        destruct (IH c Hc fuel hc tc tr Hwfc Htc) as (h' & tr1 & tr2 & Hrun & Hz & _); [lia|].
        exists h', (tr1 ++ tr2). by split. }
      assert (h1 !! a = Some t) as Ht1.
      { destruct Hz as [_ Hz]. apply (Hz _ _ Ht).
        intros (c & Hc & Hd). apply Hsubs in Hc.
        apply descendant_le in Hd; [lia|done]. }
      exists h1, tr1, t. split; [done|]. split; [|split; [done|apply revalued_refl]].
      eapply zeroed_weaken; [| |done].
      + intros b (c & Hc & Hd). by eapply descendant_sub.
      + intros b tb Hb. destruct 1 as [a|a t' subs' c b Ht' Hs' Hc Hd].
        * right. apply zero_task_multi. exists subs. congruence.
        * left. exists c. split; [|done]. congruence. }
  (* the notification of the listeners of [a] *)
  simpl. rewrite (bind_Return _ _ _ _ _ Hrun1).
  pose proof (zeroed_wf _ _ _ Hwf Hz1) as Hwf1.
  assert (length h1 = length h) as Hlen1 by apply Hz1.
  destruct (notify_run (update fuel) h1 a) with (t := t1) (tr0 := tr0 ++ tr1)
    as (tr2 & Hrun2 & Hab & Hown); [|done| |].
  - intros q tq tr Hlt Hq Hm.
    destruct (update_spec fuel h1 q tq tr Hwf1 Hq) as (tr' & Hrun & Hab & _); [lia|].
    rewrite (updated_multi _ _ _ Hq Hm) in Hrun. eauto.
  - apply (wf_bound _ _ _ (Hwf1 _ _ Ht1)).
  - exists h1, tr1, tr2. rewrite Hrun2, <- app_assoc.
    split; [done|]. split; [done|]. split; [done|].
    by rewrite Hown, (round_revalued _ _ _ Hrev1).
Qed.

(** ** More fuel does not change a call that returns *)

Lemma for_each_ext {A : Type} (f g : A -> M unit) (l : list A) (w w' : world) :
  (∀ x w1 w2, x ∈ l -> f x w1 = Return () w2 -> g x w1 = Return () w2) ->
  for_each f l w = Return () w' -> for_each g l w = Return () w'.
Proof.
  revert w. induction l as [|x l IH]; intros w Hfg; simpl; [done|].
  intros (u & w1 & Hx & Hrest)%bind_inv_Return. destruct u.
  rewrite (bind_Return _ _ _ _ _ (Hfg x w w1 ltac:(left) Hx)).
  apply IH; [|done]. intros y w2 w3 Hy. apply Hfg. by right.
Qed.

Lemma notify_ext (f g : addr -> M unit) (a : addr) (w w' : world) :
  (∀ p w1 w2, f p w1 = Return () w2 -> g p w1 = Return () w2) ->
  notify f a w = Return () w' -> notify g a w = Return () w'.
Proof.
  intros Hfg. unfold notify.
  intros (t & w1 & Ht & Hloop)%bind_inv_Return.
  rewrite (bind_Return _ _ _ _ _ Ht).
  eapply for_each_ext; [|exact Hloop].
  intros [k cb] w2 w3 _. unfold call. simpl.
  intros ([] & w4 & Hlog & Hcb)%bind_inv_Return.
  rewrite (bind_Return _ _ _ _ _ Hlog). destruct cb; [by apply Hfg|done].
Qed.

Lemma update_mono (f f' : nat) (a : addr) (w w' : world) :
  (f <= f')%nat -> update f a w = Return () w' -> update f' a w = Return () w'.
Proof.
  revert f' a w w'. induction f as [|f IH]; intros f' a w w' Hle; simpl; [done|].
  destruct f' as [|f']; [lia|]. simpl.
  intros (d & w1 & Hd & Hrest)%bind_inv_Return.
  apply eval_inv_Return in Hd as [Hd ->].
  destruct w as [h tr].
  rewrite (bind_eval _ _ _ _ d) by (eapply is_done_mono; [|exact Hd]; lia).
  destruct d; [done|].
  apply bind_inv_Return in Hrest as ([] & w2 & Hupd & Hnot).
  rewrite (bind_Return _ _ _ _ _ Hupd).
  eapply notify_ext; [|exact Hnot]. intros p w3 w4. apply IH. lia.
Qed.

Lemma reset_mono (f f' : nat) (a : addr) (w w' : world) :
  (f <= f')%nat -> reset f a w = Return () w' -> reset f' a w = Return () w'.
Proof.
  revert f' a w w'. induction f as [|f IH]; intros f' a w w' Hle; simpl; [done|].
  destruct f' as [|f']; [lia|]. simpl.
  intros ([] & w1 & Hrst & Hnot)%bind_inv_Return.
  assert (_reset (reset f') a w = Return () w1) as Hrst'.
  { revert Hrst. unfold _reset.
    intros (t & w2 & Ht & Hbody)%bind_inv_Return.
    rewrite (bind_Return _ _ _ _ _ Ht). destruct (state t); try done.
    eapply for_each_ext; [|exact Hbody]. intros c w3 w4 _. apply IH. lia. }
  rewrite (bind_Return _ _ _ _ _ Hrst').
  eapply notify_ext; [|exact Hnot]. intros p w3 w4. apply update_mono. lia.
Qed.

Lemma update_needs_task (f : nat) (a : addr) (w w' : world) :
  update f a w = Return () w' -> is_Some (heap w !! a).
Proof.
  destruct f as [|f]; simpl; [done|].
  intros (d & w1 & Hd & _)%bind_inv_Return.
  apply eval_inv_Return in Hd as [Hd _].
  destruct f as [|f]; simpl in Hd; [done|].
  unfold lookup_task in Hd. destruct (heap w !! a); [by eexists|done].
Qed.

Lemma reset_needs_task (f : nat) (a : addr) (w w' : world) :
  reset f a w = Return () w' -> is_Some (heap w !! a).
Proof.
  destruct f as [|f]; simpl; [done|].
  intros ([] & w1 & Hrst & _)%bind_inv_Return.
  unfold _reset in Hrst. apply bind_inv_Return in Hrst as (t & w2 & Ht & _).
  apply eval_inv_Return in Ht as [Ht _]. apply lookup_task_inv in Ht. by eexists.
Qed.

(** Every [update] that returns is the one [update_spec] describes. *)
Lemma update_returns (f : nat) (a : addr) (h : list task) (tr0 : list event) (w' : world) :
  wf h -> update f a (World h tr0) = Return () w' ->
  ∃ t tr, h !! a = Some t
          ∧ w' = World (updated h a) (tr0 ++ tr)
          ∧ above a tr
          ∧ own a tr = (if finished h a then [] else round a t).
Proof.
  intros Hwf Hrun. destruct (update_needs_task _ _ _ _ Hrun) as [t Ht]. simpl in Ht.
  destruct (update_spec (f `max` (2 * length h)) h a t tr0 Hwf Ht) as (tr & Hspec & Hab & Hown); [lia|].
  apply (update_mono _ (f `max` (2 * length h))) in Hrun; [|lia].
  exists t, tr. split; [done|]. split; [congruence|done].
Qed.

Lemma reset_returns (f : nat) (a : addr) (h : list task) (tr0 : list event) (w' : world) :
  wf h -> reset f a (World h tr0) = Return () w' ->
  ∃ t h' tr1 tr2, h !! a = Some t
          ∧ w' = World h' (tr0 ++ tr1 ++ tr2)
          ∧ zeroed (descendant h a) h h'
          ∧ above a tr2
          ∧ own a tr2 = round a t.
Proof.
  intros Hwf Hrun. destruct (reset_needs_task _ _ _ _ Hrun) as [t Ht]. simpl in Ht.
  destruct (reset_spec a (f `max` (2 * length h + a + 1)) h t tr0 Hwf Ht)
    as (h' & tr1 & tr2 & Hspec & Hz & Hab & Hown); [lia|].
  apply (reset_mono _ (f `max` (2 * length h + a + 1))) in Hrun; [|lia].
  exists t, h', tr1, tr2. split; [done|]. split; [congruence|done].
Qed.

Lemma updated_revalued (h : list task) (a : addr) : revalued_heap h (updated h a).
Proof.
  unfold updated. destruct (finished h a); [apply revalued_heap_refl|].
  destruct (h !! a) as [t|] eqn:Ht; [|apply revalued_heap_refl].
  eapply revalued_heap_insert; [done|apply revalued_step].
Qed.

Lemma updated_wf (h : list task) (a : addr) : wf h -> wf (updated h a).
Proof.
  intros Hwf. unfold updated. destruct (finished h a) eqn:Hd; [done|].
  destruct (h !! a) as [t|] eqn:Ht; [|done]. by apply wf_step.
Qed.

(** ** The registry and the constructors keep the heap well formed *)

Lemma wf_replace (h : list task) (a : addr) (t t' : task) :
  wf h -> h !! a = Some t -> (is_multi t -> is_multi t') -> wf_task h a t' ->
  wf (<[a := t']> h).
Proof.
  intros Hwf Ht Hm Hwf' b tb Hb.
  assert (wf_task h b tb) as [Hnd Hpos Hbound Hsubs Hval].
  { destruct (decide (a = b)) as [<-|Hne].
    - rewrite list_lookup_insert_eq in Hb by by eapply lookup_lt_Some. congruence.
    - rewrite list_lookup_insert_ne in Hb by done. by apply Hwf. }
  split; try done.
  intros k p Hin. destruct (Hbound k p Hin) as (Hlt & tp & Hp & Hmp).
  split; [done|]. destruct (decide (a = p)) as [<-|Hne].
  - exists t'. rewrite list_lookup_insert_eq by by eapply lookup_lt_Some.
    split; [done|]. apply Hm. congruence.
  - exists tp. by rewrite list_lookup_insert_ne.
Qed.

Lemma wf_alloc (h : list task) (t : task) :
  wf h -> _update_listeners t = [] ->
  (∀ subs c, state t = MultiTask subs -> c ∈ subs -> (c < length h)%nat) ->
  wf_value (state t) ->
  wf (h ++ [t]).
Proof.
  intros Hwf Hl Hsubs Hval b tb Hb.
  apply lookup_app_Some in Hb as [Hb|[Hlen Hb]].
  - destruct (Hwf _ _ Hb) as [Hnd Hpos Hbound Hs Hv]. split; try done.
    intros k p Hin. destruct (Hbound k p Hin) as (Hlt & tp & Hp & Hmp).
    split; [done|]. exists tp. split; [|done]. by apply lookup_app_l_Some.
  - apply list_lookup_singleton_Some in Hb as [Hb <-].
    assert (b = length h) as -> by lia.
    split; rewrite ?Hl; try done.
    + constructor.
    + intros k Hk. by apply elem_of_nil in Hk.
    + intros k p Hin. by apply elem_of_nil in Hin.
Qed.

Lemma add_run (h : list task) (tr : list event) (a : addr) (t : task) (cb : callback) :
  h !! a = Some t ->
  NoDup (dict.keys (_update_listeners t)) ->
  (∀ k, k ∈ dict.keys (_update_listeners t) -> 1 <= k) ->
  add a cb (World h tr)
  = Return (utils.unique_integer_key (_update_listeners t))
      (World (<[a := set_listeners t
                        (_update_listeners t
                         ++ [(utils.unique_integer_key (_update_listeners t), cb)])]> h) tr).
Proof.
  intros Ht Hnd Hpos. unfold add. rewrite (bind_lookup _ _ _ _ _ Ht).
  destruct (utils_facts.unique_integer_key_spec _ Hnd Hpos) as (_ & Hfresh & _).
  by rewrite dict_facts.set_fresh.
Qed.

Lemma add_wf (h : list task) (a : addr) (t : task) (cb : callback) :
  wf h -> h !! a = Some t -> registrable h a cb ->
  wf (<[a := set_listeners t
              (_update_listeners t
               ++ [(utils.unique_integer_key (_update_listeners t), cb)])]> h).
Proof.
  intros Hwf Ht Hcb. destruct (Hwf _ _ Ht) as [Hnd Hpos Hbound Hsubs Hval].
  destruct (utils_facts.unique_integer_key_spec _ Hnd Hpos) as (Hge & Hfresh & _).
  eapply wf_replace; [done..|by intros [subs ?]; exists subs|].
  split; simpl; try done.
  - unfold dict.keys. rewrite fmap_app. apply NoDup_app. split; [done|].
    split; [|apply NoDup_singleton].
    intros k Hk ->%list_elem_of_singleton. done.
  - unfold dict.keys. rewrite fmap_app. intros k [Hk| ->%list_elem_of_singleton]%elem_of_app; [by apply Hpos|done].
  - intros k p [Hin|[= -> <-]%list_elem_of_singleton]%elem_of_app; [by eapply Hbound|].
    apply Hcb.
Qed.

Lemma add_returns (a : addr) (cb : callback) (w w' : world) (uid : Z) :
  wf (heap w) -> add a cb w = Return uid w' ->
  ∃ t, heap w !! a = Some t
       ∧ uid = utils.unique_integer_key (_update_listeners t)
       ∧ w' = World (<[a := set_listeners t (_update_listeners t ++ [(uid, cb)])]> (heap w))
                    (trace w).
Proof.
  intros Hwf Hrun.
  assert (is_Some (heap w !! a)) as [t Ht].
  { unfold add in Hrun. apply bind_inv_Return in Hrun as (t & w1 & Ht & _).
    apply eval_inv_Return in Ht as [Ht _]. apply lookup_task_inv in Ht. by eexists. }
  destruct (Hwf _ _ Ht) as [Hnd Hpos _ _ _]. destruct w as [h tr].
  rewrite (add_run _ _ _ _ _ Ht Hnd Hpos) in Hrun. injection Hrun as <- <-.
  by exists t.
Qed.

Lemma remove_returns (a : addr) (uid : Z) (w w' : world) :
  remove a uid w = Return () w' ->
  ∃ t d, heap w !! a = Some t
         ∧ dict.del uid (_update_listeners t) = Some d
         ∧ w' = World (<[a := set_listeners t d]> (heap w)) (trace w).
Proof.
  unfold remove. intros (t & w1 & Ht & Hrest)%bind_inv_Return.
  apply eval_inv_Return in Ht as [Ht ->]. apply lookup_task_inv in Ht.
  destruct (dict.del uid (_update_listeners t)) as [d|] eqn:Hdel; [|done].
  injection Hrest as <-. by exists t, d.
Qed.

Lemma remove_wf (h : list task) (a : addr) (t : task) (uid : Z) (d : dict.t callback) :
  wf h -> h !! a = Some t -> dict.del uid (_update_listeners t) = Some d ->
  wf (<[a := set_listeners t d]> h).
Proof.
  intros Hwf Ht Hdel. destruct (Hwf _ _ Ht) as [Hnd Hpos Hbound Hsubs Hval].
  pose proof (dict_facts.del_sublist _ _ _ Hdel) as Hsub.
  pose proof (dict_facts.del_keys_sublist _ _ _ Hdel) as Hsubk.
  eapply wf_replace; [done..|by intros [subs ?]; exists subs|].
  split; simpl; try done.
  - by eapply sublist_NoDup.
  - intros k Hk. apply Hpos. by eapply elem_of_sublist.
  - intros k p Hin. eapply Hbound. by eapply elem_of_sublist.
Qed.

Lemma new_SimpleTask_wf (name : string) (w w' : world) (a : addr) :
  wf (heap w) -> new_SimpleTask name w = Return a w' -> wf (heap w').
Proof.
  intros Hwf [= _ <-]. simpl. apply wf_alloc; try done. simpl. by left.
Qed.

Lemma new_CounterTask_wf (len : Z) (name : string) (w w' : world) (a : addr) :
  wf (heap w) -> new_CounterTask len name w = Return a w' -> wf (heap w').
Proof.
  intros Hwf [= _ <-]. simpl. apply wf_alloc; try done. simpl.
  change (c_int 0) with 0. unfold INT_MAX. lia.
Qed.

Lemma existing_inv (tasks : list addr) (w w' : world) :
  existing tasks w = Return () w' ->
  w' = w ∧ ∀ c, c ∈ tasks -> (c < length (heap w))%nat.
Proof.
  unfold existing. revert w. induction tasks as [|c tasks IH]; intros w; simpl.
  - intros [= <-]. split; [done|]. intros c Hc. by apply elem_of_nil in Hc.
  - intros ([] & w1 & Hc & Hrest)%bind_inv_Return.
    apply bind_inv_Return in Hc as (t & w2 & Ht & Hret).
    apply eval_inv_Return in Ht as [Ht ->]. injection Hret as <-.
    apply lookup_task_inv, lookup_lt_Some in Ht.
    destruct (IH _ Hrest) as [-> Hall]. split; [done|].
    intros c' [->|Hc']%elem_of_cons; [done|by apply Hall].
Qed.

(** One turn of the loop of [MultiTask.__init__]. *)
Lemma subscribe_wf (self c : addr) (w w' : world) (ts : task) :
  wf (heap w) -> (c < self)%nat -> heap w !! self = Some ts -> is_multi ts ->
  (add c (BoundUpdate self) ≫= fun _ => append_sub_task self c) w = Return () w' ->
  wf (heap w') ∧ ∃ ts', heap w' !! self = Some ts' ∧ is_multi ts'.
Proof.
  intros Hwf Hlt Hself [subs Hsubs] (uid & w1 & Hadd & Happ)%bind_inv_Return.
  destruct (add_returns _ _ _ _ _ Hwf Hadd) as (tc & Hc & -> & ->).
  pose proof (add_wf _ _ _ (BoundUpdate self) Hwf Hc) as Hwf1.
  assert (registrable (heap w) c (BoundUpdate self)) as Hreg
    by (split; [done|]; exists ts; split; [done|by exists subs]).
  specialize (Hwf1 Hreg).
  match type of Happ with append_sub_task _ _ (World ?h1 _) = _ => set (h1' := h1) in * end.
  assert (h1' !! self = Some ts) as Hself1
    by (unfold h1'; rewrite list_lookup_insert_ne by lia; done).
  unfold append_sub_task in Happ. rewrite (bind_lookup _ _ _ _ _ Hself1), Hsubs in Happ.
  injection Happ as <-. simpl.
  pose proof (lookup_lt_Some _ _ _ Hself1) as Hlen.
  split.
  - eapply wf_replace; [exact Hwf1|exact Hself1|by intros _; eexists|].
    destruct (Hwf1 _ _ Hself1) as [Hnd Hpos Hbound Hs Hv]. split; try done.
    simpl. intros subs' c' [= <-] [Hc'| ->%list_elem_of_singleton]%elem_of_app; [|done].
    by eapply Hs.
  - eexists. rewrite list_lookup_insert_eq by done. split; [done|]. by eexists.
Qed.

Lemma subscribe_loop_wf (self : addr) (tasks : list addr) (w w' : world) :
  wf (heap w) -> (∀ c, c ∈ tasks -> (c < self)%nat) ->
  (∃ ts, heap w !! self = Some ts ∧ is_multi ts) ->
  for_each (fun task => add task (BoundUpdate self) ≫= fun _ => append_sub_task self task)
    tasks w = Return () w' ->
  wf (heap w').
Proof.
  revert w. induction tasks as [|c tasks IH]; intros w Hwf Hlt (ts & Hself & Hm); simpl.
  - by intros [= <-].
  - intros ([] & w1 & Hbody & Hloop)%bind_inv_Return.
    destruct (subscribe_wf _ _ _ _ _ Hwf (Hlt c ltac:(left)) Hself Hm Hbody) as [Hwf1 Hself1].
    eapply IH; [done| |done..]. intros c' Hc'. apply Hlt. by right.
Qed.

Lemma new_MultiTask_wf (name : string) (tasks : list addr) (w w' : world) (a : addr) :
  wf (heap w) -> new_MultiTask name tasks w = Return a w' -> wf (heap w').
Proof.
  intros Hwf. unfold new_MultiTask.
  intros ([] & w1 & Hex & Hrest)%bind_inv_Return.
  apply existing_inv in Hex as [-> Hlt].
  apply bind_inv_Return in Hrest as (self & w2 & Halloc & Hrest).
  injection Halloc as <- <-.
  apply bind_inv_Return in Hrest as ([] & w3 & Hloop & Hret).
  injection Hret as _ <-.
  eapply subscribe_loop_wf; [| | |exact Hloop]; simpl.
  - apply wf_alloc; try done. intros subs c [= <-] Hc. by apply elem_of_nil in Hc.
  - done.
  - eexists. split; [by apply list_lookup_middle|]. by eexists.
Qed.

(** ** Every reachable world is well formed *)

Lemma reachable_wf (w : world) : reachable w -> wf (heap w).
Proof.
  induction 1 as [|w name a w' _ IH Hrun|w len name a w' _ IH Hrun
                  |w name tasks a w' _ IH Hrun|w a tag uid w' _ IH Hrun
                  |w a uid w' _ IH Hrun|w fuel a w' _ IH Hrun|w fuel a w' _ IH Hrun].
  - intros a t Ha. by apply lookup_nil_Some in Ha || (simpl in Ha; discriminate).
  - by eapply new_SimpleTask_wf.
  - by eapply new_CounterTask_wf.
  - by eapply new_MultiTask_wf.
  - destruct (add_returns _ _ _ _ _ IH Hrun) as (t & Ht & -> & ->). simpl.
    by apply add_wf.
  - destruct (remove_returns _ _ _ _ Hrun) as (t & d & Ht & Hdel & ->). simpl.
    by eapply remove_wf.
  - destruct w as [h tr].
    destruct (update_returns _ _ _ _ _ IH Hrun) as (t & tr' & _ & -> & _). simpl.
    by apply updated_wf.
  - destruct w as [h tr].
    destruct (reset_returns _ _ _ _ _ IH Hrun) as (t & h' & tr1 & tr2 & _ & -> & Hz & _).
    simpl. by eapply zeroed_wf.
Qed.

(** ** Stepping through a program *)



Lemma returned_Some {A : Type} (o : outcome A) (w : world) :
  returned o = Some w -> ∃ x, o = Return x w.
Proof. destruct o; [|done]. intros [= ->]. by eexists. Qed.

Lemma run_call_reachable (c : api) (w w' : world) :
  reachable w -> run_call c w = Some w' -> reachable w'.
Proof.
  intros Hw. destruct c; unfold run_call; intros [x Hrun]%returned_Some.
  - by eapply reachable_SimpleTask.
  - by eapply reachable_CounterTask.
  - by eapply reachable_MultiTask.
  - by eapply reachable_add.
  - destruct x. by eapply reachable_remove.
  - destruct x. by eapply reachable_update.
  - destruct x. by eapply reachable_reset.
Qed.

Lemma run_script_reachable (cs : list api) (w w' : world) :
  reachable w -> run_script cs w = Some w' -> reachable w'.
Proof.
  revert w. induction cs as [|c cs IH]; intros w Hw; simpl; [by intros [= <-]|].
  destruct (run_call c w) as [w1|] eqn:Hc; [|done].
  apply IH. by eapply run_call_reachable.
Qed.

(** ** Repeated calls *)

Lemma times_S_r (n : nat) (m : M unit) (w w1 w2 : world) :
  times n m w = Return () w1 -> m w1 = Return () w2 ->
  times (S n) m w = Return () w2.
Proof.
  revert w. induction n as [|n IH]; intros w; simpl.
  - intros [= <-] Hm. by rewrite (bind_Return _ _ _ _ _ Hm).
  - intros ([] & w3 & Hm & Hrest)%bind_inv_Return Hlast.
    rewrite (bind_Return _ _ _ _ _ Hm). by apply IH.
Qed.

(** A counter below its target and below the largest C [int] moves up by
    one at each [update]. *)
Lemma counter_updates (fuel : nat) (h : list task) (a : addr) (t : task)
    (progress len : Z) (n : nat) (tr : list event) :
  wf h -> h !! a = Some t -> state t = CounterTask progress len ->
  (2 * length h <= fuel)%nat ->
  progress + Z.of_nat n <= len -> progress + Z.of_nat n <= INT_MAX ->
  ∃ h' tr',
    times n (update fuel a) (World h tr) = Return () (World h' tr')
    ∧ wf h' ∧ revalued_heap h h'
    ∧ h' !! a = Some (set_state t (CounterTask (progress + Z.of_nat n) len))
    ∧ (∀ b, b ≠ a -> h' !! b = h !! b).
Proof.
  intros Hwf Ht Hs Hfuel. induction n as [|n IH]; intros Hlen Hmax.
  - exists h, tr. split; [done|]. split; [done|]. split; [apply revalued_heap_refl|].
    split; [|done]. rewrite Z.add_0_r, <- Hs, set_state_same. done.
  - destruct IH as (h1 & tr1 & Hrun & Hwf1 & Hrev & Ht1 & Hframe); [lia..|].
    pose proof (Forall2_length _ _ _ Hrev) as Hlen1.
    destruct (update_spec fuel h1 a _ tr1 Hwf1 Ht1) as (tr2 & Hrun2 & _); [lia|].
    exists (updated h1 a), (tr1 ++ tr2).
    split; [by eapply times_S_r|].
    split; [by apply updated_wf|].
    split; [eapply revalued_heap_trans; [done|apply updated_revalued]|].
    pose proof (wf_val _ _ _ (Hwf _ _ Ht)) as Hval. rewrite Hs in Hval.
    destruct Hval as (Hrange & _).
    unfold updated. rewrite (finished_unfold _ _ _ Hwf1 Ht1), Ht1. simpl.
    destruct (Z.leb_spec len (progress + Z.of_nat n)); [lia|].
    split.
    + rewrite list_lookup_insert_eq by by eapply lookup_lt_Some.
      unfold step_task, set_state. simpl. do 3 f_equal.
      rewrite c_int_id; unfold INT_MAX in *; lia.
    + intros b Hb. rewrite list_lookup_insert_ne by done. by apply Hframe.
Qed.

(** With a target above the largest C [int] the counter wraps around at
    the update number 2^31, before it can reach the target. *)
Lemma counter_wraps (fuel : nat) (h : list task) (a : addr) (t : task)
    (len : Z) (n : nat) (tr : list event) :
  wf h -> h !! a = Some t -> state t = CounterTask 0 len ->
  (2 * length h <= fuel)%nat ->
  INT_MAX < len -> Z.of_nat n = INT_MAX + 1 ->
  ∃ h' tr',
    times n (update fuel a) (World h tr) = Return () (World h' tr')
    ∧ h' !! a = Some (set_state t (CounterTask (- 2 ^ 31) len)).
Proof.
  intros Hwf Ht Hs Hfuel Hlen Hn.
  destruct n as [|n]; [unfold INT_MAX in Hn; lia|].
  destruct (counter_updates fuel h a t 0 len n tr Hwf Ht Hs Hfuel)
    as (h1 & tr1 & Hrun & Hwf1 & Hrev & Ht1 & _); [lia..|].
  pose proof (Forall2_length _ _ _ Hrev) as Hlen1.
  destruct (update_spec fuel h1 a _ tr1 Hwf1 Ht1) as (tr2 & Hrun2 & _); [lia|].
  exists (updated h1 a), (tr1 ++ tr2). split; [by eapply times_S_r|].
  unfold updated. rewrite (finished_unfold _ _ _ Hwf1 Ht1), Ht1.
  cbn [state set_state].
  destruct (Z.leb_spec len (0 + Z.of_nat n)); [lia|].
  rewrite list_lookup_insert_eq by by eapply lookup_lt_Some.
  unfold step_task, set_state. cbn [state _name _update_listeners step_state].
  do 3 f_equal. replace (0 + Z.of_nat n + 1) with (INT_MAX + 1) by lia.
  apply c_int_wraps.
Qed.

(** ** Counting the calls of a listener *)

Lemma calls_app (a : addr) (uid : Z) (tr1 tr2 : list event) :
  calls a uid (tr1 ++ tr2) = (calls a uid tr1 + calls a uid tr2)%nat.
Proof. unfold calls. by rewrite filter_app, length_app. Qed.

Lemma calls_own (a : addr) (uid : Z) (tr : list event) :
  calls a uid tr = length (filter (fun e => ev_uid e = uid) (own a tr)).
Proof.
  unfold calls, own. induction tr as [|e tr IH]; [done|].
  destruct (decide (ev_task e = a)) as [Ha|Ha].
  - rewrite (filter_cons_True (fun e => ev_task e = a)) by done.
    destruct (decide (ev_uid e = uid)) as [Hu|Hu].
    + rewrite !filter_cons_True by done. simpl. by rewrite IH.
    + rewrite !filter_cons_False by tauto. done.
  - rewrite !filter_cons_False by tauto. done.
Qed.

Lemma calls_round_absent (a : addr) (l : list (Z * callback)) (uid : Z) :
  uid ∉ l.*1 ->
  filter (fun e => ev_uid e = uid) ((fun item => Called a item.1 item.2) <$> l) = [].
Proof.
  induction l as [|[k cb] l IH]; [done|]. rewrite !fmap_cons.
  intros [Hne Hk]%not_elem_of_cons. simpl in Hne.
  rewrite filter_cons_False by (simpl; congruence). by apply IH.
Qed.

(** In one round each entry of the registry is called once. *)
Lemma calls_round (a : addr) (t : task) (uid : Z) :
  NoDup (dict.keys (_update_listeners t)) ->
  uid ∈ dict.keys (_update_listeners t) ->
  length (filter (fun e => ev_uid e = uid) (round a t)) = 1%nat.
Proof.
  unfold round, dict.keys. induction (_update_listeners t) as [|[k cb] l IH].
  - by intros _ ?%elem_of_nil.
  - rewrite !fmap_cons. intros [Hk Hnd]%NoDup_cons Hin.
    destruct (decide (k = uid)) as [->|Hne].
    + rewrite filter_cons_True by done.
      by rewrite (calls_round_absent a l uid).
    + rewrite filter_cons_False by done. apply IH; [done|].
      apply elem_of_cons in Hin as [?|?]; [simpl in *; congruence|done].
Qed.

Lemma update_done (f : nat) (a : addr) (w : world) :
  is_done f (heap w) a = Ok true -> update (S f) a w = Return () w.
Proof. intros Hd. simpl. unfold mbind, M_bind, eval. by rewrite Hd. Qed.

Lemma times_noop (n : nat) (m : M unit) (w : world) :
  m w = Return () w -> times n m w = Return () w.
Proof.
  intros Hm. induction n as [|n IH]; simpl; [done|].
  by rewrite (bind_Return _ _ _ _ _ Hm).
Qed.

(** ** Sums and means of ratios *)

Section rationals.
Local Open Scope Q_scope.





Lemma sumQ_mono (qs qs' : list Q) :
  Forall2 Qle qs qs' -> sumQ qs <= sumQ qs'.
Proof. induction 1 as [|q q' qs qs' Hq _ IH]; simpl; lra. Qed.

Lemma size_pos {A : Type} (l : list A) : l ≠ [] -> 0 < inject_Z (Z.of_nat (length l)).
Proof.
  intros Hne. destruct l; [done|]. simpl length. rewrite Nat2Z.inj_succ.
  unfold Qlt. simpl. lia.
Qed.




Lemma mean_mono (qs qs' : list Q) :
  qs ≠ [] -> Forall2 Qle qs qs' -> mean qs <= mean qs'.
Proof.
  intros Hne Hle. pose proof (sumQ_mono _ _ Hle) as Hs.
  unfold mean. rewrite <- (Forall2_length _ _ _ Hle).
  pose proof (size_pos _ Hne) as Hn.
  unfold Qdiv. apply Qmult_le_compat_r; [done|].
  apply Qlt_le_weak, Qinv_lt_0_compat. done.
Qed.

End rationals.

(** ** The value of [completeness()] *)

Lemma accumulate_eq {A : Type} (f g : A -> result Q) (l : list A) (acc : Q) :
  (∀ x, x ∈ l -> f x = g x) -> accumulate f acc l = accumulate g acc l.
Proof.
  revert acc. induction l as [|x l IH]; intros acc Hfg; simpl; [done|].
  rewrite <- (Hfg x) by left. destruct (f x) as [q|]; simpl; [|done].
  apply IH. intros y Hy. apply Hfg. by right.
Qed.

(** On a well-formed heap the result of [completeness()], a ratio or an
    exception, is the same at every depth that reaches the leaves. *)
Lemma completeness_fuel (h : list task) (a : addr) (f : nat) :
  wf h -> (a < length h)%nat -> (a < f)%nat ->
  completeness f h a = completeness (S a) h a.
Proof.
  intros Hwf. revert f. induction (lt_wf a) as [a _ IH]. intros f Ha Hf.
  destruct f as [|f]; [lia|]. simpl.
  destruct (lookup_lt_is_Some_2 h a Ha) as [t Ht].
  rewrite (lookup_task_Ok _ _ _ Ht). simpl.
  destruct (state t) as [| |subs] eqn:Hs; [done..|].
  destruct (length subs =? 0)%nat; [done|].
  rewrite (accumulate_eq (completeness f h) (completeness a h)); [done|].
  intros c Hc. pose proof (wf_subs _ _ _ (Hwf _ _ Ht) _ _ Hs Hc) as Hlt.
  rewrite (IH c Hlt f), (IH c Hlt a); (done || lia).
Qed.


(** ** Trees whose counted leaves can reach their target *)








Section ratio.
Local Open Scope Q_scope.



End ratio.



(** ** The sample worlds *)

Lemma sample_world_reachable : reachable sample_world.
Proof.
  apply (run_script_reachable sample_script empty_world); [apply reachable_start|].
  reflexivity.
Qed.


Lemma flag_world_reachable : reachable flag_world.
Proof.
  apply (run_script_reachable [NewSimpleTask "flag"; Add 0%nat 7%nat] empty_world);
    [apply reachable_start|reflexivity].
Qed.

Example flag_notified_once :
  ∃ w', times 5 (update 2 0%nat) flag_world = Return () w'
        ∧ calls 0%nat 1 (trace w') = 1%nat ∧ runs 7 (trace w') = 1%nat.
Proof. eexists. split; [vm_compute; reflexivity|]. split; reflexivity. Qed.

(** ** The allocator on any dictionary *)

Module utils_more.
Import utils utils_facts.

Lemma scan_first (uid : Z) (rest : list Z) :
  uid ≠ 1 -> scan 0 (uid :: rest) = uid - 1.
Proof.
  intros Hne. simpl. rewrite Z.sub_0_r.
  destruct (Z.eqb_spec uid 1); [done|]. done.
Qed.

Lemma sorted_head_min (l : list Z) (m : Z) :
  NoDup l -> m ∈ l -> (∀ k, k ∈ l -> m <= k) ->
  ∃ rest, sorted l = m :: rest ∧ lower m rest ∧ increasing rest.
Proof.
  intros Hnd Hm Hmin. pose proof (sorted_increasing l Hnd) as Hinc.
  destruct (sorted l) as [|u rest] eqn:Hs.
  - apply elem_of_sorted in Hm. rewrite Hs in Hm. by apply elem_of_nil in Hm.
  - destruct Hinc as [Hlow Hinc]. exists rest.
    assert (u ∈ l) as Hu by (apply elem_of_sorted; rewrite Hs; left).
    assert (m ∈ u :: rest) as Hm' by (rewrite <- Hs; by apply elem_of_sorted).
    apply elem_of_cons in Hm' as [->|Hm']; [done|].
    eapply Forall_forall in Hlow; [|exact Hm']. simpl in Hlow.
    specialize (Hmin u Hu). lia.
Qed.

End utils_more.

(** ** Registering and removing *)

Module dict_more.
Section facts.
Context {V : Type}.
Implicit Types (d : dict.t V) (k : Z) (v : V).

Lemma del_last k v d : k ∉ dict.keys d -> dict.del k (d ++ [(k, v)]) = Some d.
Proof.
  induction d as [|[k' v'] d IH]; simpl.
  - intros _. by rewrite Z.eqb_refl.
  - intros [Hne Hk]%not_elem_of_cons. simpl in Hne.
    destruct (Z.eqb_spec k' k); [congruence|]. by rewrite IH.
Qed.

Lemma elem_of_del k d d' :
  NoDup (dict.keys d) -> dict.del k d = Some d' ->
  ∀ item, item ∈ d' ↔ item ∈ d ∧ item.1 ≠ k.
Proof.
  revert d'. induction d as [|[k' v'] d IH]; simpl; intros d' Hnd; [done|].
  apply NoDup_cons in Hnd as [Hk' Hnd].
  destruct (Z.eqb_spec k' k) as [->|Hne].
  - intros [= <-] item. rewrite elem_of_cons. split.
    + intros Hin. split; [by right|]. intros <-. apply Hk'.
      unfold dict.keys. apply list_elem_of_fmap. by exists item.
    + intros [[->|Hin] Hk]; [done|done].
  - destruct (dict.del k d) as [d''|] eqn:Hdel; [|done]. intros [= <-] item.
    rewrite !elem_of_cons, (IH d'' Hnd eq_refl). split.
    + intros [->|[Hin Hk]]; [split; [by left|done]|split; [by right|done]].
    + intros [[->|Hin] Hk]; [by left|by right].
Qed.

Lemma elem_of_del_keys k d d' :
  NoDup (dict.keys d) -> dict.del k d = Some d' ->
  ∀ j, j ∈ dict.keys d' ↔ j ∈ dict.keys d ∧ j ≠ k.
Proof.
  intros Hnd Hdel j. unfold dict.keys. rewrite !list_elem_of_fmap. split.
  - intros ([j' v] & -> & Hin). apply (elem_of_del _ _ _ Hnd Hdel) in Hin as [Hin Hne].
    split; [by exists (j', v)|done].
  - intros (([j' v] & -> & Hin) & Hne). exists (j', v). split; [done|].
    by apply (elem_of_del _ _ _ Hnd Hdel).
Qed.

End facts.
End dict_more.

Lemma set_listeners_same (t : task) : set_listeners t (_update_listeners t) = t.
Proof. by destruct t. Qed.

Lemma dense_max_key (d : dict.t callback) :
  dense d -> max_key (dict.keys d) = Z.of_nat (length d).
Proof.
  intros Hd. destruct d as [|item d]; [done|].
  set (l := item :: d) in *.
  assert (max_key (dict.keys l) ∈ dict.keys l) as Hmax.
  { apply utils_facts.max_key_elem; [|done]. intros k Hk. by apply Hd in Hk as [? _]. }
  apply Hd in Hmax.
  assert (Z.of_nat (length l) ∈ dict.keys l) as Hn by (apply Hd; simpl; lia).
  apply utils_facts.max_key_ge in Hn. lia.
Qed.

Lemma del_length {V : Type} (k : Z) (d d' : dict.t V) :
  dict.del k d = Some d' -> length d = S (length d').
Proof.
  revert d'. induction d as [|[k' v'] d IH]; simpl; intros d'; [done|].
  destruct (Z.eqb_spec k' k); [by intros [= <-]|].
  destruct (dict.del k d) as [d''|]; [|done]. intros [= <-]. simpl.
  f_equal. by apply IH.
Qed.

(** ** One round of notification *)

Lemma calls_round_once (a : addr) (t : task) (tr : list event) (uid : Z) :
  NoDup (dict.keys (_update_listeners t)) -> own a tr = round a t ->
  calls a uid tr = if decide (uid ∈ dict.keys (_update_listeners t)) then 1%nat else 0%nat.
Proof.
  intros Hnd Hown. rewrite calls_own, Hown.
  destruct (decide (uid ∈ dict.keys (_update_listeners t))) as [Hin|Hout].
  - by apply calls_round.
  - unfold round. by rewrite calls_round_absent.
Qed.

(** ** Counted leaves *)

Lemma forallb_false_elem {A : Type} (f : A -> bool) (l : list A) (x : A) :
  x ∈ l -> f x = false -> forallb f l = false.
Proof.
  induction l as [|y l IH]; [by intros ?%elem_of_nil|].
  intros [->|Hx]%elem_of_cons Hf; simpl; [by rewrite Hf|].
  rewrite IH by done. apply andb_false_r.
Qed.

Lemma finished_above (h : list task) (m a : addr) :
  wf h -> descendant h m a -> finished h a = false -> finished h m = false.
Proof.
  intros Hwf. induction 1 as [a|m t subs c a Ht Hs Hc _ IH]; [done|].
  intros Ha. specialize (IH Ha).
  rewrite (finished_unfold _ _ _ Hwf Ht), Hs.
  by eapply forallb_false_elem.
Qed.

(** ** Who gets called *)

Lemma calls_registered_refl (w : world) : calls_registered w w.
Proof. split; [done|]. exists []. by rewrite app_nil_r. Qed.

Lemma registered_same (w w' : world) (e : event) :
  (∀ b, listeners_at w' b = listeners_at w b) -> registered w' e -> registered w e.
Proof. intros Hl (ls & Hls & Hin). exists ls. by rewrite <- Hl. Qed.

Lemma calls_registered_trans (w1 w2 w3 : world) :
  calls_registered w1 w2 -> calls_registered w2 w3 -> calls_registered w1 w3.
Proof.
  intros [Hl1 (tr1 & Ht1 & Hr1)] [Hl2 (tr2 & Ht2 & Hr2)]. split.
  - intros b. by rewrite Hl2.
  - exists (tr1 ++ tr2). split; [by rewrite Ht2, Ht1, app_assoc|].
    apply Forall_app. split; [done|].
    eapply Forall_impl; [exact Hr2|]. intros e. by apply registered_same.
Qed.

Lemma for_each_inv {A : Type} (R : world -> world -> Prop) (body : A -> M unit) (l : list A) :
  (∀ w, R w w) -> (∀ w1 w2 w3, R w1 w2 -> R w2 w3 -> R w1 w3) ->
  (∀ x w1 w2, x ∈ l -> body x w1 = Return () w2 -> R w1 w2) ->
  ∀ w w', for_each body l w = Return () w' -> R w w'.
Proof.
  intros Hrefl Htrans. induction l as [|x l IH]; intros Hbody w w'; simpl.
  - intros [= <-]. apply Hrefl.
  - intros ([] & w1 & Hx & Hrest)%bind_inv_Return.
    eapply Htrans; [eapply Hbody; [left|exact Hx]|].
    apply IH; [|done]. intros y w2 w3 Hy. apply Hbody. by right.
Qed.

(** The loop over a registry, for a relation [R] between the worlds before
    and after that the calls and the logging preserve as long as [I]
    holds. *)
Section call_loop.
Variables (R : world -> world -> Prop) (I : world -> Prop).
Variables (upd : addr -> M unit) (a : addr) (ls : list (Z * callback)).
Hypothesis R_refl : ∀ w, R w w.
Hypothesis R_trans : ∀ w1 w2 w3, R w1 w2 -> R w2 w3 -> R w1 w3.
Hypothesis I_step : ∀ w1 w2, I w1 -> R w1 w2 -> I w2.
Hypothesis R_log : ∀ k cb w1, (k, cb) ∈ ls -> I w1 ->
  R w1 (World (heap w1) (trace w1 ++ [Called a k cb])).
Hypothesis R_upd : ∀ k q w1 w2, (k, BoundUpdate q) ∈ ls -> I w1 ->
  upd q w1 = Return () w2 -> R w1 w2.

Lemma call_inv (k : Z) (cb : callback) (w w' : world) :
  (k, cb) ∈ ls -> I w -> call upd a (k, cb) w = Return () w' -> R w w'.
Proof.
  intros Hin HI. unfold call. cbn [fst snd].
  intros ([] & w1 & Hlog & Hcb)%bind_inv_Return. injection Hlog as <-.
  pose proof (R_log k cb w Hin HI) as Hl.
  destruct cb as [q|tag].
  - eapply R_trans; [exact Hl|]. eapply R_upd; [exact Hin| |exact Hcb].
    by eapply I_step.
  - by injection Hcb as <-.
Qed.

Lemma for_each_call_sub (l : list (Z * callback)) (w w' : world) :
  l ⊆ ls -> I w -> for_each (call upd a) l w = Return () w' -> R w w'.
Proof.
  revert w. induction l as [|[k cb] l IH]; intros w Hsub HI; simpl.
  - intros [= <-]. apply R_refl.
  - intros ([] & w1 & Hx & Hrest)%bind_inv_Return.
    assert (R w w1) as H1 by (eapply call_inv; [apply Hsub; left|done..]).
    eapply R_trans; [exact H1|]. apply IH; [|by eapply I_step|done].
    intros x Hx'. apply Hsub. by right.
Qed.

Lemma for_each_call_inv (w w' : world) :
  I w -> for_each (call upd a) ls w = Return () w' -> R w w'.
Proof. by apply for_each_call_sub. Qed.

(** The call of an entry that is a bound [update] is one of the steps of
    the loop. *)
Lemma for_each_call_reaches (k : Z) (q : addr) (w w' : world) :
  (k, BoundUpdate q) ∈ ls -> I w -> for_each (call upd a) ls w = Return () w' ->
  ∃ w1 w2, R w w1 ∧ I w1 ∧ upd q w1 = Return () w2 ∧ R w2 w'.
Proof.
  intros Hin HI Hrun.
  assert (∀ l, l ⊆ ls -> (k, BoundUpdate q) ∈ l -> ∀ w0, I w0 ->
            for_each (call upd a) l w0 = Return () w' ->
            ∃ w1 w2, R w0 w1 ∧ I w1 ∧ upd q w1 = Return () w2 ∧ R w2 w') as Hgen.
  { induction l as [|[k' cb] l IH]; intros Hsub Hl w0 HI0; [by apply elem_of_nil in Hl|].
    simpl. intros ([] & w1 & Hx & Hrest)%bind_inv_Return.
    assert (R w0 w1) as H1 by (eapply call_inv; [apply Hsub; left|done..]).
    assert (l ⊆ ls) as Hsub' by (intros x Hx'; apply Hsub; by right).
    apply elem_of_cons in Hl as [[= <- <-]|Hl].
    - unfold call in Hx. cbn [fst snd] in Hx.
      apply bind_inv_Return in Hx as ([] & w2 & Hlog & Hcb). injection Hlog as <-.
      eexists _, w1. split; [apply (R_log k (BoundUpdate q)); [apply Hsub; left|done]|].
      split; [eapply I_step; [exact HI0|apply (R_log k (BoundUpdate q)); [apply Hsub; left|done]]|].
      split; [exact Hcb|].
      eapply for_each_call_sub; [exact Hsub'| |exact Hrest]. by eapply I_step.
    - destruct (IH Hsub' Hl w1) as (w2 & w3 & H2 & HI2 & Hupd & H3); [by eapply I_step|done|].
      exists w2, w3. split; [by eapply R_trans|done]. }
  by apply (Hgen ls).
Qed.

End call_loop.

Lemma store_state_registered (w : world) (a : addr) (t : task) (s : variant) :
  heap w !! a = Some t ->
  calls_registered w (World (<[a := set_state t s]> (heap w)) (trace w)).
Proof.
  intros Ht. split.
  - intros b. unfold listeners_at. simpl. destruct (decide (a = b)) as [<-|Hne].
    + rewrite list_lookup_insert_eq by (by eapply lookup_lt_Some). by rewrite Ht.
    + by rewrite list_lookup_insert_ne.
  - exists []. by rewrite app_nil_r.
Qed.

Lemma notify_registered (upd : addr -> M unit) (a : addr) (w w' : world) :
  (∀ q w1 w2, upd q w1 = Return () w2 -> calls_registered w1 w2) ->
  notify upd a w = Return () w' -> calls_registered w w'.
Proof.
  intros Hupd. unfold notify. intros (t & w1 & Ht & Hloop)%bind_inv_Return.
  apply eval_inv_Return in Ht as [Ht ->]. apply lookup_task_inv in Ht.
  eapply (for_each_call_inv calls_registered
            (fun w1 => listeners_at w1 a = Some (_update_listeners t)));
    [apply calls_registered_refl|apply calls_registered_trans| | | | |exact Hloop].
  - intros w1 w2 HI [Hl _]. by rewrite Hl.
  - intros k cb w1 Hin HI. split; [done|]. exists [Called a k cb]. split; [done|].
    constructor; [|constructor]. by exists (_update_listeners t).
  - intros k q w1 w2 _ _. apply Hupd.
  - unfold listeners_at. by rewrite Ht.
Qed.

Lemma update_registered (fuel : nat) (a : addr) (w w' : world) :
  update fuel a w = Return () w' -> calls_registered w w'.
Proof.
  revert a w w'. induction fuel as [|fuel IH]; intros a w w'; simpl; [done|].
  intros (d & w1 & Hd & Hrest)%bind_inv_Return.
  apply eval_inv_Return in Hd as [_ ->].
  destruct d; [injection Hrest as <-; apply calls_registered_refl|].
  apply bind_inv_Return in Hrest as ([] & w2 & Hupd & Hnot).
  eapply calls_registered_trans; [|eapply notify_registered; [|exact Hnot]; exact (IH)].
  unfold _update in Hupd. apply bind_inv_Return in Hupd as (t & w3 & Ht & Hst).
  apply eval_inv_Return in Ht as [Ht ->]. apply lookup_task_inv in Ht.
  destruct (state t); injection Hst as <-;
    [by apply store_state_registered..|apply calls_registered_refl].
Qed.

Lemma reset_registered (fuel : nat) (a : addr) (w w' : world) :
  reset fuel a w = Return () w' -> calls_registered w w'.
Proof.
  revert a w w'. induction fuel as [|fuel IH]; intros a w w'; simpl; [done|].
  intros ([] & w1 & Hrst & Hnot)%bind_inv_Return.
  eapply calls_registered_trans;
    [|eapply notify_registered; [|exact Hnot]; intros q; apply update_registered].
  unfold _reset in Hrst. apply bind_inv_Return in Hrst as (t & w3 & Ht & Hst).
  apply eval_inv_Return in Ht as [Ht ->]. apply lookup_task_inv in Ht.
  destruct (state t) as [| |subs].
  - injection Hst as <-. by apply store_state_registered.
  - injection Hst as <-. by apply store_state_registered.
  - eapply (for_each_inv calls_registered);
      [apply calls_registered_refl|apply calls_registered_trans| |exact Hst].
    intros c w4 w5 _. apply IH.
Qed.

Lemma run_drives_registered (cs : list api) (w w' : world) :
  forallb drives cs = true -> run_script cs w = Some w' -> calls_registered w w'.
Proof.
  revert w. induction cs as [|c cs IH]; intros w; simpl.
  - intros _ [= <-]. apply calls_registered_refl.
  - intros [Hc Hcs]%andb_true_iff.
    destruct (run_call c w) as [w1|] eqn:Hrun; [|done]. intros Hrest.
    eapply calls_registered_trans; [|by apply IH].
    destruct c; try done; unfold run_call in Hrun;
      apply returned_Some in Hrun as [[] Hrun].
    + by eapply update_registered.
    + by eapply reset_registered.
Qed.

Lemma calls_none (a : addr) (uid : Z) (tr : list event) :
  Forall (fun e => ¬ (ev_task e = a ∧ ev_uid e = uid)) tr -> calls a uid tr = 0%nat.
Proof.
  unfold calls. induction 1 as [|e tr He _ IH]; [done|].
  by rewrite filter_cons_False.
Qed.

Lemma runs_none (tag : nat) (tr : list event) :
  Forall (fun e => ev_listener e ≠ Extern tag) tr -> runs tag tr = 0%nat.
Proof.
  unfold runs. induction 1 as [|e tr He _ IH]; [done|].
  by rewrite filter_cons_False.
Qed.

(** ** What a composite hears of the updates below it *)

Lemma silent_refl (m : addr) (w : world) : silent m w w.
Proof. split; [done|]. exists []. by rewrite app_nil_r. Qed.

Lemma silent_trans (m : addr) (w1 w2 w3 : world) :
  silent m w1 w2 -> silent m w2 w3 -> silent m w1 w3.
Proof.
  intros [Hh1 (tr1 & Ht1 & Ho1)] [Hh2 (tr2 & Ht2 & Ho2)]. split; [congruence|].
  exists (tr1 ++ tr2). split; [by rewrite Ht2, Ht1, app_assoc|].
  by rewrite own_app, Ho1, Ho2.
Qed.

Lemma extends_refl (w : world) : extends w w.
Proof. split; [done|]. exists []. by rewrite app_nil_r. Qed.

Lemma extends_trans (w1 w2 w3 : world) : extends w1 w2 -> extends w2 w3 -> extends w1 w3.
Proof.
  intros [Hh1 (tr1 & Ht1)] [Hh2 (tr2 & Ht2)]. split; [congruence|].
  exists (tr1 ++ tr2). by rewrite Ht2, Ht1, app_assoc.
Qed.

Lemma calls_extends (a : addr) (uid : Z) (w w' : world) :
  extends w w' -> (calls a uid (trace w) <= calls a uid (trace w'))%nat.
Proof. intros [_ (tr & ->)]. rewrite calls_app. lia. Qed.

Lemma is_done_value (f : nat) (h : list task) (a : addr) (d : bool) :
  wf h -> is_done f h a = Ok d -> d = finished h a.
Proof.
  intros Hwf Hd.
  assert (a < length h)%nat as Ha.
  { destruct f as [|f]; [done|]. simpl in Hd. unfold lookup_task in Hd.
    destruct (h !! a) eqn:E; [by eapply lookup_lt_Some|done]. }
  apply (is_done_mono f (f `max` S a)) in Hd; [|lia].
  rewrite is_done_finished in Hd by (done || lia). by injection Hd.
Qed.

(** An [update] of a composite, while the composite at [m] is done, makes
    no call on behalf of [m]. *)
Lemma update_multi_silent (m : addr) (fuel : nat) (q : addr) (w w' : world) :
  wf (heap w) -> finished (heap w) m = true ->
  (∃ tq, heap w !! q = Some tq ∧ is_multi tq) ->
  update fuel q w = Return () w' -> silent m w w'.
Proof.
  revert q w w'. induction fuel as [|fuel IH]; intros q w w' Hwf Hm (tq & Hq & Hmq); simpl; [done|].
  intros (d & w1 & Hd & Hrest)%bind_inv_Return.
  apply eval_inv_Return in Hd as [Hd ->]. apply (is_done_value _ _ _ _ Hwf) in Hd.
  destruct d; [injection Hrest as <-; apply silent_refl|].
  assert (q ≠ m) as Hne by (intros ->; congruence).
  apply bind_inv_Return in Hrest as ([] & w2 & Hupd & Hnot).
  destruct w as [h tr]. simpl in *.
  rewrite (_update_run _ _ _ _ Hq), (step_task_multi _ Hmq), list_insert_id in Hupd by done.
  injection Hupd as <-.
  unfold notify in Hnot. rewrite (bind_lookup _ _ _ _ _ Hq) in Hnot.
  eapply (for_each_call_inv (silent m) (fun w1 => heap w1 = h));
    [apply silent_refl|apply silent_trans| | | | |exact Hnot].
  - intros w1 w2 HI [Hh _]. congruence.
  - intros k cb w1 Hin HI. split; [done|]. exists [Called q k cb]. split; [done|].
    unfold own. by rewrite filter_cons_False.
  - intros k p w1 w2 Hin HI. apply IH; rewrite HI; [done..|].
    destruct (wf_bound _ _ _ (Hwf _ _ Hq) k p Hin) as (_ & tp & Hp & Hmp). eauto.
  - done.
Qed.

(** The loop of notification of a task, on a well-formed heap, leaves the
    heap as it is. *)
Lemma notify_loop_reaches (h : list task) (fuel : nat) (a : addr) (t : task)
    (k : Z) (p : addr) (w w' : world) :
  wf h -> h !! a = Some t -> heap w = h ->
  (k, BoundUpdate p) ∈ _update_listeners t ->
  for_each (call (update fuel) a) (_update_listeners t) w = Return () w' ->
  ∃ w1 w2, extends w w1 ∧ update fuel p w1 = Return () w2 ∧ extends w2 w'.
Proof.
  intros Hwf Ht Hh Hin Hloop.
  destruct (for_each_call_reaches extends (fun w1 => heap w1 = h)
              (update fuel) a (_update_listeners t)) with (k := k) (q := p) (w := w) (w' := w')
    as (w1 & w2 & H01 & HI1 & Hupd & H2');
    [apply extends_refl|apply extends_trans| | | |done|done|exact Hloop|].
  - intros w1 w2 HI [Hh' _]. congruence.
  - intros k' cb w1 _ _. split; [done|]. by eexists.
  - intros k' q w1 w2 Hin' HI Hq.
    destruct (wf_bound _ _ _ (Hwf _ _ Ht) k' q Hin') as (_ & tq & Hq' & Hmq).
    destruct w1 as [hx trx]. simpl in HI. subst hx.
    destruct (update_returns _ _ _ _ _ Hwf Hq) as (tq' & trq & _ & -> & _).
    rewrite (updated_multi _ _ _ Hq' Hmq). split; [done|]. by eexists.
  - by exists w1, w2.
Qed.

(** The [update] of a composite that is not done reaches the listeners of
    every composite it is relayed to. *)
Lemma update_relayed (h : list task) (m : addr) (tm : task) (uid : Z) :
  wf h -> h !! m = Some tm -> uid ∈ dict.keys (_update_listeners tm) ->
  ∀ q, relays h q m -> finished h q = false ->
    (∃ tq, h !! q = Some tq ∧ is_multi tq) ->
    ∀ fuel tr w2, update fuel q (World h tr) = Return () w2 ->
      heap w2 = h ∧ (calls m uid tr < calls m uid (trace w2))%nat.
Proof.
  intros Hwf Hm Huid q Hrel.
  induction Hrel as [m|a t k p m Ha Hin Hp Hrel IH]; intros Hq (tq & Htq & Hmq) fuel tr w2 Hrun.
  - destruct (update_returns _ _ _ _ _ Hwf Hrun) as (tm' & tr' & Hm' & -> & _ & Hown).
    rewrite Hq in Hown. assert (tm' = tm) as -> by congruence.
    assert (tq = tm) as -> by congruence.
    simpl. split; [by apply (updated_multi _ _ tm)|].
    rewrite calls_app, (calls_round_once m tm tr' uid);
      [|apply (wf_nodup _ _ _ (Hwf _ _ Hm))|done].
    destruct (decide _); [lia|done].
  - assert (tq = t) as -> by congruence.
    destruct fuel as [|fuel]; [done|]. simpl in Hrun.
    apply bind_inv_Return in Hrun as (d & w1 & Hd & Hrest).
    apply eval_inv_Return in Hd as [Hd ->]. simpl in Hd.
    apply (is_done_value _ _ _ _ Hwf) in Hd. subst d. rewrite Hq in Hrest.
    apply bind_inv_Return in Hrest as ([] & w1 & Hupd & Hnot).
    rewrite (_update_run _ _ _ _ Ha), (step_task_multi _ Hmq), list_insert_id in Hupd by done.
    injection Hupd as <-.
    unfold notify in Hnot. rewrite (bind_lookup _ _ _ _ _ Ha) in Hnot.
    destruct (notify_loop_reaches h fuel a t k p (World h tr) w2 Hwf Ha eq_refl Hin Hnot)
      as ([h1 tr1] & w3 & [Hh1 (tra & Htra)] & Hupdp & [Hh3 (trb & Htrb)]).
    simpl in Hh1, Htra. subst h1 tr1.
    destruct (wf_bound _ _ _ (Hwf _ _ Ha) k p Hin) as (_ & tp & Hp' & Hmp).
    destruct (IH Hm Hp ltac:(eauto) fuel _ _ Hupdp) as [Hh3' Hlt].
    split; [congruence|]. rewrite Htrb, calls_app. rewrite calls_app in Hlt. lia.
Qed.

(** ** When [completeness()] raises *)

Lemma accumulate_cases {A : Type} (f : A -> result Q) (l : list A) (acc : Q) :
  (∀ x, x ∈ l -> f x = Error ZeroDivisionError ∨ ∃ q, f x = Ok q) ->
  (accumulate f acc l = Error ZeroDivisionError ∧ ∃ x, x ∈ l ∧ f x = Error ZeroDivisionError)
  ∨ ((∃ q, accumulate f acc l = Ok q) ∧ ∀ x, x ∈ l -> ∃ q, f x = Ok q).
Proof.
  revert acc. induction l as [|x l IH]; intros acc Hf; simpl.
  - right. split; [by eexists|]. by intros x ?%elem_of_nil.
  - destruct (Hf x ltac:(left)) as [Hx|[q Hx]]; rewrite Hx; simpl.
    + left. split; [done|]. exists x. split; [left|done].
    + destruct (IH (acc + q)%Q) as [[Hacc (y & Hy & Hfy)]|[Hacc Hall]].
      * intros y Hy. apply Hf. by right.
      * left. split; [done|]. exists y. split; [by right|done].
      * right. split; [done|]. intros y [->|Hy]%elem_of_cons; [by eexists|by apply Hall].
Qed.

Lemma completeness_cases (h : list task) (a : addr) (f : nat) :
  wf h -> (a < length h)%nat -> (a < f)%nat ->
  (completeness f h a = Error ZeroDivisionError
   ∧ ∃ b, descendant h a b ∧ zero_target h b)
  ∨ ((∃ q, completeness f h a = Ok q)
     ∧ ∀ b, descendant h a b -> ¬ zero_target h b).
Proof.
  intros Hwf. revert f. induction (lt_wf a) as [a _ IH]. intros f Ha Hf.
  destruct f as [|f]; [lia|].
  destruct (lookup_lt_is_Some_2 h a Ha) as [t Ht].
  simpl. rewrite (lookup_task_Ok _ _ _ Ht). simpl.
  assert (¬ is_multi t -> ∀ b, descendant h a b -> b = a) as Hleaf
    by (intros Hm b; by apply (descendant_leaf _ _ _ t)).
  destruct (state t) as [v|progress len|subs] eqn:Hs.
  - right. split; [by eexists|]. intros b Hb (tb & p & Htb & Hsb).
    rewrite (Hleaf ltac:(intros [? ?]; congruence) b Hb) in Htb. congruence.
  - destruct (Z.eqb_spec len 0) as [->|Hne].
    + left. split; [done|]. exists a. split; [constructor|]. by exists t, progress.
    + right. split; [by eexists|]. intros b Hb (tb & p & Htb & Hsb).
      rewrite (Hleaf ltac:(intros [? ?]; congruence) b Hb) in Htb. congruence.
  - assert (∀ c, c ∈ subs -> (c < a)%nat) as Hsubs
      by (intros c; by apply (wf_subs _ _ _ (Hwf _ _ Ht))).
    destruct subs as [|c0 subs'] eqn:Hsubs_eq.
    { right. split; [by eexists|]. intros b Hb (tb & p & Htb & Hsb).
      destruct Hb as [a|a t' subs1 c b Ht' Hs' Hc _]; [congruence|].
      assert (subs1 = []) as -> by congruence. by apply elem_of_nil in Hc. }
    rewrite <- Hsubs_eq in *.
    assert ((length subs =? 0)%nat = false) as -> by (by rewrite Hsubs_eq).
    destruct (accumulate_cases (completeness f h) subs 0%Q)
      as [[Hacc (c & Hc & Hfc)]|[[q Hacc] Hall]].
    + intros c Hc. specialize (Hsubs c Hc).
      destruct (IH c Hsubs f) as [[He _]|[Hq _]]; [lia..|by left|by right].
    + left. rewrite Hacc. split; [done|]. specialize (Hsubs c Hc).
      destruct (IH c Hsubs f) as [[_ (b & Hb & Hz)]|[[q Hq] _]]; [lia..| |congruence].
      exists b. split; [|done]. by eapply descendant_sub.
    + right. rewrite Hacc. split; [by eexists|].
      intros b Hb Hz. destruct Hb as [a|a t' subs1 c b Ht' Hs' Hc Hb].
      * destruct Hz as (tb & p & Htb & Hsb). congruence.
      * assert (subs1 = subs) as -> by congruence.
        specialize (Hsubs c Hc). destruct (Hall c Hc) as [qc Hqc].
        destruct (IH c Hsubs f) as [[He _]|[_ Hno]]; [lia..|congruence|].
        by apply (Hno b).
Qed.

(** ** What [MultiTask.__init__] does to its children *)

Lemma existing_run (tasks : list addr) (w : world) :
  (∀ c, c ∈ tasks -> (c < length (heap w))%nat) -> existing tasks w = Return () w.
Proof.
  unfold existing. induction tasks as [|c tasks IH]; intros Hlt; simpl; [done|].
  destruct (lookup_lt_is_Some_2 (heap w) c (Hlt c ltac:(left))) as [t Ht].
  destruct w as [h tr]. simpl in *.
  rewrite (bind_Return _ _ _ (World h tr) ()).
  - apply IH. intros c' Hc'. apply Hlt. by right.
  - by rewrite (bind_lookup _ _ _ _ _ Ht).
Qed.

Lemma set_state_set_state (t : task) (s s' : variant) :
  set_state (set_state t s) s' = set_state t s'.
Proof. done. Qed.

Lemma subscribe_loop_run (self : addr) (tasks : list addr) :
  ∀ (h : list task) (tr : list event) (ts : task) (subs0 : list addr),
    wf h -> h !! self = Some ts -> state ts = MultiTask subs0 ->
    (∀ c, c ∈ tasks -> (c < self)%nat) ->
    ∃ h', for_each (fun task => add task (BoundUpdate self) ≫= fun _ => append_sub_task self task)
            tasks (World h tr) = Return () (World h' tr)
          ∧ length h' = length h
          ∧ h' !! self = Some (set_state ts (MultiTask (subs0 ++ tasks)))
          ∧ ∀ a t, a ≠ self -> h !! a = Some t ->
              ∃ ids, h' !! a = Some (set_listeners t (_update_listeners t ++ subscriptions self ids))
                     ∧ length ids = occurrences a tasks.
Proof.
  induction tasks as [|c tasks IH]; intros h tr ts subs0 Hwf Hself Hs Hlt.
  - exists h. split; [done|]. split; [done|]. split.
    + by rewrite app_nil_r, <- Hs, set_state_same.
    + intros a t _ Ha. exists []. split; [|done].
      unfold subscriptions. simpl. by rewrite app_nil_r, set_listeners_same.
  - assert (c < self)%nat as Hc by (apply Hlt; left).
    pose proof (lookup_lt_Some _ _ _ Hself) as Hlen.
    destruct (lookup_lt_is_Some_2 h c ltac:(lia)) as [tc Htc].
    destruct (Hwf _ _ Htc) as [Hnd Hpos _ _ _].
    set (uid := utils.unique_integer_key (_update_listeners tc)).
    set (tc' := set_listeners tc (_update_listeners tc ++ [(uid, BoundUpdate self)])).
    set (ts' := set_state ts (MultiTask (subs0 ++ [c]))).
    set (h2 := <[self := ts']> (<[c := tc']> h)).
    assert ((add c (BoundUpdate self) ≫= fun _ => append_sub_task self c) (World h tr)
            = Return () (World h2 tr)) as Hbody.
    { rewrite (bind_Return _ _ _ _ _ (add_run h tr c tc (BoundUpdate self) Htc Hnd Hpos)).
      unfold append_sub_task. erewrite bind_lookup by (rewrite list_lookup_insert_ne by lia; done).
      by rewrite Hs. }
    destruct (subscribe_wf self c (World h tr) (World h2 tr) ts Hwf Hc Hself
                ltac:(by exists subs0) Hbody) as [Hwf2 _]. simpl in Hwf2.
    assert (h2 !! self = Some ts') as Hself2.
    { unfold h2. apply list_lookup_insert_eq. rewrite length_insert. done. }
    destruct (IH h2 tr ts' (subs0 ++ [c]) Hwf2 Hself2 eq_refl)
      as (h' & Hrun & Hlen' & Hself' & Hrest).
    { intros c' Hc'. apply Hlt. by right. }
    exists h'. split; [simpl; by rewrite (bind_Return _ _ _ _ _ Hbody)|].
    split; [rewrite Hlen'; unfold h2; by rewrite !length_insert|].
    split; [rewrite Hself'; unfold ts'; by rewrite set_state_set_state, <- app_assoc|].
    intros a t Hne Ha. destruct (decide (a = c)) as [->|Hac].
    + assert (t = tc) as -> by congruence.
      destruct (Hrest c tc' Hne) as (ids & Hc' & Hids).
      { unfold h2. rewrite list_lookup_insert_ne by lia.
        apply list_lookup_insert_eq. by eapply lookup_lt_Some. }
      exists (uid :: ids). split.
      * rewrite Hc'. unfold tc', set_listeners, subscriptions. simpl.
        by rewrite <- app_assoc.
      * unfold occurrences. rewrite filter_cons_True by done. simpl. by rewrite Hids.
    + destruct (Hrest a t Hne) as (ids & Ha' & Hids).
      { unfold h2. by rewrite !list_lookup_insert_ne by done. }
      exists ids. split; [done|].
      unfold occurrences. by rewrite filter_cons_False by done.
Qed.

Lemma new_MultiTask_returns (w w' : world) (name : string) (tasks : list addr) (a : addr) :
  wf (heap w) -> new_MultiTask name tasks w = Return a w' ->
  a = length (heap w)
  ∧ heap w' !! a = Some (Task (name_or_task name) [] (MultiTask tasks))
  ∧ length (heap w') = S (length (heap w))
  ∧ ∀ b t, heap w !! b = Some t ->
      ∃ ids, heap w' !! b
             = Some (set_listeners t (_update_listeners t ++ subscriptions a ids))
             ∧ length ids = occurrences b tasks.
Proof.
  intros Hwf. unfold new_MultiTask.
  intros ([] & w1 & Hex & Hrest)%bind_inv_Return.
  apply existing_inv in Hex as [-> Hlt].
  apply bind_inv_Return in Hrest as (self & w2 & Halloc & Hrest).
  injection Halloc as <- <-.
  apply bind_inv_Return in Hrest as ([] & w3 & Hloop & Hret).
  injection Hret as <- <-. destruct w as [h tr]. simpl in *.
  set (ts := Task (name_or_task name) [] (MultiTask [])) in *.
  destruct (subscribe_loop_run (length h) tasks (h ++ [ts]) tr ts [])
    as (h' & Hrun & Hlen & Hself & Hrest); [|by apply list_lookup_middle|done|done|].
  { apply wf_alloc; try done. intros subs c [= <-] Hc. by apply elem_of_nil in Hc. }
  rewrite Hrun in Hloop. injection Hloop as <-. simpl.
  split; [done|]. split; [exact Hself|].
  split; [by rewrite Hlen, length_app, Nat.add_1_r|].
  intros b t Hb. apply Hrest; [apply lookup_lt_Some in Hb; lia|].
  by apply lookup_app_l_Some.
Qed.

(** ** What never changes *)

Lemma same_shape_refl (t : task) : same_shape t t.
Proof. split; [done|]. destruct (state t); eauto. Qed.

Lemma same_shape_trans (t1 t2 t3 : task) :
  same_shape t1 t2 -> same_shape t2 t3 -> same_shape t1 t3.
Proof.
  intros [Hn1 Hs1] [Hn2 Hs2]. split; [congruence|].
  destruct (state t1); [destruct Hs1 as [v Hs1]|destruct Hs1 as [p Hs1]|];
    rewrite Hs1 in Hs2; done.
Qed.

Lemma revalued_same_shape (t t' : task) : revalued t t' -> same_shape t t'.
Proof.
  intros (Hn & _ & Hs). split; [done|].
  destruct (state t), (state t'); try done; subst; eauto.
Qed.

Lemma same_shape_listeners (t : task) (d : dict.t callback) : same_shape t (set_listeners t d).
Proof. split; [done|]. simpl. destruct (state t); eauto. Qed.

Lemma same_shapes_refl (h : list task) : Forall2 same_shape h h.
Proof. apply Forall_Forall2_diag, Forall_forall. intros t _. apply same_shape_refl. Qed.

Lemma grown_same (h h' : list task) : Forall2 same_shape h h' -> grown h h'.
Proof. intros H. exists []. rewrite app_nil_r. by split. Qed.

Lemma grown_trans (h1 h2 h3 : list task) : grown h1 h2 -> grown h2 h3 -> grown h1 h3.
Proof.
  intros (n1 & H12 & Hn1) (n2 & H23 & Hn2).
  apply Forall2_app_inv_l in H23 as (k1 & k2 & Hk1 & Hk2 & ->).
  exists (n1 ++ n2). split.
  - rewrite app_assoc. apply Forall2_app; [|done].
    eapply Forall2_trans; [|exact H12|exact Hk1]. intros ???. apply same_shape_trans.
  - by apply Forall_app.
Qed.

Lemma grown_insert (h : list task) (a : addr) (t t' : task) :
  h !! a = Some t -> same_shape t t' -> grown h (<[a := t']> h).
Proof.
  intros Ht Hsh. apply grown_same, Forall2_same_length_lookup.
  split; [by rewrite length_insert|].
  intros b tb tb' Hb Hb'. destruct (decide (a = b)) as [<-|Hne].
  - rewrite list_lookup_insert_eq in Hb' by (by eapply lookup_lt_Some). congruence.
  - rewrite list_lookup_insert_ne in Hb' by done. assert (tb' = tb) as -> by congruence.
    apply same_shape_refl.
Qed.

Lemma grown_revalued (h h' : list task) : revalued_heap h h' -> grown h h'.
Proof.
  intros Hrev. apply grown_same. eapply Forall2_impl; [exact Hrev|].
  apply revalued_same_shape.
Qed.

Lemma name_or_task_nonempty (name : string) : name_or_task name ≠ EmptyString.
Proof. by destruct name. Qed.

Lemma grown_alloc (h : list task) (t : task) :
  _name t ≠ EmptyString -> grown h (h ++ [t]).
Proof.
  intros Hn. exists [t]. split; [apply same_shapes_refl|]. by constructor.
Qed.

Lemma new_MultiTask_grown (w w' : world) (name : string) (tasks : list addr) (a : addr) :
  wf (heap w) -> new_MultiTask name tasks w = Return a w' -> grown (heap w) (heap w').
Proof.
  intros Hwf Hrun.
  destruct (new_MultiTask_returns _ _ _ _ _ Hwf Hrun) as (-> & Hself & Hlen & Hrest).
  exists [Task (name_or_task name) [] (MultiTask tasks)]. split.
  - apply Forall2_same_length_lookup. split; [rewrite length_app, Hlen; simpl; lia|].
    intros b tb tb' Hb Hb'. apply lookup_app_Some in Hb as [Hb|[Hge Hb]].
    + destruct (Hrest _ _ Hb) as (ids & Hb2 & _). rewrite Hb2 in Hb'. injection Hb' as <-.
      apply same_shape_listeners.
    + apply list_lookup_singleton_Some in Hb as [Hb <-].
      assert (b = length (heap w)) as -> by lia. rewrite Hself in Hb'. injection Hb' as <-.
      apply same_shape_refl.
  - constructor; [apply name_or_task_nonempty|constructor].
Qed.

Lemma run_call_grown (c : api) (w w' : world) :
  reachable w -> run_call c w = Some w' -> grown (heap w) (heap w').
Proof.
  intros Hreach. pose proof (reachable_wf _ Hreach) as Hwf.
  destruct c; unfold run_call; intros [x Hrun]%returned_Some.
  - injection Hrun as _ <-. apply grown_alloc, name_or_task_nonempty.
  - injection Hrun as _ <-. apply grown_alloc, name_or_task_nonempty.
  - by eapply new_MultiTask_grown.
  - destruct (add_returns _ _ _ _ _ Hwf Hrun) as (t & Ht & _ & ->). simpl.
    eapply grown_insert; [done|apply same_shape_listeners].
  - destruct x. destruct (remove_returns _ _ _ _ Hrun) as (t & d & Ht & _ & ->). simpl.
    eapply grown_insert; [done|apply same_shape_listeners].
  - destruct x, w as [h tr].
    destruct (update_returns _ _ _ _ _ Hwf Hrun) as (t & tr' & _ & -> & _). simpl.
    apply grown_revalued, updated_revalued.
  - destruct x, w as [h tr].
    destruct (reset_returns _ _ _ _ _ Hwf Hrun) as (t & h' & tr1 & tr2 & _ & -> & Hz & _).
    simpl. apply grown_revalued. by eapply zeroed_revalued.
Qed.

Lemma run_script_grown (cs : list api) (w w' : world) :
  reachable w -> run_script cs w = Some w' -> grown (heap w) (heap w').
Proof.
  revert w. induction cs as [|c cs IH]; intros w Hreach; simpl.
  - intros [= <-]. apply grown_same, same_shapes_refl.
  - destruct (run_call c w) as [w1|] eqn:Hc; [|done]. intros Hrest.
    eapply grown_trans; [by eapply run_call_grown|].
    apply IH; [|done]. by eapply run_call_reachable.
Qed.

Lemma reachable_named (w : world) :
  reachable w -> Forall (fun t => _name t ≠ EmptyString) (heap w).
Proof.
  assert (∀ w w', Forall (fun t => _name t ≠ EmptyString) (heap w) ->
            grown (heap w) (heap w') ->
            Forall (fun t => _name t ≠ EmptyString) (heap w')) as Hstep.
  { intros w0 w1 Hw (new & Hsh & Hnew).
    assert (Forall (fun t => _name t ≠ EmptyString) (heap w0 ++ new)) as Hall
      by (by apply Forall_app).
    clear Hw Hnew. induction Hsh as [|t t' l l' [Hn _] _ IH]; [constructor|].
    apply Forall_cons in Hall as [Ht Hall]. constructor; [congruence|by apply IH]. }
  induction 1 as [|w name a w' Hw IH Hrun|w len name a w' Hw IH Hrun
                  |w name tasks a w' Hw IH Hrun|w a tag uid w' Hw IH Hrun
                  |w a uid w' Hw IH Hrun|w fuel a w' Hw IH Hrun|w fuel a w' Hw IH Hrun].
  - constructor.
  - apply (Hstep w); [done|]. apply (run_call_grown (NewSimpleTask name)); [done|].
    unfold run_call. by rewrite Hrun.
  - apply (Hstep w); [done|]. apply (run_call_grown (NewCounterTask len name)); [done|].
    unfold run_call. by rewrite Hrun.
  - apply (Hstep w); [done|]. apply (run_call_grown (NewMultiTask name tasks)); [done|].
    unfold run_call. by rewrite Hrun.
  - apply (Hstep w); [done|]. apply (run_call_grown (Add a tag)); [done|].
    unfold run_call. by rewrite Hrun.
  - apply (Hstep w); [done|]. apply (run_call_grown (Remove a uid)); [done|].
    unfold run_call. by rewrite Hrun.
  - apply (Hstep w); [done|]. apply (run_call_grown (Update fuel a)); [done|].
    unfold run_call. by rewrite Hrun.
  - apply (Hstep w); [done|]. apply (run_call_grown (Reset fuel a)); [done|].
    unfold run_call. by rewrite Hrun.
Qed.

(** ** A composite and the leaves below it *)

Lemma forallb_true_elem {A : Type} (f : A -> bool) (l : list A) :
  (∀ x, x ∈ l -> f x = true) -> forallb f l = true.
Proof.
  induction l as [|y l IH]; [done|]. intros Hf. simpl.
  rewrite Hf by left. apply IH. intros x Hx. apply Hf. by right.
Qed.

Lemma finished_below (h : list task) (m : addr) :
  wf h -> (m < length h)%nat ->
  (∀ b tb, descendant h m b -> h !! b = Some tb -> ¬ is_multi tb -> finished h b = true) ->
  finished h m = true.
Proof.
  intros Hwf. induction (lt_wf m) as [m _ IH]. intros Hm Hleaves.
  destruct (lookup_lt_is_Some_2 h m Hm) as [t Ht].
  destruct (state t) as [v|progress len|subs] eqn:Hs.
  - apply (Hleaves m t); [constructor|done|]. intros [? ?]. congruence.
  - apply (Hleaves m t); [constructor|done|]. intros [? ?]. congruence.
  - rewrite (finished_unfold _ _ _ Hwf Ht), Hs. apply forallb_true_elem.
    intros c Hc. pose proof (wf_subs _ _ _ (Hwf _ _ Ht) _ _ Hs Hc) as Hlt.
    apply IH; [done|lia|].
    intros b tb Hb. apply Hleaves. by eapply descendant_sub.
Qed.

(** ** Invariants of the flags and of the registries *)

Lemma subscribed_insert (h : list task) (a : addr) (t t' : task) :
  subscribed_by_parents h -> h !! a = Some t ->
  state t' = state t ->
  (∀ k p, (k, BoundUpdate p) ∈ _update_listeners t' -> (k, BoundUpdate p) ∈ _update_listeners t) ->
  subscribed_by_parents (<[a := t']> h).
Proof.
  intros Hsub Ht Hst Hls b tb k p Hb Hin.
  pose proof (lookup_lt_Some _ _ _ Ht) as Hlt.
  assert (∃ tb0, h !! b = Some tb0 ∧ (k, BoundUpdate p) ∈ _update_listeners tb0)
    as (tb0 & Hb0 & Hin0).
  { destruct (decide (a = b)) as [<-|Hne].
    - rewrite list_lookup_insert_eq in Hb by done. injection Hb as <-.
      exists t. split; [done|]. by apply Hls.
    - rewrite list_lookup_insert_ne in Hb by done. by exists tb. }
  destruct (Hsub _ _ _ _ Hb0 Hin0) as (tp & subs & Hp & Hs & Hmem).
  destruct (decide (a = p)) as [<-|Hne].
  - exists t', subs. rewrite list_lookup_insert_eq by done.
    split; [done|]. split; [|done]. rewrite Hst. congruence.
  - exists tp, subs. by rewrite list_lookup_insert_ne.
Qed.

Lemma subscribed_revalued (h h' : list task) :
  subscribed_by_parents h -> revalued_heap h h' -> subscribed_by_parents h'.
Proof.
  intros Hsub Hrev b tb' k p Hb' Hin.
  destruct (revalued_heap_lookup _ _ _ _ Hrev Hb') as (tb & Hb & (_ & Hl & _)).
  rewrite Hl in Hin.
  destruct (Hsub _ _ _ _ Hb Hin) as (tp & subs & Hp & Hs & Hmem).
  destruct (revalued_heap_lookup_l _ _ _ _ Hrev Hp) as (tp' & Hp' & Hr).
  exists tp', subs. split; [done|]. split; [|done].
  destruct Hr as (_ & _ & Hst). rewrite Hs in Hst.
  destruct (state tp'); try done. by subst.
Qed.

Lemma subscribed_alloc (h : list task) (t : task) :
  subscribed_by_parents h -> _update_listeners t = [] -> subscribed_by_parents (h ++ [t]).
Proof.
  intros Hsub Hl b tb k p Hb Hin.
  apply lookup_app_Some in Hb as [Hb|[_ Hb]].
  - destruct (Hsub _ _ _ _ Hb Hin) as (tp & subs & Hp & Hs & Hmem).
    exists tp, subs. split; [by apply lookup_app_l_Some|done].
  - apply list_lookup_singleton_Some in Hb as [_ <-]. rewrite Hl in Hin.
    by apply elem_of_nil in Hin.
Qed.

Lemma occurrences_elem (a : addr) (tasks : list addr) :
  (0 < occurrences a tasks)%nat -> a ∈ tasks.
Proof.
  unfold occurrences. intros Hpos.
  destruct (filter (fun c => c = a) tasks) as [|c l] eqn:E; [simpl in Hpos; lia|].
  assert (c ∈ filter (fun c => c = a) tasks) as Hc by (rewrite E; left).
  apply list_elem_of_filter in Hc as [-> Hc]. done.
Qed.

Lemma subscribed_new_MultiTask (w w' : world) (name : string) (tasks : list addr) (a : addr) :
  wf (heap w) -> subscribed_by_parents (heap w) ->
  new_MultiTask name tasks w = Return a w' -> subscribed_by_parents (heap w').
Proof.
  intros Hwf Hsub Hrun.
  destruct (new_MultiTask_returns _ _ _ _ _ Hwf Hrun) as (-> & Hself & Hlen & Hrest).
  intros b tb k p Hb Hin.
  assert (b < S (length (heap w)))%nat as Hlt by (rewrite <- Hlen; by eapply lookup_lt_Some).
  destruct (decide (b = length (heap w))) as [->|Hne].
  { rewrite Hself in Hb. injection Hb as <-. by apply elem_of_nil in Hin. }
  destruct (lookup_lt_is_Some_2 (heap w) b ltac:(lia)) as [tb0 Hb0].
  destruct (Hrest _ _ Hb0) as (ids & Hb' & Hids).
  rewrite Hb' in Hb. injection Hb as <-. simpl in Hin.
  apply elem_of_app in Hin as [Hin|Hin].
  - destruct (Hsub _ _ _ _ Hb0 Hin) as (tp & subs & Hp & Hs & Hmem).
    destruct (Hrest _ _ Hp) as (ids' & Hp' & _).
    eexists _, subs. split; [exact Hp'|]. by split.
  - unfold subscriptions in Hin. apply list_elem_of_fmap in Hin as (k' & [= -> ->] & Hk').
    eexists _, tasks. split; [exact Hself|]. split; [done|].
    apply occurrences_elem. rewrite <- Hids.
    destruct ids; [by apply elem_of_nil in Hk'|simpl; lia].
Qed.

Lemma reachable_subscribed (w : world) : reachable w -> subscribed_by_parents (heap w).
Proof.
  induction 1 as [|w name a w' Hw IH Hrun|w len name a w' Hw IH Hrun
                  |w name tasks a w' Hw IH Hrun|w a tag uid w' Hw IH Hrun
                  |w a uid w' Hw IH Hrun|w fuel a w' Hw IH Hrun|w fuel a w' Hw IH Hrun];
    try pose proof (reachable_wf _ Hw) as Hwf.
  - intros a t k p Ha. by apply lookup_nil_Some in Ha || (simpl in Ha; discriminate).
  - injection Hrun as _ <-. by apply subscribed_alloc.
  - injection Hrun as _ <-. by apply subscribed_alloc.
  - by eapply subscribed_new_MultiTask.
  - destruct (add_returns _ _ _ _ _ Hwf Hrun) as (t & Ht & _ & ->). simpl.
    eapply subscribed_insert; [done..|].
    simpl. intros k p [Hin|Hin]%elem_of_app; [done|].
    by apply list_elem_of_singleton in Hin.
  - destruct (remove_returns _ _ _ _ Hrun) as (t & d & Ht & Hdel & ->). simpl.
    eapply subscribed_insert; [done..|].
    simpl. intros k p Hin. eapply elem_of_sublist; [exact Hin|].
    by eapply dict_facts.del_sublist.
  - destruct w as [h tr].
    destruct (update_returns _ _ _ _ _ Hwf Hrun) as (t & tr' & _ & -> & _). simpl.
    eapply subscribed_revalued; [done|apply updated_revalued].
  - destruct w as [h tr].
    destruct (reset_returns _ _ _ _ _ Hwf Hrun) as (t & h' & tr1 & tr2 & _ & -> & Hz & _).
    simpl. eapply subscribed_revalued; [done|by eapply zeroed_revalued].
Qed.

(** ** After a reset *)

Lemma accumulate_zero {A : Type} (f : A -> result Q) (l : list A) (acc : Q) :
  (∀ x, x ∈ l -> ∃ q, f x = Ok q ∧ (q == 0)%Q) ->
  ∃ q, accumulate f acc l = Ok q ∧ (q == acc)%Q.
Proof.
  revert acc. induction l as [|x l IH]; intros acc Hf; simpl.
  - by exists acc.
  - destruct (Hf x ltac:(left)) as (qx & -> & Hqx). simpl.
    destruct (IH (acc + qx)%Q) as (q & Hq & Heq).
    { intros y Hy. apply Hf. by right. }
    exists q. split; [done|]. rewrite Heq, Hqx. apply Qplus_0_r.
Qed.

Lemma completeness_at_zero (h : list task) (a : addr) :
  wf h -> (a < length h)%nat -> at_zero h a ->
  (∃ q, completeness (S a) h a = Ok q ∧ (q == 0)%Q) ∧ finished h a = false.
Proof.
  intros Hwf. induction (lt_wf a) as [a _ IH]. intros Ha Hzero.
  destruct (lookup_lt_is_Some_2 h a Ha) as [t Ht].
  pose proof (Hzero a t (descendant_self h a) Ht) as Hst.
  simpl. rewrite (lookup_task_Ok _ _ _ Ht), (finished_unfold _ _ _ Hwf Ht). simpl.
  destruct (state t) as [v|progress len|subs] eqn:Hs.
  - subst v. split; [by exists 0%Q|done].
  - destruct Hst as [-> Hlen]. destruct (Z.eqb_spec len 0); [lia|].
    split; [|apply Z.leb_gt; lia]. eexists. split; [done|].
    unfold Qdiv. apply Qmult_0_l.
  - assert (∀ c, c ∈ subs -> (c < a)%nat) as Hsubs
      by (intros c; by apply (wf_subs _ _ _ (Hwf _ _ Ht))).
    assert (∀ c, c ∈ subs ->
              (∃ q, completeness (S c) h c = Ok q ∧ (q == 0)%Q) ∧ finished h c = false) as Hc.
    { intros c Hc. apply IH; [by apply Hsubs|specialize (Hsubs c Hc); lia|].
      intros b tb Hb. apply Hzero. by eapply descendant_sub. }
    destruct subs as [|c0 subs'] eqn:Hsubs_eq; [done|]. rewrite <- Hsubs_eq in *.
    assert ((length subs =? 0)%nat = false) as -> by (by rewrite Hsubs_eq).
    split.
    + destruct (accumulate_zero (completeness a h) subs 0%Q) as (acc & -> & Hacc).
      { intros c Hin. destruct (Hc c Hin) as [(q & Hq & Hq0) _]. exists q.
        split; [|done]. rewrite <- Hq. specialize (Hsubs c Hin).
        apply completeness_fuel; [done|lia..]. }
      simpl. eexists. split; [done|]. rewrite Hacc. unfold Qdiv. apply Qmult_0_l.
    + apply (forallb_false_elem _ _ c0); [rewrite Hsubs_eq; left|].
      apply Hc. rewrite Hsubs_eq. left.
Qed.

(** ** The text of a duration *)

Lemma divmod_unique (a b q r : Z) :
  a = q * b + r -> 0 <= r < b -> divmod a b = (q, r).
Proof.
  intros -> Hr. unfold divmod. f_equal.
  - symmetry. apply (Z.div_unique _ _ q r); lia.
  - symmetry. apply (Z.mod_unique _ _ q r); lia.
Qed.

Lemma fields_exist (total : Z) :
  ∃ h m s ms,
    total = ((h * 60 + m) * 60 + s) * 1000 + ms
    ∧ 0 <= m < 60 ∧ 0 <= s < 60 ∧ 0 <= ms < 1000 ∧ (total < 0 -> h < 0).
Proof.
  exists (total / 1000 / 60 / 60), (total / 1000 / 60 mod 60),
    (total / 1000 mod 60), (total mod 1000).
  pose proof (Z.div_mod total 1000 ltac:(lia)).
  pose proof (Z.div_mod (total / 1000) 60 ltac:(lia)).
  pose proof (Z.div_mod (total / 1000 / 60) 60 ltac:(lia)).
  pose proof (Z.mod_pos_bound total 1000 ltac:(lia)).
  pose proof (Z.mod_pos_bound (total / 1000) 60 ltac:(lia)).
  pose proof (Z.mod_pos_bound (total / 1000 / 60) 60 ltac:(lia)).
  split; [lia|]. split; [lia|]. split; [lia|]. split; [lia|]. lia.
Qed.

Lemma expand_fields (clock : float) (h m s ms : Z) :
  int_of_float (clock * 1000)%float = inr (((h * 60 + m) * 60 + s) * 1000 + ms) ->
  0 <= m < 60 -> 0 <= s < 60 -> 0 <= ms < 1000 ->
  expand clock
  = inr (if negb (h =? 0)%Z then
           format_0d 2 h ++ "h " ++ format_0d 2 m ++ "m "
           ++ format_0d 2 s ++ "s " ++ format_0d 3 ms ++ "ms"
         else if negb (m =? 0)%Z then
           format_0d 2 m ++ "m " ++ format_0d 2 s ++ "s " ++ format_0d 3 ms ++ "ms"
         else if negb (s =? 0)%Z then
           format_0d 2 s ++ "s " ++ format_0d 3 ms ++ "ms"
         else
           format_0d 3 ms ++ "ms")%string.
Proof.
  intros Hint Hm Hs Hms. unfold expand. rewrite Hint.
  rewrite (divmod_unique _ 1000 ((h * 60 + m) * 60 + s) ms) by (done || lia).
  rewrite (divmod_unique _ 60 (h * 60 + m) s) by (done || lia).
  rewrite (divmod_unique _ 60 h m) by (done || lia).
  done.
Qed.

(** ** Reading a duration back *)

Section strings.
Local Open Scope string_scope.

Lemma length_append (s1 s2 : string) :
  String.length (s1 ++ s2) = (String.length s1 + String.length s2)%nat.
Proof. induction s1 as [|c s1 IH]; simpl; [done|]. by rewrite IH. Qed.

Lemma append_inj_l (x1 x2 y1 y2 : string) :
  String.length x1 = String.length x2 -> x1 ++ y1 = x2 ++ y2 -> x1 = x2 ∧ y1 = y2.
Proof.
  revert x2. induction x1 as [|c x1 IH]; intros [|c' x2]; simpl; try done.
  intros [= Hlen] [= -> Heq]. destruct (IH _ Hlen Heq) as [-> ->]. done.
Qed.

Lemma append_inj_r (x1 x2 y1 y2 : string) :
  String.length y1 = String.length y2 -> x1 ++ y1 = x2 ++ y2 -> x1 = x2 ∧ y1 = y2.
Proof.
  intros Hlen Heq. apply append_inj_l; [|done].
  apply (f_equal String.length) in Heq. rewrite !length_append in Heq. lia.
Qed.

Lemma length_zeros (n : nat) : String.length (zeros n) = n.
Proof. unfold zeros. induction n as [|n IH]; simpl; [done|]. by rewrite IH. Qed.

Lemma uint_of_zeros (n : nat) (s : string) (d : Decimal.uint) :
  NilEmpty.uint_of_string s = Some d ->
  ∃ d', NilEmpty.uint_of_string (zeros n ++ s) = Some d' ∧ Z.of_uint d' = Z.of_uint d.
Proof.
  intros Hs. unfold zeros. induction n as [|n (d' & Hd' & Hv)]; simpl; [by exists d|].
  rewrite Hd'. simpl. by exists (Decimal.D0 d').
Qed.

Lemma digits_read (n : Z) :
  0 <= n ->
  NilEmpty.uint_of_string (digits n) = Some (N.to_uint (Z.to_N n))
  ∧ Z.of_uint (N.to_uint (Z.to_N n)) = n
  ∧ ∃ c s, digits n = String c s ∧ Ascii.eqb c "-" = false.
Proof.
  intros Hn. unfold digits.
  assert (NilZero.string_of_uint (N.to_uint (Z.to_N n))
          = NilEmpty.string_of_uint (N.to_uint (Z.to_N n))) as ->.
  { destruct (N.to_uint (Z.to_N n)) eqn:E; try done.
    destruct (Z.to_N n) as [|p]; [done|]. simpl in E.
    by apply DecimalPos.Unsigned.to_uint_nonnil in E. }
  split; [apply NilEmpty.usu|]. split.
  - unfold Z.of_uint. change (Pos.of_uint ?d) with (N.of_uint d).
    rewrite DecimalN.Unsigned.of_to. lia.
  - destruct (N.to_uint (Z.to_N n)) eqn:E; simpl; eauto.
    destruct (Z.to_N n) as [|p]; [done|]. simpl in E.
    by apply DecimalPos.Unsigned.to_uint_nonnil in E.
Qed.

Lemma read_format_0d (width : nat) (n : Z) : read_int (format_0d width n) = Some n.
Proof.
  unfold format_0d, read_int.
  destruct (digits_read (Z.abs n) ltac:(lia)) as (Hread & Hval & c & s & Hds & Hc).
  destruct (Z.ltb_spec n 0) as [Hneg|Hpos].
  - set (k := (width - _ - _)%nat).
    destruct (uint_of_zeros k _ _ Hread) as (d' & Hd' & Hv).
    simpl. rewrite Hd'. simpl. f_equal. lia.
  - set (k := (width - _ - _)%nat).
    destruct (uint_of_zeros k _ _ Hread) as (d' & Hd' & Hv).
    assert (∃ c' s', ("" ++ zeros k ++ digits (Z.abs n)) = String c' s'
                     ∧ Ascii.eqb c' "-" = false) as (c' & s' & Heq & Hc').
    { simpl. destruct k as [|k]; [simpl; eauto|]. unfold zeros. simpl. eauto. }
    unfold NilEmpty.int_of_string. rewrite Heq, Hc', <- Heq. simpl.
    rewrite Hd'. simpl. f_equal. lia.
Qed.

Lemma format_0d_inj (width : nat) (n n' : Z) :
  format_0d width n = format_0d width n' -> n = n'.
Proof.
  intros Heq. apply (f_equal read_int) in Heq. rewrite !read_format_0d in Heq.
  by injection Heq.
Qed.

Lemma format_0d_length_ge (width : nat) (n : Z) :
  (width <= String.length (format_0d width n))%nat.
Proof. unfold format_0d. rewrite !length_append, length_zeros. lia. Qed.

Lemma below_forallb (P : Z -> bool) (k : nat) :
  forallb P (Z.of_nat <$> seq 0 k) = true -> ∀ n, 0 <= n < Z.of_nat k -> P n = true.
Proof.
  intros Hall n Hn. rewrite forallb_forall in Hall. apply Hall.
  apply list_elem_of_In, list_elem_of_fmap. exists (Z.to_nat n).
  split; [lia|]. apply elem_of_seq. lia.
Qed.

Lemma format_0d_length_2 (n : Z) : 0 <= n < 60 -> String.length (format_0d 2 n) = 2%nat.
Proof.
  intros Hn. apply Nat.eqb_eq.
  apply (below_forallb (fun n => String.length (format_0d 2 n) =? 2)%nat 60); [|done].
  vm_compute. reflexivity.
Qed.

Lemma format_0d_length_3 (n : Z) : 0 <= n < 1000 -> String.length (format_0d 3 n) = 3%nat.
Proof.
  intros Hn. apply Nat.eqb_eq.
  apply (below_forallb (fun n => String.length (format_0d 3 n) =? 3)%nat 1000); [|done].
  vm_compute. reflexivity.
Qed.

End strings.

Section texts.
Local Open Scope string_scope.

Lemma from_ms_length (ms : Z) : 0 <= ms < 1000 -> String.length (from_ms ms) = 5%nat.
Proof. intros H. unfold from_ms. by rewrite length_append, format_0d_length_3. Qed.

Lemma from_s_length (s ms : Z) :
  0 <= s < 60 -> 0 <= ms < 1000 -> String.length (from_s s ms) = 9%nat.
Proof.
  intros Hs Hms. unfold from_s.
  by rewrite !length_append, format_0d_length_2, from_ms_length.
Qed.

Lemma from_m_length (m s ms : Z) :
  0 <= m < 60 -> 0 <= s < 60 -> 0 <= ms < 1000 -> String.length (from_m m s ms) = 13%nat.
Proof.
  intros Hm Hs Hms. unfold from_m.
  by rewrite !length_append, format_0d_length_2, from_s_length.
Qed.

Lemma from_h_length (h m s ms : Z) :
  0 <= m < 60 -> 0 <= s < 60 -> 0 <= ms < 1000 ->
  (17 <= String.length (from_h h m s ms))%nat.
Proof.
  intros Hm Hs Hms. unfold from_h. rewrite !length_append, from_m_length by done.
  pose proof (format_0d_length_ge 2 h). simpl. lia.
Qed.

Lemma from_ms_inj (ms ms' : Z) : from_ms ms = from_ms ms' -> ms = ms'.
Proof.
  unfold from_ms. intros [Heq _]%append_inj_r; [|done]. by eapply format_0d_inj.
Qed.

Lemma from_s_inj (s ms s' ms' : Z) :
  0 <= s < 60 -> 0 <= s' < 60 -> from_s s ms = from_s s' ms' -> s = s' ∧ ms = ms'.
Proof.
  unfold from_s. intros Hs Hs' [Heq Hrest]%append_inj_l;
    [|by rewrite !format_0d_length_2].
  apply format_0d_inj in Heq. injection Hrest as Hrest. apply from_ms_inj in Hrest. done.
Qed.

Lemma from_m_inj (m s ms m' s' ms' : Z) :
  0 <= m < 60 -> 0 <= m' < 60 -> 0 <= s < 60 -> 0 <= s' < 60 ->
  from_m m s ms = from_m m' s' ms' -> m = m' ∧ s = s' ∧ ms = ms'.
Proof.
  unfold from_m. intros Hm Hm' Hs Hs' [Heq Hrest]%append_inj_l;
    [|by rewrite !format_0d_length_2].
  apply format_0d_inj in Heq. injection Hrest as Hrest.
  apply from_s_inj in Hrest; [|done..]. tauto.
Qed.

Lemma from_h_inj (h m s ms h' m' s' ms' : Z) :
  0 <= m < 60 -> 0 <= m' < 60 -> 0 <= s < 60 -> 0 <= s' < 60 ->
  0 <= ms < 1000 -> 0 <= ms' < 1000 ->
  from_h h m s ms = from_h h' m' s' ms' -> h = h' ∧ m = m' ∧ s = s' ∧ ms = ms'.
Proof.
  unfold from_h. intros Hm Hm' Hs Hs' Hms Hms' [Heq Hrest]%append_inj_r.
  - apply format_0d_inj in Heq. injection Hrest as Hrest.
    apply from_m_inj in Hrest; [|done..]. tauto.
  - rewrite !length_append, !from_m_length by done. done.
Qed.

Lemma expand_text (clock : float) (h m s ms : Z) :
  int_of_float (clock * 1000)%float = inr (((h * 60 + m) * 60 + s) * 1000 + ms) ->
  0 <= m < 60 -> 0 <= s < 60 -> 0 <= ms < 1000 ->
  expand clock
  = inr (if negb (h =? 0)%Z then from_h h m s ms
         else if negb (m =? 0)%Z then from_m m s ms
         else if negb (s =? 0)%Z then from_s s ms
         else from_ms ms).
Proof. apply expand_fields. Qed.

End texts.

(** * The claims *)

(** C1, as the code has it: [reset()] on a composite puts every descendant
    leaf back to zero (flag 0, counter 0) and then, as its last step, calls
    each entry of the composite's own registry exactly once, in the order of
    the registry ([tr2]).  What comes before ([tr1]) is what the resets of the
    children did; it can hold further calls of the same listeners, since the
    reset of a child notifies the composite's [update]. *)
Theorem reset_zeroes_descendants_then_notifies
    (w : world) (self : addr) (t : task) (subs : list addr) (fuel : nat) :
  reachable w ->
  heap w !! self = Some t -> state t = MultiTask subs ->
  (2 * length (heap w) + self + 1 <= fuel)%nat ->
  ∃ w' tr1 tr2,
    reset fuel self w = Return () w'
    ∧ trace w' = trace w ++ tr1 ++ tr2
    ∧ (∀ b, descendant (heap w) self b ->
         (∀ v, state_at w b = Some (SimpleTask v) -> state_at w' b = Some (SimpleTask 0))
         ∧ (∀ progress len, state_at w b = Some (CounterTask progress len) ->
              state_at w' b = Some (CounterTask 0 len)))
    ∧ own self tr2 = round self t
    ∧ above self tr2
    ∧ (∀ uid, uid ∈ dict.keys (_update_listeners t) -> calls self uid tr2 = 1%nat).
Proof.
  intros Hreach Ht Hs Hfuel. pose proof (reachable_wf _ Hreach) as Hwf.
  destruct w as [h tr]. simpl in *.
  destruct (reset_spec self fuel h t tr Hwf Ht Hfuel)
    as (h' & tr1 & tr2 & Hrun & [Hlen Hz] & Hab & Hown).
  exists (World h' (tr ++ tr1 ++ tr2)), tr1, tr2.
  split; [done|]. split; [done|]. split; [|split; [done|split; [done|]]].
  - intros b Hb. unfold state_at. simpl.
    split.
    + intros v Hv. destruct (h !! b) as [tb|] eqn:Htb; [|done].
      destruct (Hz _ _ Htb) as (_ & Hin & _). rewrite (Hin Hb).
      injection Hv as Hv. simpl. by rewrite Hv.
    + intros progress len Hv. destruct (h !! b) as [tb|] eqn:Htb; [|done].
      destruct (Hz _ _ Htb) as (_ & Hin & _). rewrite (Hin Hb).
      injection Hv as Hv. simpl. by rewrite Hv.
  - intros uid Huid. rewrite calls_own, Hown. apply calls_round; [|done].
    apply (wf_nodup _ _ _ (Hwf _ _ Ht)).
Qed.

Lemma reset_zeroes_descendants_then_notifies_witness :
  ∃ w' tr1 tr2,
    reset 9 2%nat sample_world = Return () w'
    ∧ trace w' = trace sample_world ++ tr1 ++ tr2
    ∧ (∀ b, descendant (heap sample_world) 2%nat b ->
         (∀ v, state_at sample_world b = Some (SimpleTask v) ->
               state_at w' b = Some (SimpleTask 0))
         ∧ (∀ progress len, state_at sample_world b = Some (CounterTask progress len) ->
              state_at w' b = Some (CounterTask 0 len)))
    ∧ own 2%nat tr2 = [Called 2%nat 1 (Extern 0)]
    ∧ above 2%nat tr2
    ∧ (∀ uid, uid ∈ [1] -> calls 2%nat uid tr2 = 1%nat).
Proof.
  apply (reset_zeroes_descendants_then_notifies sample_world 2%nat
           (Task "tasks" [(1, Extern 0)] (MultiTask [0; 1]%nat)) [0; 1]%nat 9%nat).
  - exact sample_world_reachable.
  - reflexivity.
  - reflexivity.
  - simpl. lia.
Defined.

(** C1, as stated, fails: with two boolean leaves under a composite that has
    one listener, one [reset()] of the composite calls that listener three
    times, once after the reset of each child and once at the end. *)
Lemma reset_notifies_after_each_child :
  ∃ w w',
    run_script [NewSimpleTask "a"; NewSimpleTask "b";
                NewMultiTask "m" [0; 1]%nat; Add 2%nat 7%nat] empty_world = Some w
    ∧ listeners_at w 2%nat = Some [(1, Extern 7)]
    ∧ reset 9 2%nat w = Return () w'
    ∧ trace w = []
    ∧ calls 2%nat 1 (trace w') = 3%nat
    ∧ runs 7 (trace w') = 3%nat.
Proof.
  eexists _, _. split; [vm_compute; reflexivity|]. split; [reflexivity|].
  split; [vm_compute; reflexivity|]. split; [reflexivity|]. split; reflexivity.
Qed.








(** C5, as the code has it: a counted leaf whose counter is 0 and whose
    target [T] is positive and fits a C [int] is done after exactly [T]
    updates in a row, with the counter at [T] and completeness 1. *)
Theorem counter_done_after_target_updates (w : world) (self : addr) (T : Z) (fuel : nat) :
  reachable w ->
  state_at w self = Some (CounterTask 0 T) ->
  0 < T <= INT_MAX ->
  (2 * length (heap w) <= fuel)%nat ->
  ∃ w', times (Z.to_nat T) (update fuel self) w = Return () w'
        ∧ state_at w' self = Some (CounterTask T T)
        ∧ (∀ f, is_done (S f) (heap w') self = Ok true)
        ∧ (∀ f, ∃ q, completeness (S f) (heap w') self = Ok q ∧ (q == 1)%Q).
Proof.
  intros Hreach Hst HT Hfuel. pose proof (reachable_wf _ Hreach) as Hwf.
  destruct w as [h tr]. unfold state_at in Hst. simpl in Hst, Hfuel, Hwf.
  destruct (h !! self) as [t|] eqn:Ht; [|done]. injection Hst as Hs.
  destruct (counter_updates fuel h self t 0 T (Z.to_nat T) tr Hwf Ht Hs Hfuel)
    as (h' & tr' & Hrun & Hwf' & _ & Ht' & _); [lia..|].
  rewrite Z2Nat.id, Z.add_0_l in Ht' by lia.
  exists (World h' tr'). split; [done|].
  split; [unfold state_at; simpl; by rewrite Ht'|].
  split.
  - intros f. simpl. unfold lookup_task. rewrite Ht'. simpl. by rewrite Z.leb_refl.
  - intros f. simpl. unfold lookup_task. rewrite Ht'. simpl.
    destruct (Z.eqb_spec T 0); [lia|]. eexists. split; [done|].
    apply Qmult_inv_r. intros Heq. unfold Qeq in Heq. simpl in Heq. lia.
Qed.

Lemma counter_done_after_target_updates_witness :
  ∃ w', times (Z.to_nat 2) (update 6 0%nat) sample_world = Return () w'
        ∧ state_at w' 0%nat = Some (CounterTask 2 2)
        ∧ (∀ f, is_done (S f) (heap w') 0%nat = Ok true)
        ∧ (∀ f, ∃ q, completeness (S f) (heap w') 0%nat = Ok q ∧ (q == 1)%Q).
Proof.
  apply (counter_done_after_target_updates sample_world 0%nat 2 6%nat).
  - exact sample_world_reachable.
  - reflexivity.
  - unfold INT_MAX. lia.
  - simpl. lia.
Defined.

(** C5, as stated, fails for the target 2^31: the update number 2^31 wraps
    the counter to -2^31 and the task is not done. *)
Lemma counter_not_done_after_2_31_updates :
  ∃ w w',
    run_script [NewCounterTask (2 ^ 31) "t"] empty_world = Some w
    ∧ times (Z.to_nat (2 ^ 31)) (update 2 0%nat) w = Return () w'
    ∧ state_at w' 0%nat = Some (CounterTask (- 2 ^ 31) (2 ^ 31))
    ∧ is_done 1 (heap w') 0%nat = Ok false.
Proof.
  set (t := Task "t" [] (CounterTask 0 (2 ^ 31))).
  assert (reachable (World [t] [])) as Hreach.
  { apply (run_script_reachable [NewCounterTask (2 ^ 31) "t"] empty_world);
      [apply reachable_start|reflexivity]. }
  destruct (counter_wraps 2 [t] 0%nat t (2 ^ 31) (Z.to_nat (2 ^ 31)) []
              (reachable_wf _ Hreach) eq_refl eq_refl)
    as (h' & tr' & Hrun & Ht').
  - cbn [length]. lia.
  - unfold INT_MAX. lia.
  - rewrite Z2Nat.id; unfold INT_MAX; lia.
  - exists (World [t] []), (World h' tr').
    split; [reflexivity|]. split; [exact Hrun|].
    split; [unfold state_at; cbn [heap]; by rewrite Ht'|].
    cbn [is_done heap]. unfold lookup_task. rewrite Ht'. reflexivity.
Qed.

(** C6: [update] on a task that is done returns at once and leaves the world
    as it is: no state changes and no listener is called.  For a boolean leaf
    that is pending, any number [n + 1] of updates calls each entry of its
    registry exactly once: the first update does, the others are such
    no-ops. *)
Theorem update_when_done_is_noop (w : world) (self : addr) (fuel : nat) :
  reachable w -> (2 * length (heap w) <= fuel)%nat ->
  (is_done fuel (heap w) self = Ok true -> update fuel self w = Return () w)
  ∧ (∀ ls, state_at w self = Some (SimpleTask 0) -> listeners_at w self = Some ls ->
     ∀ n, ∃ w', times (S n) (update fuel self) w = Return () w'
                ∧ state_at w' self = Some (SimpleTask 1)
                ∧ is_done fuel (heap w') self = Ok true
                ∧ ∀ uid, uid ∈ dict.keys ls ->
                    calls self uid (trace w') = S (calls self uid (trace w))).
Proof.
  intros Hreach Hfuel. pose proof (reachable_wf _ Hreach) as Hwf.
  assert (∀ w0, wf (heap w0) -> length (heap w0) = length (heap w) ->
            is_done fuel (heap w0) self = Ok true ->
            update fuel self w0 = Return () w0) as Hnoop.
  { intros w0 Hwf0 Hlen0 Hd. destruct fuel as [|f]; [done|].
    apply update_done.
    assert (is_Some (heap w0 !! self)) as [t Ht].
    { simpl in Hd. unfold lookup_task in Hd. destruct (heap w0 !! self); [by eexists|done]. }
    apply lookup_lt_Some in Ht.
    rewrite is_done_finished in Hd |- * by (done || lia). done. }
  split; [by apply Hnoop|].
  intros ls Hst Hls n. destruct w as [h tr]. unfold state_at, listeners_at in *.
  simpl in *. destruct (h !! self) as [t|] eqn:Ht; [|done].
  injection Hst as Hs. injection Hls as Hl.
  destruct (update_spec fuel h self t tr Hwf Ht) as (tr1 & Hrun & _ & Hown); [lia|].
  assert (finished h self = false) as Hd by (by rewrite (finished_unfold _ _ _ Hwf Ht), Hs).
  rewrite Hd in Hown. unfold updated in Hrun. rewrite Hd, Ht in Hrun.
  pose proof (lookup_lt_Some _ _ _ Ht) as Hlt.
  assert (<[self := step_task t]> h !! self = Some (step_task t)) as Ht1
    by by apply list_lookup_insert_eq.
  assert (is_done fuel (<[self := step_task t]> h) self = Ok true) as Hd1.
  { destruct fuel as [|f]; [lia|]. simpl. unfold lookup_task. rewrite Ht1.
    unfold step_task. simpl. by rewrite Hs. }
  eexists. split.
  - simpl. rewrite (bind_Return _ _ _ _ _ Hrun). apply times_noop.
    apply Hnoop; simpl; [by apply wf_step|by rewrite length_insert|done].
  - cbn [heap trace].
    split; [rewrite Ht1; unfold step_task; simpl; by rewrite Hs|].
    split; [exact Hd1|].
    intros uid Huid. rewrite calls_app, (calls_own self uid tr1), Hown.
    rewrite calls_round; [lia|..]; rewrite Hl; [|done].
    rewrite <- Hl. apply (wf_nodup _ _ _ (Hwf _ _ Ht)).
Qed.

Lemma update_when_done_is_noop_witness :
  (is_done 2 (heap flag_world) 0%nat = Ok true -> update 2 0%nat flag_world = Return () flag_world)
  ∧ (∀ ls, state_at flag_world 0%nat = Some (SimpleTask 0) ->
     listeners_at flag_world 0%nat = Some ls ->
     ∀ n, ∃ w', times (S n) (update 2 0%nat) flag_world = Return () w'
                ∧ state_at w' 0%nat = Some (SimpleTask 1)
                ∧ is_done 2 (heap w') 0%nat = Ok true
                ∧ ∀ uid, uid ∈ dict.keys ls ->
                    calls 0%nat uid (trace w') = S (calls 0%nat uid (trace flag_world))).
Proof.
  apply (update_when_done_is_noop flag_world 0%nat 2%nat).
  - exact flag_world_reachable.
  - simpl. lia.
Defined.

(** C7, as the code has it: the constructor of a counted leaf stores any
    integer target unchecked.  With a target that is not positive the task is
    done from the start; [completeness()] raises [ZeroDivisionError] when the
    target is 0 and is zero when it is negative. *)
Theorem CounterTask_target_unchecked (progress_length : Z) (name : string) (w : world) :
  progress_length <= 0 ->
  ∃ w', new_CounterTask progress_length name w = Return (length (heap w)) w'
        ∧ state_at w' (length (heap w)) = Some (CounterTask 0 progress_length)
        ∧ (∀ fuel, is_done (S fuel) (heap w') (length (heap w)) = Ok true)
        ∧ (progress_length = 0 ->
           ∀ fuel, completeness (S fuel) (heap w') (length (heap w)) = Error ZeroDivisionError)
        ∧ (progress_length < 0 ->
           ∀ fuel, ∃ q, completeness (S fuel) (heap w') (length (heap w)) = Ok q ∧ (q == 0)%Q).
Proof.
  intros Hlen. eexists. split; [reflexivity|]. simpl.
  assert ((heap w ++ [Task (name_or_task name) [] (CounterTask (c_int 0) progress_length)])
            !! length (heap w)
          = Some (Task (name_or_task name) [] (CounterTask 0 progress_length))) as Hl
    by by apply list_lookup_middle.
  split; [unfold state_at; simpl; by rewrite Hl|].
  split; [|split].
  - intros fuel. simpl. unfold lookup_task. rewrite Hl. simpl.
    f_equal. apply Z.leb_le. done.
  - intros -> fuel. simpl. unfold lookup_task. by rewrite Hl.
  - intros Hneg fuel. simpl. unfold lookup_task. rewrite Hl. simpl.
    destruct (Z.eqb_spec progress_length 0); [lia|].
    eexists. split; [done|]. unfold Qdiv. apply Qmult_0_l.
Qed.

Lemma CounterTask_target_unchecked_witness :
  ∃ w', new_CounterTask (-1) "t" empty_world = Return 0%nat w'
        ∧ state_at w' 0%nat = Some (CounterTask 0 (-1))
        ∧ (∀ fuel, is_done (S fuel) (heap w') 0%nat = Ok true).
Proof.
  destruct (CounterTask_target_unchecked (-1) "t" empty_world ltac:(lia))
    as (w' & Hrun & Hst & Hdone & _).
  exists w'. split; [exact Hrun|]. split; [exact Hst|exact Hdone].
Defined.

(** C7, as stated, fails: a counted leaf with target 0 is built without any
    error. *)
Lemma CounterTask_zero_target_is_built :
  ∃ a w', new_CounterTask 0 "t" empty_world = Return a w'
          ∧ state_at w' a = Some (CounterTask 0 0).
Proof. by exists 0%nat, (World [Task "t" [] (CounterTask 0 0)] []). Qed.

(** C8: [remove] of an id that is not in the registry raises [KeyError];
    the exception reaches the caller, whose following statements do not run,
    and the world (so the registry) is as it was before the call. *)
Theorem remove_unknown_id_raises (w : world) (self : addr) (t : task) (uid : Z) :
  heap w !! self = Some t ->
  uid ∉ dict.keys (_update_listeners t) ->
  remove self uid w = Raise KeyError w
  ∧ (∀ (B : Type) (k : unit -> M B), (remove self uid ≫= k) w = Raise KeyError w)
  ∧ listeners_at (world_of (remove self uid w)) self = Some (_update_listeners t).
Proof.
  intros Ht Hfresh.
  assert (remove self uid w = Raise KeyError w) as Hrun.
  { unfold remove, mbind, M_bind, eval, lookup_task. rewrite Ht. simpl.
    by rewrite (dict_facts.del_None _ _ Hfresh). }
  split; [done|]. split.
  - intros B k. by apply bind_Raise.
  - rewrite Hrun. unfold listeners_at. simpl. by rewrite Ht.
Qed.

Lemma remove_unknown_id_raises_witness :
  remove 2%nat 5 sample_world = Raise KeyError sample_world
  ∧ (∀ (B : Type) (k : unit -> M B), (remove 2%nat 5 ≫= k) sample_world = Raise KeyError sample_world)
  ∧ listeners_at (world_of (remove 2%nat 5 sample_world)) 2%nat = Some [(1, Extern 0)].
Proof.
  apply (remove_unknown_id_raises sample_world 2%nat
           (Task "tasks" [(1, Extern 0)] (MultiTask [0; 1]%nat)) 5).
  - reflexivity.
  - simpl. intros Hin. apply list_elem_of_singleton in Hin. discriminate Hin.
Defined.

(** C10: in every world a client can reach, a counted leaf with a positive
    target [T] has its counter at most [T], and its completeness is at most
    1: [update] steps only below the target, and a wrap-around of the C
    [int] can only lower the counter. *)
Theorem counter_never_exceeds_target (w : world) (self : addr) (progress T : Z) :
  reachable w ->
  state_at w self = Some (CounterTask progress T) ->
  0 < T ->
  progress <= T
  ∧ ∀ f, ∃ q, completeness (S f) (heap w) self = Ok q ∧ (q <= 1)%Q.
Proof.
  intros Hreach Hst HT. pose proof (reachable_wf _ Hreach) as Hwf.
  unfold state_at in Hst. destruct (heap w !! self) as [t|] eqn:Ht; [|done].
  injection Hst as Hs.
  pose proof (wf_val _ _ _ (Hwf _ _ Ht)) as Hval. rewrite Hs in Hval.
  destruct Hval as (_ & Hle & _). specialize (Hle HT).
  split; [done|]. intros f. simpl. unfold lookup_task. rewrite Ht. simpl. rewrite Hs.
  destruct (Z.eqb_spec T 0); [lia|]. eexists. split; [done|].
  apply Qle_shift_div_r; [unfold Qlt; simpl; lia|].
  rewrite Qmult_1_l. unfold Qle. simpl. lia.
Qed.

Lemma counter_never_exceeds_target_witness :
  ∃ w, run_script driven_script empty_world = Some w
       ∧ state_at w 0%nat = Some (CounterTask 1 2)
       ∧ 1 <= 2
       ∧ ∀ f, ∃ q, completeness (S f) (heap w) 0%nat = Ok q ∧ (q <= 1)%Q.
Proof.
  eexists. split; [vm_compute; reflexivity|]. split; [reflexivity|].
  eapply (counter_never_exceeds_target _ 0%nat 1 2).
  - apply (run_script_reachable driven_script empty_world); [apply reachable_start|].
    vm_compute. reflexivity.
  - reflexivity.
  - lia.
Defined.

(** * Further properties of the code *)

(** ** The allocator on any dictionary *)

(** X1: [unique_integer_key] never returns a key of the dictionary, whatever
    its distinct integer keys are (also 0 and negative ones).  When the
    smallest key [m] is not 1 the result is [m - 1], the id just below it
    (so not 1 in general, and not positive when [m <= 1]); when it is 1 the
    result is above 1. *)
Theorem unique_integer_key_fresh_on_any_keys {V : Type} (d : list (Z * V)) (m : Z) :
  NoDup (d.*1) -> m ∈ d.*1 -> (∀ k, k ∈ d.*1 -> m <= k) ->
  (utils.unique_integer_key d ∉ d.*1)
  ∧ (m ≠ 1 -> utils.unique_integer_key d = m - 1)
  ∧ (m = 1 -> 1 < utils.unique_integer_key d).
Proof.
  intros Hnd Hm Hmin.
  destruct (utils_more.sorted_head_min _ _ Hnd Hm Hmin) as (rest & Hs & Hlow & Hinc).
  assert (∀ k, k ∈ d.*1 ↔ k = m ∨ k ∈ rest) as Hin.
  { intros k. rewrite <- utils_facts.elem_of_sorted, Hs. apply elem_of_cons. }
  unfold utils.unique_integer_key. rewrite Hs.
  destruct (decide (m = 1)) as [->|Hne].
  - change (utils.scan 0 (1 :: rest)) with (utils.scan 1 rest).
    destruct (utils_facts.scan_spec rest 1 Hlow Hinc) as (c & Hc & _ & Hfree & _).
    split; [|split; [done|lia]].
    rewrite Hin. intros [Heq|Hr]; [lia|]. by apply (Hfree (utils.scan 1 rest)); [lia|].
  - rewrite utils_more.scan_first by done.
    split; [|split; [done|by intros ?]].
    intros Hk. specialize (Hmin _ Hk). lia.
Qed.

Lemma unique_integer_key_fresh_on_any_keys_witness :
  (utils.unique_integer_key [(3, tt); (-2, tt); (0, tt)] ∉ [3; -2; 0])
  ∧ utils.unique_integer_key [(3, tt); (-2, tt); (0, tt)] = -3.
Proof.
  destruct (unique_integer_key_fresh_on_any_keys [(3, tt); (-2, tt); (0, tt)] (-2))
    as (Hfresh & Hlow & _).
  - simpl. repeat (apply NoDup_cons; split; [rewrite ?elem_of_cons, ?elem_of_nil; lia|]).
    apply NoDup_nil_2.
  - simpl. rewrite !elem_of_cons. lia.
  - simpl. intros k. rewrite !elem_of_cons, elem_of_nil. lia.
  - split; [exact Hfresh|]. apply Hlow. lia.
Defined.

(** ** Registering and removing *)

(** X2: [add] followed by [remove] of the id it returned leaves the task, and
    the whole world, exactly as before: the entry went last into the
    registry and is the one deleted. *)
Theorem add_then_remove_restores (w : world) (self : addr) (listener : callback) :
  reachable w -> (self < length (heap w))%nat ->
  ∃ uid w1, add self listener w = Return uid w1
            ∧ remove self uid w1 = Return () w
            ∧ (uid ← add self listener; remove self uid) w = Return () w.
Proof.
  intros Hreach Hself. pose proof (reachable_wf _ Hreach) as Hwf.
  destruct (lookup_lt_is_Some_2 _ _ Hself) as [t Ht].
  destruct (Hwf _ _ Ht) as [Hnd Hpos _ _ _]. destruct w as [h tr]. simpl in *.
  destruct (utils_facts.unique_integer_key_spec _ Hnd Hpos) as (_ & Hfresh & _).
  pose proof (add_run h tr self t listener Ht Hnd Hpos) as Hadd.
  assert (remove self (utils.unique_integer_key (_update_listeners t))
            (World (<[self := set_listeners t
                        (_update_listeners t
                         ++ [(utils.unique_integer_key (_update_listeners t), listener)])]> h) tr)
          = Return () (World h tr)) as Hrem.
  { unfold remove. erewrite bind_lookup by (by apply list_lookup_insert_eq).
    cbn [set_listeners _update_listeners]. rewrite dict_more.del_last by done.
    unfold store_task. cbn [heap trace]. rewrite list_insert_insert_eq.
    cbn [set_listeners _name state]. do 2 f_equal.
    apply list_insert_id. rewrite Ht. f_equal. by destruct t. }
  eexists _, _. split; [exact Hadd|]. split; [exact Hrem|].
  by rewrite (bind_Return _ _ _ _ _ Hadd).
Qed.

Lemma add_then_remove_restores_witness :
  ∃ uid w1, add 2%nat (Extern 5) sample_world = Return uid w1
            ∧ remove 2%nat uid w1 = Return () sample_world
            ∧ (uid ← add 2%nat (Extern 5); remove 2%nat uid) sample_world
              = Return () sample_world.
Proof.
  apply (add_then_remove_restores sample_world 2%nat (Extern 5)).
  - exact sample_world_reachable.
  - simpl. lia.
Defined.

(** X3: on a registry that holds the ids 1 .. n, [add] returns n + 1, and
    after [remove] of any id of the registry the next [add] returns that very
    id; either way the registry again holds the ids 1 .. (its size), the new
    entry being the last one in the order of notification. *)
Theorem dense_registry_stays_dense
    (w : world) (self : addr) (t : task) (listener : callback) :
  reachable w -> heap w !! self = Some t -> dense (_update_listeners t) ->
  (∃ w', add self listener w = Return (Z.of_nat (length (_update_listeners t)) + 1) w'
         ∧ listeners_at w' self
           = Some (_update_listeners t
                   ++ [(Z.of_nat (length (_update_listeners t)) + 1, listener)])
         ∧ dense (_update_listeners t
                  ++ [(Z.of_nat (length (_update_listeners t)) + 1, listener)]))
  ∧ (∀ uid, uid ∈ dict.keys (_update_listeners t) ->
       ∃ d w1 w2, dict.del uid (_update_listeners t) = Some d
                  ∧ remove self uid w = Return () w1
                  ∧ add self listener w1 = Return uid w2
                  ∧ listeners_at w2 self = Some (d ++ [(uid, listener)])
                  ∧ dense (d ++ [(uid, listener)])).
Proof.
  intros Hreach Ht Hd. pose proof (reachable_wf _ Hreach) as Hwf.
  destruct (Hwf _ _ Ht) as [Hnd Hpos _ _ _]. destruct w as [h tr]. simpl in *.
  pose proof (lookup_lt_Some _ _ _ Ht) as Hlt.
  split.
  - assert (utils.unique_integer_key (_update_listeners t)
            = Z.of_nat (length (_update_listeners t)) + 1) as Huid.
    { rewrite <- (dense_max_key _ Hd).
      apply utils_facts.unique_integer_key_dense; [done..|].
      intros j Hj. apply Hd. rewrite <- (dense_max_key _ Hd). done. }
    eexists. split; [rewrite <- Huid; by apply add_run|].
    split; [unfold listeners_at; simpl; rewrite list_lookup_insert_eq by done;
            simpl; by rewrite Huid|].
    intros j. unfold dict.keys. rewrite fmap_app, elem_of_app, length_app. simpl.
    rewrite list_elem_of_singleton. fold (dict.keys (_update_listeners t)).
    rewrite (Hd j). lia.
  - intros uid Huid.
    destruct (dict_facts.del_Some _ _ Huid) as [d Hdel].
    pose proof (dict_more.elem_of_del_keys _ _ _ Hnd Hdel) as Hkeys.
    pose proof (del_length _ _ _ Hdel) as Hlen.
    pose proof (remove_wf _ _ _ _ _ Hwf Ht Hdel) as Hwf1.
    set (h1 := <[self := set_listeners t d]> h) in *.
    assert (h1 !! self = Some (set_listeners t d)) as Ht1
      by (by apply list_lookup_insert_eq).
    destruct (Hwf1 _ _ Ht1) as [Hnd1 Hpos1 _ _ _]. simpl in Hnd1, Hpos1.
    assert (utils.unique_integer_key d = uid) as Hnew.
    { destruct (utils_facts.unique_integer_key_spec d Hnd1 Hpos1)
        as (Hge & Hfresh & c & Hc & Htaken & Hfree & Hnext).
      fold (dict.keys d) in *.
      assert (c < uid) as Hcu.
      { destruct (Z.lt_ge_cases c uid); [done|].
        exfalso. assert (uid ∈ dict.keys d) as Hin by (apply Htaken; apply Hd in Huid; lia).
        apply Hkeys in Hin. tauto. }
      assert (uid - 1 <= c) as Hcl.
      { destruct (Z.le_gt_cases (uid - 1) c); [done|].
        exfalso. apply (Hfree (c + 1)); [lia|].
        apply Hkeys. split; [|lia]. apply Hd. apply Hd in Huid. lia. }
      destruct Hnext as [Hnext|[_ Hlast]]; [|lia].
      destruct (Z.le_gt_cases (utils.unique_integer_key d) uid); [lia|].
      exfalso. apply (Hfree (uid + 1)); [lia|].
      apply Hkeys. split; [|lia]. apply Hd.
      apply Hkeys in Hnext as [Hnext _]. apply Hd in Hnext. lia. }
    pose proof (add_run h1 tr self _ listener Ht1 Hnd1 Hpos1) as Hadd.
    cbn [set_listeners _update_listeners] in Hadd. rewrite Hnew in Hadd.
    exists d, (World h1 tr). eexists. split; [done|].
    split; [unfold remove; rewrite (bind_lookup _ _ _ _ _ Ht), Hdel; done|].
    split; [exact Hadd|].
    split.
    + unfold listeners_at. simpl. rewrite list_lookup_insert_eq by (by eapply lookup_lt_Some).
      done.
    + intros j. unfold dict.keys. rewrite fmap_app, elem_of_app, length_app. simpl.
      rewrite list_elem_of_singleton. fold (dict.keys d).
      rewrite (Hkeys j), (Hd j). apply Hd in Huid. lia.
Qed.

Lemma dense_registry_stays_dense_witness :
  (∃ w', add 2%nat (Extern 1) sample_world = Return (Z.of_nat 1 + 1) w'
         ∧ listeners_at w' 2%nat = Some ([(1, Extern 0)] ++ [(Z.of_nat 1 + 1, Extern 1)])
         ∧ dense ([(1, Extern 0)] ++ [(Z.of_nat 1 + 1, Extern 1)]))
  ∧ (∀ uid, uid ∈ [1] ->
       ∃ d w1 w2, dict.del uid [(1, Extern 0)] = Some d
                  ∧ remove 2%nat uid sample_world = Return () w1
                  ∧ add 2%nat (Extern 1) w1 = Return uid w2
                  ∧ listeners_at w2 2%nat = Some (d ++ [(uid, Extern 1)])
                  ∧ dense (d ++ [(uid, Extern 1)])).
Proof.
  apply (dense_registry_stays_dense sample_world 2%nat
           (Task "tasks" [(1, Extern 0)] (MultiTask [0; 1]%nat)) (Extern 1)).
  - exact sample_world_reachable.
  - reflexivity.
  - intros j. simpl. rewrite list_elem_of_singleton. lia.
Defined.

(** ** One round of notification *)





(** X6: [reset] on a leaf puts its flag or counter to zero and then calls
    every entry of its registry exactly once, in the order of the registry,
    whatever the state was: also when the leaf was already at zero, and also
    when it was done, where [update] stays silent. *)
Theorem reset_of_leaf_notifies_once (w : world) (self : addr) (t : task) (fuel : nat) :
  reachable w -> heap w !! self = Some t -> ¬ is_multi t ->
  (2 * length (heap w) + 1 <= fuel)%nat ->
  ∃ w' tr,
    reset fuel self w = Return () w'
    ∧ heap w' = <[self := set_state t (zero_state (state t))]> (heap w)
    ∧ trace w' = trace w ++ tr
    ∧ own self tr = round self t
    ∧ above self tr
    ∧ (∀ uid, uid ∈ dict.keys (_update_listeners t) -> calls self uid tr = 1%nat)
    ∧ (∀ uid, uid ∉ dict.keys (_update_listeners t) -> calls self uid tr = 0%nat).
Proof.
  intros Hreach Ht Hleaf Hfuel. pose proof (reachable_wf _ Hreach) as Hwf.
  destruct w as [h tr0]. simpl in *.
  pose proof (lookup_lt_Some _ _ _ Ht) as Hlt.
  destruct fuel as [|fuel]; [lia|].
  assert (_reset (reset fuel) self (World h tr0)
          = Return () (World (<[self := zero_task t]> h) tr0)) as Hrst.
  { unfold _reset. rewrite (bind_lookup _ _ _ _ _ Ht). unfold zero_task.
    destruct (state t) as [v|progress len|subs] eqn:Hs; [done..|].
    exfalso. apply Hleaf. by exists subs. }
  pose proof (wf_zero _ _ _ Hwf Ht) as Hwf1.
  assert (<[self := zero_task t]> h !! self = Some (zero_task t)) as Ht1
    by by apply list_lookup_insert_eq.
  destruct (notify_run (update fuel) (<[self := zero_task t]> h) self)
    with (t := zero_task t) (tr0 := tr0) as (tr & Hnot & Hab & Hown); [|done| |].
  { intros q tq tr1 Hq Hlook Hm.
    destruct (update_spec fuel _ q tq tr1 Hwf1 Hlook) as (tr & Hrun & Hab & _).
    { rewrite length_insert. lia. }
    rewrite (updated_multi _ _ _ Hlook Hm) in Hrun. eauto. }
  { apply (wf_bound _ _ _ (Hwf1 _ _ Ht1)). }
  rewrite (round_revalued _ _ _ (revalued_zero t)) in Hown.
  pose proof (wf_nodup _ _ _ (Hwf _ _ Ht)) as Hnd.
  eexists _, tr. split; [simpl; rewrite (bind_Return _ _ _ _ _ Hrst); exact Hnot|].
  split; [done|]. split; [done|]. split; [done|]. split; [done|].
  split; intros uid Huid; rewrite (calls_round_once _ t) by done; by destruct (decide _).
Qed.

Lemma reset_of_leaf_notifies_once_witness :
  ∃ w' tr,
    reset 3 0%nat flag_world = Return () w'
    ∧ heap w' = heap flag_world
    ∧ trace w' = tr
    ∧ own 0%nat tr = [Called 0%nat 1 (Extern 7)]
    ∧ (∀ uid, uid ∈ [1] -> calls 0%nat uid tr = 1%nat).
Proof.
  destruct (reset_of_leaf_notifies_once flag_world 0%nat
              (Task "flag" [(1, Extern 7)] (SimpleTask 0)) 3%nat
              flag_world_reachable eq_refl)
    as (w' & tr & Hrun & Hheap & Htr & Hown & _ & Hone & _).
  - intros [subs Hs]. discriminate Hs.
  - simpl. lia.
  - exists w', tr. split; [exact Hrun|]. split; [exact Hheap|]. split; [exact Htr|].
    split; [exact Hown|exact Hone].
Defined.

(** ** Counted leaves *)



(** X8: a counted leaf whose target is above the largest C [int] is never
    done, in any world a client can reach: its counter stays below the
    target, its completeness below 1, and no composite above it is ever
    done either. *)
Theorem counter_above_int_max_never_done (w : world) (self : addr) (p T : Z) :
  reachable w ->
  state_at w self = Some (CounterTask p T) ->
  INT_MAX < T ->
  p < T
  ∧ (∀ f, is_done (S f) (heap w) self = Ok false)
  ∧ (∀ f, ∃ q, completeness (S f) (heap w) self = Ok q ∧ (q < 1)%Q)
  ∧ (∀ m f, descendant (heap w) m self -> (m < f)%nat ->
            is_done f (heap w) m = Ok false).
Proof.
  intros Hreach Hst HT. pose proof (reachable_wf _ Hreach) as Hwf.
  unfold state_at in Hst. destruct (heap w !! self) as [t|] eqn:Ht; [|done].
  injection Hst as Hs.
  pose proof (wf_val _ _ _ (Hwf _ _ Ht)) as Hval. rewrite Hs in Hval.
  destruct Hval as ((_ & Hmax) & _ & _).
  assert (∀ f, is_done (S f) (heap w) self = Ok false) as Hnot.
  { intros f. simpl. unfold lookup_task. rewrite Ht. simpl. rewrite Hs.
    f_equal. apply Z.leb_gt. lia. }
  split; [lia|]. split; [done|]. split.
  - intros f. simpl. unfold lookup_task. rewrite Ht. simpl. rewrite Hs.
    destruct (Z.eqb_spec T 0); [unfold INT_MAX in *; lia|]. eexists. split; [done|].
    apply Qlt_shift_div_r; [unfold Qlt; simpl; unfold INT_MAX in *; lia|].
    rewrite Qmult_1_l. unfold Qlt. simpl. lia.
  - intros m f Hm Hf.
    assert (m < length (heap w))%nat as Hlen.
    { destruct Hm as [a|a ta subs c b Ha _ _ _]; by eapply lookup_lt_Some. }
    rewrite is_done_finished by done. f_equal.
    apply (finished_above _ _ _ Hwf Hm).
    pose proof (Hnot self) as Hd.
    rewrite is_done_finished in Hd by (done || lia || by eapply lookup_lt_Some).
    by injection Hd.
Qed.

Lemma counter_above_int_max_never_done_witness :
  ∃ w, run_script [NewCounterTask (2 ^ 31) "big"; NewMultiTask "all" [0%nat];
                   Update 4 0; Update 4 0; Reset 6 1; Update 4 0]%nat empty_world = Some w
       ∧ state_at w 0%nat = Some (CounterTask 1 (2 ^ 31))
       ∧ 1 < 2 ^ 31
       ∧ (∀ f, is_done (S f) (heap w) 0%nat = Ok false)
       ∧ (∀ m f, descendant (heap w) m 0%nat -> (m < f)%nat ->
                 is_done f (heap w) m = Ok false).
Proof.
  eexists. split; [vm_compute; reflexivity|]. split; [reflexivity|].
  destruct (counter_above_int_max_never_done
              (World [Task "big" [(1, BoundUpdate 1%nat)] (CounterTask 1 (2 ^ 31));
                      Task "all" [] (MultiTask [0%nat])]
                 [Called 0%nat 1 (BoundUpdate 1%nat); Called 0%nat 1 (BoundUpdate 1%nat);
                  Called 0%nat 1 (BoundUpdate 1%nat); Called 0%nat 1 (BoundUpdate 1%nat)])
              0%nat 1 (2 ^ 31)) as (Hlt & Hnot & _ & Hup).
  - apply (run_script_reachable
             [NewCounterTask (2 ^ 31) "big"; NewMultiTask "all" [0%nat];
              Update 4 0; Update 4 0; Reset 6 1; Update 4 0]%nat empty_world);
      [apply reachable_start|vm_compute; reflexivity].
  - reflexivity.
  - unfold INT_MAX. lia.
  - split; [exact Hlt|]. split; [exact Hnot|exact Hup].
Defined.

(** ** No cycle, no exception *)



(** ** Who gets called *)

(** X10: along any sequence of [update] and [reset] calls, on any tasks, no
    registry changes, and every call of a listener is the call of an entry
    that the registry of the calling task holds: an id that a task does not
    hold is never called by it, and a callback that no task holds never
    runs. *)
Theorem only_registered_listeners_are_called (cs : list api) (w w' : world) :
  forallb drives cs = true -> run_script cs w = Some w' ->
  (∀ b, listeners_at w' b = listeners_at w b)
  ∧ ∃ tr, trace w' = trace w ++ tr
          ∧ (∀ e, e ∈ tr -> ∃ ls, listeners_at w (ev_task e) = Some ls
                                  ∧ (ev_uid e, ev_listener e) ∈ ls)
          ∧ (∀ a uid ls, listeners_at w a = Some ls -> uid ∉ dict.keys ls ->
                         calls a uid tr = 0%nat)
          ∧ (∀ tag, (∀ a ls k, listeners_at w a = Some ls -> (k, Extern tag) ∉ ls) ->
                    runs tag tr = 0%nat).
Proof.
  intros Hcs Hrun.
  destruct (run_drives_registered _ _ _ Hcs Hrun) as [Hl (tr & Htr & Hreg)].
  split; [done|]. exists tr. split; [done|].
  rewrite Forall_forall in Hreg. split; [exact Hreg|]. split.
  - intros a uid ls Hls Huid. apply calls_none, Forall_forall.
    intros e He [Ha Hu]. destruct (Hreg e He) as (ls' & Hls' & Hin).
    rewrite Ha, Hls in Hls'. injection Hls' as <-. apply Huid.
    unfold dict.keys. apply list_elem_of_fmap. exists (ev_uid e, ev_listener e).
    by split.
  - intros tag Hfree. apply runs_none, Forall_forall.
    intros e He Htag. destruct (Hreg e He) as (ls & Hls & Hin).
    rewrite Htag in Hin. by eapply Hfree.
Qed.

Lemma only_registered_listeners_are_called_witness :
  ∃ w', run_script [Update 6 0; Reset 9 2; Update 6 1]%nat sample_world = Some w'
        ∧ (∀ b, listeners_at w' b = listeners_at sample_world b)
        ∧ ∃ tr, trace w' = trace sample_world ++ tr
                ∧ (∀ e, e ∈ tr -> ∃ ls, listeners_at sample_world (ev_task e) = Some ls
                                        ∧ (ev_uid e, ev_listener e) ∈ ls).
Proof.
  eexists. split; [vm_compute; reflexivity|].
  destruct (only_registered_listeners_are_called
              [Update 6 0; Reset 9 2; Update 6 1]%nat sample_world _ eq_refl
              ltac:(vm_compute; reflexivity))
    as (Hl & tr & Htr & Hreg & _).
  split; [exact Hl|]. exists tr. split; [exact Htr|exact Hreg].
Defined.

(** X11: once [remove] has taken an id out of the registry of a task, no
    sequence of [update] and [reset] calls, on this task or on any other,
    makes the task call that id again. *)
Theorem removed_listener_is_not_called
    (w w1 w2 : world) (self : addr) (uid : Z) (cs : list api) :
  reachable w -> remove self uid w = Return () w1 ->
  forallb drives cs = true -> run_script cs w1 = Some w2 ->
  calls self uid (trace w2) = calls self uid (trace w1)
  ∧ ∃ ls, listeners_at w2 self = Some ls ∧ (uid ∉ dict.keys ls).
Proof.
  intros Hreach Hrem Hcs Hrun. pose proof (reachable_wf _ Hreach) as Hwf.
  destruct (remove_returns _ _ _ _ Hrem) as (t & d & Ht & Hdel & ->).
  destruct (run_drives_registered _ _ _ Hcs Hrun) as [Hl (tr & Htr & Hreg)].
  pose proof (wf_nodup _ _ _ (Hwf _ _ Ht)) as Hnd.
  assert (listeners_at (World (<[self := set_listeners t d]> (heap w)) (trace w)) self
          = Some d) as Hls.
  { unfold listeners_at. simpl.
    by rewrite list_lookup_insert_eq by (by eapply lookup_lt_Some). }
  assert (uid ∉ dict.keys d) as Hout.
  { intros Hin. apply (dict_more.elem_of_del_keys _ _ _ Hnd Hdel) in Hin. tauto. }
  split; [|exists d; by rewrite Hl].
  rewrite Htr, calls_app. rewrite (calls_none self uid tr); [lia|].
  rewrite Forall_forall in Hreg |- *. intros e He [Ha Hu].
  destruct (Hreg e He) as (ls' & Hls' & Hin).
  rewrite Ha, Hls in Hls'. injection Hls' as <-. apply Hout.
  unfold dict.keys. apply list_elem_of_fmap. exists (ev_uid e, ev_listener e).
  by split.
Qed.

Lemma removed_listener_is_not_called_witness :
  ∃ w1 w2, remove 2%nat 1 sample_world = Return () w1
           ∧ run_script [Update 6 0; Reset 9 2; Update 6 1]%nat w1 = Some w2
           ∧ calls 2%nat 1 (trace w2) = calls 2%nat 1 (trace w1)
           ∧ ∃ ls, listeners_at w2 2%nat = Some ls ∧ (1 ∉ dict.keys ls).
Proof.
  eexists _, _. split; [vm_compute; reflexivity|]. split; [vm_compute; reflexivity|].
  apply (removed_listener_is_not_called sample_world _ _ 2%nat 1
           [Update 6 0; Reset 9 2; Update 6 1]%nat).
  - exact sample_world_reachable.
  - vm_compute. reflexivity.
  - reflexivity.
  - vm_compute. reflexivity.
Defined.

(** ** What a composite hears of the updates below it *)

(** X12: what the listeners of a composite hear of an [update] made on a
    task.  If the composite is done once the update has made its step, none
    of its listeners is called: in particular the update that completes a
    composite is not announced to the listeners of the composite.  If the
    updated task was not done and its update is relayed to the composite
    through registries, by composites that are all not done after the step
    (the composite included), each listener of the composite is called at
    least once. *)
Theorem composite_notified_only_while_pending
    (w w' : world) (self m : addr) (tm : task) (fuel F : nat) :
  reachable w -> update fuel self w = Return () w' ->
  heap w !! m = Some tm -> is_multi tm -> (m < F)%nat ->
  (is_done F (heap w') m = Ok true ->
     ∀ uid, calls m uid (trace w') = calls m uid (trace w))
  ∧ (∀ G, is_done G (heap w) self = Ok false ->
     relays (heap w') self m ->
     ∀ uid, uid ∈ dict.keys (_update_listeners tm) ->
            (calls m uid (trace w) < calls m uid (trace w'))%nat).
Proof.
  intros Hreach Hrun Hm Hmulti HF. pose proof (reachable_wf _ Hreach) as Hwf.
  destruct w as [h tr0]. simpl in *.
  destruct (update_returns _ _ _ _ _ Hwf Hrun) as (t & tr & Ht & Hw' & _ & Hown).
  pose proof (updated_wf _ self Hwf) as Hwf'.
  assert (heap w' = updated h self) as Hheap by (by rewrite Hw').
  destruct fuel as [|fuel]; [done|]. simpl in Hrun.
  apply bind_inv_Return in Hrun as (d & w1 & Hd & Hrest).
  apply eval_inv_Return in Hd as [Hd ->]. simpl in Hd.
  apply (is_done_value _ _ _ _ Hwf) in Hd. subst d.
  destruct (finished h self) eqn:Hdone.
  { injection Hrest as <-. split; [done|]. simpl. intros G Hself.
    apply (is_done_value _ _ _ _ Hwf) in Hself. congruence. }
  apply bind_inv_Return in Hrest as ([] & w2 & Hupd & Hnot).
  rewrite (_update_run _ _ _ _ Ht) in Hupd. injection Hupd as <-.
  assert (updated h self = <[self := step_task t]> h) as Hupdated
    by (unfold updated; by rewrite Hdone, Ht).
  rewrite Hupdated in Hheap, Hwf'. set (h1 := <[self := step_task t]> h) in *.
  assert (h1 !! self = Some (step_task t)) as Ht1
    by (apply list_lookup_insert_eq; by eapply lookup_lt_Some).
  unfold notify in Hnot. rewrite (bind_lookup _ _ _ _ _ Ht1) in Hnot.
  assert (∃ tm1, h1 !! m = Some tm1 ∧ is_multi tm1
                 ∧ _update_listeners tm1 = _update_listeners tm) as (tm1 & Hm1 & Hmulti1 & Hls1).
  { destruct (revalued_heap_lookup_l _ _ _ _ (updated_revalued h self) Hm)
      as (tm1 & Hm1 & Hrev).
    rewrite Hupdated in Hm1. exists tm1. split; [done|].
    split; [by eapply revalued_multi|apply Hrev]. }
  split.
  - intros Hend. rewrite Hheap in Hend.
    apply (is_done_value _ _ _ _ Hwf') in Hend. symmetry in Hend.
    assert (self ≠ m) as Hne.
    { intros ->. assert (step_task t = t) as Hsame.
      { apply step_task_multi. assert (tm = t) as <- by congruence. done. }
      unfold h1 in Hend. rewrite Hsame, list_insert_id in Hend by done. congruence. }
    assert (silent m (World h1 tr0) w') as [_ (tr' & Htr' & Hown')].
    { eapply (for_each_call_inv (silent m) (fun w1 => heap w1 = h1));
        [apply silent_refl|apply silent_trans| | | | |exact Hnot].
      - intros w1 w2 HI [Hh _]. congruence.
      - intros k cb w1 Hin HI. split; [done|]. exists [Called self k cb]. split; [done|].
        unfold own. by rewrite filter_cons_False.
      - intros k p w1 w2 Hin HI. apply update_multi_silent; rewrite HI; [done..|].
        destruct (wf_bound _ _ _ (Hwf' _ _ Ht1) k p Hin) as (_ & tp & Hp & Hmp). eauto.
      - done. }
    intros uid. rewrite Htr'. simpl. rewrite calls_app, (calls_own m uid tr'), Hown'. simpl. lia.
  - intros G _ Hrel uid Huid. rewrite Hheap in Hrel. clearbody h1.
    destruct Hrel as [m|a t' k p m Ha Hin Hp Hrel].
    + rewrite Hw'. simpl. assert (tm = t) as -> by congruence.
      rewrite calls_app, (calls_round_once m t tr uid);
        [|apply (wf_nodup _ _ _ (Hwf _ _ Ht))|done].
      destruct (decide _); [lia|done].
    + assert (t' = step_task t) as -> by congruence.
      destruct (notify_loop_reaches h1 fuel a _ k p (World h1 tr0) w' Hwf' Ht1 eq_refl Hin Hnot)
        as ([hx trx] & w3 & [Hhx (tra & Htra)] & Hupdp & [Hh3 (trb & Htrb)]).
      simpl in Hhx, Htra. subst hx trx.
      destruct (wf_bound _ _ _ (Hwf' _ _ Ht1) k p Hin) as (_ & tp & Hp' & Hmp).
      rewrite <- Hls1 in Huid.
      destruct (update_relayed h1 m tm1 uid Hwf' Hm1 Huid p Hrel Hp ltac:(eauto) fuel _ _ Hupdp)
        as [_ Hlt].
      rewrite Htrb, calls_app. rewrite calls_app in Hlt. lia.
Qed.

Lemma composite_notified_only_while_pending_witness :
  ∃ w', update 6 0%nat sample_world = Return () w'
        ∧ (is_done 3 (heap w') 2%nat = Ok true ->
           ∀ uid, calls 2%nat uid (trace w') = calls 2%nat uid (trace sample_world))
        ∧ (∀ uid, uid ∈ [1] ->
           (calls 2%nat uid (trace sample_world) < calls 2%nat uid (trace w'))%nat).
Proof.
  eexists. split; [vm_compute; reflexivity|].
  destruct (composite_notified_only_while_pending sample_world _ 0%nat 2%nat
              (Task "tasks" [(1, Extern 0)] (MultiTask [0; 1]%nat)) 6%nat 3%nat
              sample_world_reachable eq_refl eq_refl
              (ex_intro _ [0; 1]%nat eq_refl) ltac:(lia)) as [Hdone Hpending].
  split; [exact Hdone|].
  apply (Hpending 1%nat); [reflexivity|].
  eapply relays_step; [reflexivity|left|reflexivity|apply relays_here].
Defined.

(** ** When [completeness()] raises *)

(** X13: in a world a client can reach, [completeness()] of a task raises
    [ZeroDivisionError] exactly when a counted leaf with target 0 is the
    task or lies below it, however deep; otherwise it returns a value.  No
    other exception comes out of it. *)
Theorem completeness_raises_iff_zero_target_below (w : world) (self : addr) (fuel : nat) :
  reachable w -> (self < length (heap w))%nat -> (self < fuel)%nat ->
  (completeness fuel (heap w) self = Error ZeroDivisionError
   ↔ ∃ b progress, descendant (heap w) self b
                   ∧ state_at w b = Some (CounterTask progress 0))
  ∧ (completeness fuel (heap w) self = Error ZeroDivisionError
     ∨ ∃ q, completeness fuel (heap w) self = Ok q).
Proof.
  intros Hreach Hself Hfuel. pose proof (reachable_wf _ Hreach) as Hwf.
  assert (∀ b, zero_target (heap w) b
               ↔ ∃ progress, state_at w b = Some (CounterTask progress 0)) as Hz.
  { intros b. unfold zero_target, state_at. split.
    - intros (t & p & -> & Hs). exists p. simpl. by rewrite Hs.
    - intros (p & Hs). destruct (heap w !! b) as [t|]; [|done].
      exists t, p. split; [done|]. by injection Hs. }
  destruct (completeness_cases (heap w) self fuel Hwf Hself Hfuel)
    as [[He (b & Hb & Hzb)]|[[q Hq] Hno]].
  - split; [|by left]. split; [|done]. intros _.
    apply Hz in Hzb as [p Hp]. by exists b, p.
  - split; [|right; by exists q]. split; [congruence|].
    intros (b & p & Hb & Hp). exfalso. apply (Hno b Hb). apply Hz. by exists p.
Qed.

Lemma completeness_raises_iff_zero_target_below_witness :
  ∃ w, run_script [NewSimpleTask "a"; NewCounterTask 0 "z"; NewMultiTask "inner" [1%nat];
                   NewMultiTask "outer" [0; 2]%nat] empty_world = Some w
       ∧ (completeness 4 (heap w) 3%nat = Error ZeroDivisionError
          ↔ ∃ b progress, descendant (heap w) 3%nat b
                          ∧ state_at w b = Some (CounterTask progress 0))
       ∧ completeness 4 (heap w) 3%nat = Error ZeroDivisionError.
Proof.
  eexists. split; [vm_compute; reflexivity|].
  split; [|reflexivity].
  apply (completeness_raises_iff_zero_target_below _ 3%nat 4%nat).
  - apply (run_script_reachable
             [NewSimpleTask "a"; NewCounterTask 0 "z"; NewMultiTask "inner" [1%nat];
              NewMultiTask "outer" [0; 2]%nat] empty_world);
      [apply reachable_start|vm_compute; reflexivity].
  - simpl. lia.
  - lia.
Defined.

(** ** What [MultiTask.__init__] does to its children *)

(** X14: [MultiTask(name, *tasks)] returns a new composite whose children
    are the arguments in their order, with an empty registry; it calls no
    listener; and every task that existed keeps its fields but gains, at the
    end of its registry, one entry for the [update] of the composite for
    each time it occurs among the arguments (none if it does not occur, two
    if it is given twice). *)
Theorem new_MultiTask_subscribes_to_children
    (w : world) (name : string) (tasks : list addr) :
  reachable w -> (∀ c, c ∈ tasks -> (c < length (heap w))%nat) ->
  ∃ w', new_MultiTask name tasks w = Return (length (heap w)) w'
        ∧ trace w' = trace w
        ∧ length (heap w') = S (length (heap w))
        ∧ heap w' !! length (heap w) = Some (Task (name_or_task name) [] (MultiTask tasks))
        ∧ ∀ a t, heap w !! a = Some t ->
            ∃ ids, heap w' !! a
                   = Some (set_listeners t
                             (_update_listeners t ++ subscriptions (length (heap w)) ids))
                   ∧ length ids = occurrences a tasks.
Proof.
  intros Hreach Hlt. pose proof (reachable_wf _ Hreach) as Hwf.
  destruct w as [h tr]. simpl in *.
  set (ts := Task (name_or_task name) [] (MultiTask [])).
  destruct (subscribe_loop_run (length h) tasks (h ++ [ts]) tr ts [])
    as (h' & Hrun & Hlen & Hself & Hrest); [|by apply list_lookup_middle|done|done|].
  { apply wf_alloc; try done. intros subs c [= <-] Hc. by apply elem_of_nil in Hc. }
  exists (World h' tr). split.
  - unfold new_MultiTask. rewrite (bind_Return _ _ _ _ _ (existing_run tasks (World h tr) Hlt)).
    unfold mbind at 1, M_bind at 1, alloc_task. cbn [heap trace].
    fold ts. by rewrite (bind_Return _ _ _ _ _ Hrun).
  - cbn [heap trace]. split; [done|]. split; [by rewrite Hlen, length_app, Nat.add_1_r|].
    split; [exact Hself|].
    intros a t Ha. apply Hrest; [apply lookup_lt_Some in Ha; lia|].
    by apply lookup_app_l_Some.
Qed.

Lemma new_MultiTask_subscribes_to_children_witness :
  ∃ w', new_MultiTask "again" [0; 0; 2]%nat sample_world = Return 3%nat w'
        ∧ trace w' = trace sample_world
        ∧ heap w' !! 3%nat = Some (Task "again" [] (MultiTask [0; 0; 2]%nat))
        ∧ listeners_at w' 0%nat
          = Some [(1, BoundUpdate 2%nat); (2, BoundUpdate 3%nat); (3, BoundUpdate 3%nat)]
        ∧ ∀ a t, heap sample_world !! a = Some t ->
            ∃ ids, heap w' !! a
                   = Some (set_listeners t (_update_listeners t ++ subscriptions 3%nat ids))
                   ∧ length ids = occurrences a [0; 0; 2]%nat.
Proof.
  destruct (new_MultiTask_subscribes_to_children sample_world "again" [0; 0; 2]%nat
              sample_world_reachable) as (w' & Hrun & Htr & _ & Hself & Hrest).
  - intros c Hc. simpl. repeat (apply elem_of_cons in Hc as [->|Hc]; [lia|]).
    by apply elem_of_nil in Hc.
  - exists w'. split; [exact Hrun|]. split; [exact Htr|]. split; [exact Hself|].
    split; [|exact Hrest].
    vm_compute in Hrun. injection Hrun as <-. reflexivity.
Defined.

(** ** What never changes *)

(** X15: a task never loses or changes its shape.  Whatever calls a client
    makes afterwards (constructors, [add], [remove], [update], [reset]), a
    task that exists keeps its identity, its name (the [name] property), its
    class, its target if it is a counted leaf and its list of children if it
    is a composite; and no task has an empty name, an empty [name] argument
    being replaced by "task". *)
Theorem shape_of_a_task_is_fixed (cs : list api) (w w' : world) (a : addr) (t : task) :
  reachable w -> run_script cs w = Some w' -> heap w !! a = Some t ->
  _name t ≠ EmptyString
  ∧ ∃ t', heap w' !! a = Some t'
          ∧ _name t' = _name t
          ∧ match state t with
            | SimpleTask _ => ∃ v, state t' = SimpleTask v
            | CounterTask _ len => ∃ progress, state t' = CounterTask progress len
            | MultiTask subs => state t' = MultiTask subs
            end.
Proof.
  intros Hreach Hrun Ha. split.
  - pose proof (reachable_named _ Hreach) as Hn. rewrite Forall_forall in Hn.
    apply Hn. by eapply list_elem_of_lookup_2.
  - destruct (run_script_grown _ _ _ Hreach Hrun) as (new & Hsh & _).
    destruct (Forall2_lookup_l _ _ _ a t Hsh) as (t' & Ha' & Hn & Hs);
      [by apply lookup_app_l_Some|].
    by exists t'.
Qed.

Lemma shape_of_a_task_is_fixed_witness :
  ∃ w', run_script [Update 6 0; NewMultiTask "" [1; 2]%nat; Remove 1 1; Reset 9 3;
                    NewCounterTask 7 ""]%nat sample_world = Some w'
        ∧ "sum"%string ≠ EmptyString
        ∧ ∃ t', heap w' !! 1%nat = Some t'
                ∧ _name t' = "sum"%string
                ∧ ∃ progress, state t' = CounterTask progress 4.
Proof.
  eexists. split; [vm_compute; reflexivity|].
  apply (shape_of_a_task_is_fixed
           [Update 6 0; NewMultiTask "" [1; 2]%nat; Remove 1 1; Reset 9 3;
            NewCounterTask 7 ""]%nat sample_world _ 1%nat
           (Task "sum" [(1, BoundUpdate 2%nat)] (CounterTask 0 4))).
  - exact sample_world_reachable.
  - vm_compute. reflexivity.
  - reflexivity.
Defined.

(** ** A composite and the leaves below it *)

(** X16: a task is done exactly when every leaf at or below it, however
    deep, is done; a composite without any leaf below it is done. *)
Theorem done_iff_every_leaf_below_is_done (w : world) (self : addr) (F : nat) :
  reachable w -> (self < length (heap w))%nat -> (self < F)%nat ->
  is_done F (heap w) self = Ok true
  ↔ ∀ b, descendant (heap w) self b ->
         (∀ subs, state_at w b ≠ Some (MultiTask subs)) ->
         is_done F (heap w) b = Ok true.
Proof.
  intros Hreach Hself HF. pose proof (reachable_wf _ Hreach) as Hwf.
  rewrite is_done_finished by done. split.
  - intros [= Hd] b Hb _. pose proof (descendant_le _ _ _ Hwf Hb) as Hle.
    rewrite is_done_finished by (done || lia). f_equal.
    destruct (finished (heap w) b) eqn:Hfb; [done|].
    by rewrite (finished_above _ _ _ Hwf Hb Hfb) in Hd.
  - intros Hleaves. f_equal. apply finished_below; [done..|].
    intros b tb Hb Htb Hleaf. pose proof (descendant_le _ _ _ Hwf Hb) as Hle.
    specialize (Hleaves b Hb). rewrite is_done_finished in Hleaves by (done || lia).
    assert (Some (finished (heap w) b) = Some true) as [= ->]; [|done].
    f_equal. assert (Ok (finished (heap w) b) = Ok true) as [= ->]; [|done].
    apply Hleaves. intros subs Hst. apply Hleaf. exists subs.
    unfold state_at in Hst. rewrite Htb in Hst. by injection Hst.
Qed.

Lemma done_iff_every_leaf_below_is_done_witness :
  is_done 3 (heap sample_world) 2%nat = Ok true
  ↔ ∀ b, descendant (heap sample_world) 2%nat b ->
         (∀ subs, state_at sample_world b ≠ Some (MultiTask subs)) ->
         is_done 3 (heap sample_world) b = Ok true.
Proof.
  apply (done_iff_every_leaf_below_is_done sample_world 2%nat 3%nat).
  - exact sample_world_reachable.
  - simpl. lia.
  - lia.
Defined.

(** ** Invariants of the flags and of the registries *)

(** X17: in every world a client can reach, the flag of a boolean leaf is 0
    or 1, so its completeness is 0 or 1, and the leaf is done exactly when
    the flag is 1. *)
Theorem flag_is_zero_or_one (w : world) (self : addr) (v : Z) :
  reachable w -> state_at w self = Some (SimpleTask v) ->
  (v = 0 ∨ v = 1)
  ∧ (∀ f, is_done (S f) (heap w) self = Ok (v =? 1))
  ∧ (∀ f, completeness (S f) (heap w) self = Ok (inject_Z v)).
Proof.
  intros Hreach Hst. pose proof (reachable_wf _ Hreach) as Hwf.
  unfold state_at in Hst. destruct (heap w !! self) as [t|] eqn:Ht; [|done].
  injection Hst as Hs.
  pose proof (wf_val _ _ _ (Hwf _ _ Ht)) as Hval. rewrite Hs in Hval. simpl in Hval.
  split; [done|]. split; intros f; simpl; unfold lookup_task; rewrite Ht; simpl; rewrite Hs.
  - by destruct Hval as [-> | ->].
  - done.
Qed.

Lemma flag_is_zero_or_one_witness :
  ∃ w, run_script [NewSimpleTask "flag"; Update 2 0; Reset 3 0; Update 2 0; Update 2 0]%nat
         empty_world = Some w
       ∧ (1 = 0 ∨ 1 = 1)
       ∧ (∀ f, is_done (S f) (heap w) 0%nat = Ok true)
       ∧ (∀ f, completeness (S f) (heap w) 0%nat = Ok 1%Q).
Proof.
  eexists. split; [vm_compute; reflexivity|].
  apply (flag_is_zero_or_one _ 0%nat 1).
  - apply (run_script_reachable
             [NewSimpleTask "flag"; Update 2 0; Reset 3 0; Update 2 0; Update 2 0]%nat
             empty_world); [apply reachable_start|vm_compute; reflexivity].
  - reflexivity.
Defined.

(** X18: the registries and the tree, in every world a client can reach.
    The ids of a registry are distinct and at least 1; a bound [update] in
    the registry of a task belongs to a composite that was built after the
    task and has the task among its children; and the children of a
    composite were built before it. *)
Theorem registries_follow_the_tree (w : world) (self : addr) (t : task) :
  reachable w -> heap w !! self = Some t ->
  NoDup (dict.keys (_update_listeners t))
  ∧ (∀ k, k ∈ dict.keys (_update_listeners t) -> 1 <= k)
  ∧ (∀ k p, (k, BoundUpdate p) ∈ _update_listeners t ->
       (self < p)%nat
       ∧ ∃ subs, state_at w p = Some (MultiTask subs) ∧ self ∈ subs)
  ∧ (∀ subs c, state t = MultiTask subs -> c ∈ subs ->
       (c < self)%nat ∧ is_Some (heap w !! c)).
Proof.
  intros Hreach Ht. pose proof (reachable_wf _ Hreach) as Hwf.
  destruct (Hwf _ _ Ht) as [Hnd Hpos Hbound Hsubs _].
  split; [done|]. split; [done|]. split.
  - intros k p Hin. split; [by apply (Hbound k p)|].
    destruct (reachable_subscribed _ Hreach _ _ _ _ Ht Hin) as (tp & subs & Hp & Hs & Hmem).
    exists subs. unfold state_at. rewrite Hp. simpl. by rewrite Hs.
  - intros subs c Hs Hc. pose proof (Hsubs _ _ Hs Hc) as Hlt. split; [done|].
    apply lookup_lt_is_Some_2. apply lookup_lt_Some in Ht. lia.
Qed.

Lemma registries_follow_the_tree_witness :
  NoDup [1]
  ∧ (∀ k, k ∈ [1] -> 1 <= k)
  ∧ (∀ k p, (k, BoundUpdate p) ∈ [(1, BoundUpdate 2%nat)] ->
       (0 < p)%nat ∧ ∃ subs, state_at sample_world p = Some (MultiTask subs) ∧ 0%nat ∈ subs).
Proof.
  destruct (registries_follow_the_tree sample_world 0%nat
              (Task "mul" [(1, BoundUpdate 2%nat)] (CounterTask 0 2))
              sample_world_reachable eq_refl) as (Hnd & Hpos & Hbound & _).
  split; [exact Hnd|]. split; [exact Hpos|exact Hbound].
Defined.

(** ** After a reset *)

(** X19: [reset] clears the progress of a task.  When every counted leaf at
    or below the task has a positive target and every composite there has a
    child, the task is not done after [reset] and its completeness is 0,
    whatever the state was before. *)
Theorem reset_clears_progress (w w' : world) (self : addr) (fuel F : nat) :
  reachable w -> populated (heap w) self ->
  reset fuel self w = Return () w' -> (self < F)%nat ->
  is_done F (heap w') self = Ok false
  ∧ ∃ q, completeness F (heap w') self = Ok q ∧ (q == 0)%Q.
Proof.
  intros Hreach Hpop Hrun HF. pose proof (reachable_wf _ Hreach) as Hwf.
  destruct w as [h tr]. simpl in *.
  destruct (reset_returns _ _ _ _ _ Hwf Hrun) as (t & h' & tr1 & tr2 & Ht & -> & Hz & _).
  pose proof (zeroed_wf _ _ _ Hwf Hz) as Hwf'.
  pose proof (zeroed_revalued _ _ _ Hz) as Hrev.
  assert (length h' = length h) as Hlen by apply Hz.
  pose proof (lookup_lt_Some _ _ _ Ht) as Hself. simpl.
  destruct (completeness_at_zero h' self Hwf') as [(q & Hq & Hq0) Hnot]; [lia| |].
  { intros b tb' Hb Htb'. apply (descendant_revalued_inv _ _ _ _ Hrev) in Hb.
    destruct (revalued_heap_lookup _ _ _ _ Hrev Htb') as (tb & Htb & _).
    destruct Hz as [_ Hz]. destruct (Hz _ _ Htb) as (_ & Hin & _).
    rewrite (Hin Hb) in Htb'. injection Htb' as <-.
    specialize (Hpop b tb Hb Htb). simpl.
    destruct (state tb); simpl; [done|split; [done|exact Hpop]|exact Hpop]. }
  split.
  - rewrite is_done_finished by (done || lia). by rewrite Hnot.
  - exists q. split; [|done]. rewrite <- Hq. apply completeness_fuel; (done || lia).
Qed.

Lemma reset_clears_progress_witness :
  ∃ w w', run_script (sample_script ++ [Update 6 0; Update 6 0; Update 6 1]%nat)
            empty_world = Some w
          ∧ reset 9 2%nat w = Return () w'
          ∧ is_done 3 (heap w') 2%nat = Ok false
          ∧ ∃ q, completeness 3 (heap w') 2%nat = Ok q ∧ (q == 0)%Q.
Proof.
  eexists _, _. split; [vm_compute; reflexivity|]. split; [vm_compute; reflexivity|].
  eapply (reset_clears_progress _ _ 2%nat 9%nat 3%nat).
  - apply (run_script_reachable (sample_script ++ [Update 6 0; Update 6 0; Update 6 1]%nat)
             empty_world); [apply reachable_start|vm_compute; reflexivity].
  - intros b t Hb Ht.
    assert (b < 3)%nat as Hlt by (by apply lookup_lt_Some in Ht).
    destruct b as [|[|[|b]]]; [| | |simpl in Hlt; lia]; injection Ht as <-; simpl; (lia || done).
  - vm_compute. reflexivity.
  - lia.
Defined.

(** ** The text of a duration *)

(** X20: the text of [expand] shows the duration in hours, minutes, seconds
    and milliseconds.  The milliseconds of the clock, [int(clock * 1000)],
    can always be written [((h * 60 + m) * 60 + s) * 1000 + ms] with [m] and
    [s] below 60 and [ms] below 1000, with negative hours [h] when they are
    negative; and whenever they are written so, the fields printed are these
    very numbers: all four when [h] is not zero, else from the first one that
    is not zero on, else the milliseconds alone. *)
Theorem expand_prints_the_fields (clock : float) (total : Z) :
  int_of_float (clock * 1000)%float = inr total ->
  (∃ h m s ms,
     total = ((h * 60 + m) * 60 + s) * 1000 + ms
     ∧ 0 <= m < 60 ∧ 0 <= s < 60 ∧ 0 <= ms < 1000 ∧ (total < 0 -> h < 0))
  ∧ ∀ h m s ms,
      total = ((h * 60 + m) * 60 + s) * 1000 + ms ->
      0 <= m < 60 -> 0 <= s < 60 -> 0 <= ms < 1000 ->
      (h ≠ 0 ->
       expand clock = inr (format_0d 2 h ++ "h " ++ format_0d 2 m ++ "m "
                           ++ format_0d 2 s ++ "s " ++ format_0d 3 ms ++ "ms")%string)
      ∧ (h = 0 -> m ≠ 0 ->
         expand clock = inr (format_0d 2 m ++ "m " ++ format_0d 2 s ++ "s "
                             ++ format_0d 3 ms ++ "ms")%string)
      ∧ (h = 0 -> m = 0 -> s ≠ 0 ->
         expand clock = inr (format_0d 2 s ++ "s " ++ format_0d 3 ms ++ "ms")%string)
      ∧ (h = 0 -> m = 0 -> s = 0 ->
         expand clock = inr (format_0d 3 ms ++ "ms")%string).
Proof.
  intros Hint. split; [apply fields_exist|].
  - intros h m s ms -> Hm Hs Hms.
    rewrite (expand_fields clock h m s ms Hint Hm Hs Hms).
    split; [|split; [|split]].
    + intros Hh. by destruct (Z.eqb_spec h 0).
    + intros -> Hm0. simpl. by destruct (Z.eqb_spec m 0).
    + intros -> -> Hs0. simpl. by destruct (Z.eqb_spec s 0).
    + by intros -> -> ->.
Qed.

Lemma expand_prints_the_fields_witness :
  expand 3723.5 = inr "01h 02m 03s 500ms"%string
  ∧ expand (-0.125) = inr "-1h 59m 59s 875ms"%string
  ∧ expand 61 = inr "01m 01s 000ms"%string
  ∧ expand 0.5 = inr "500ms"%string.
Proof.
  split; [|split; [|split]].
  - destruct (expand_prints_the_fields 3723.5 3723500 eq_refl) as [_ H].
    destruct (H 1 2 3 500 eq_refl ltac:(lia) ltac:(lia) ltac:(lia)) as (H1 & _).
    apply H1. lia.
  - destruct (expand_prints_the_fields (-0.125) (-125) eq_refl) as [_ H].
    destruct (H (-1) 59 59 875 eq_refl ltac:(lia) ltac:(lia) ltac:(lia)) as (H1 & _).
    apply H1. lia.
  - destruct (expand_prints_the_fields 61 61000 eq_refl) as [_ H].
    destruct (H 0 1 1 0 eq_refl ltac:(lia) ltac:(lia) ltac:(lia)) as (_ & H2 & _).
    apply H2; lia.
  - destruct (expand_prints_the_fields 0.5 500 eq_refl) as [_ H].
    destruct (H 0 0 0 500 eq_refl ltac:(lia) ltac:(lia) ltac:(lia)) as (_ & _ & _ & H4).
    apply H4; lia.
Defined.

(** X21: [expand] of a clock that is NaN raises [ValueError] and the one of
    an infinite clock raises [OverflowError], the exceptions of [int]; a zero
    clock of either sign gives "000ms". *)
Theorem expand_fails_on_nan_and_infinity (clock : float) :
  (Prim2SF clock = S754_nan -> expand clock = inl ValueError)
  ∧ (∀ sign, Prim2SF clock = S754_infinity sign -> expand clock = inl OverflowError)
  ∧ (∀ sign, Prim2SF clock = S754_zero sign -> expand clock = inr "000ms"%string).
Proof.
  split; [|split].
  - intros Hnan. unfold expand, int_of_float. by rewrite mul_spec, Hnan.
  - intros sign Hinf. unfold expand, int_of_float. rewrite mul_spec, Hinf.
    by destruct sign.
  - intros sign Hzero. unfold expand, int_of_float. rewrite mul_spec, Hzero.
    by destruct sign.
Qed.

Lemma expand_fails_on_nan_and_infinity_witness :
  expand nan = inl ValueError
  ∧ expand neg_infinity = inl OverflowError
  ∧ expand neg_zero = inr "000ms"%string.
Proof.
  split; [|split].
  - apply (expand_fails_on_nan_and_infinity nan). reflexivity.
  - apply (expand_fails_on_nan_and_infinity neg_infinity) with (sign := true). reflexivity.
  - apply (expand_fails_on_nan_and_infinity neg_zero) with (sign := true). reflexivity.
Defined.

(** ** Reading a duration back *)

(** X22: the text of [expand] tells the milliseconds of the clock: two
    clocks get the same text only if [int(clock * 1000)] is the same for
    both.  The text has 5 characters for less than a second, 9 for less
    than a minute, 13 for less than an hour (never negative in these cases),
    and at least 17 otherwise. *)
Theorem expand_text_determines_milliseconds (c1 c2 : float) (t1 t2 : Z) (text : string) :
  int_of_float (c1 * 1000)%float = inr t1 ->
  int_of_float (c2 * 1000)%float = inr t2 ->
  expand c1 = inr text ->
  (expand c2 = inr text -> t1 = t2)
  ∧ (0 <= t1 < 1000 -> String.length text = 5%nat)
  ∧ (1000 <= t1 < 60000 -> String.length text = 9%nat)
  ∧ (60000 <= t1 < 3600000 -> String.length text = 13%nat)
  ∧ (t1 < 0 ∨ 3600000 <= t1 -> (17 <= String.length text)%nat).
Proof.
  intros Hc1 Hc2 Htext.
  destruct (fields_exist t1) as (h1 & m1 & s1 & ms1 & -> & Hm1 & Hs1 & Hms1 & _).
  destruct (fields_exist t2) as (h2 & m2 & s2 & ms2 & -> & Hm2 & Hs2 & Hms2 & _).
  rewrite (expand_text c1 h1 m1 s1 ms1 Hc1 Hm1 Hs1 Hms1) in Htext. injection Htext as <-.
  pose proof (from_h_length h1 m1 s1 ms1 Hm1 Hs1 Hms1) as L1h.
  pose proof (from_m_length m1 s1 ms1 Hm1 Hs1 Hms1) as L1m.
  pose proof (from_s_length s1 ms1 Hs1 Hms1) as L1s.
  pose proof (from_ms_length ms1 Hms1) as L1ms.
  split; [|split; [|split; [|split]]].
  - rewrite (expand_text c2 h2 m2 s2 ms2 Hc2 Hm2 Hs2 Hms2). intros [= Heq].
    pose proof (from_h_length h2 m2 s2 ms2 Hm2 Hs2 Hms2) as L2h.
    pose proof (from_m_length m2 s2 ms2 Hm2 Hs2 Hms2) as L2m.
    pose proof (from_s_length s2 ms2 Hs2 Hms2) as L2s.
    pose proof (from_ms_length ms2 Hms2) as L2ms.
    pose proof (f_equal String.length Heq) as Hlen.
    destruct (Z.eqb_spec h1 0) as [->|Hh1], (Z.eqb_spec h2 0) as [->|Hh2]; simpl in *.
    + destruct (Z.eqb_spec m1 0) as [->|Hm1'], (Z.eqb_spec m2 0) as [->|Hm2']; simpl in *.
      * destruct (Z.eqb_spec s1 0) as [->|Hs1'], (Z.eqb_spec s2 0) as [->|Hs2']; simpl in *.
        -- apply from_ms_inj in Heq. lia.
        -- lia.
        -- lia.
        -- apply from_s_inj in Heq; [|done..]. lia.
      * destruct (Z.eqb_spec s1 0); simpl in *; lia.
      * destruct (Z.eqb_spec s2 0); simpl in *; lia.
      * apply from_m_inj in Heq; [|done..]. lia.
    + destruct (Z.eqb_spec m1 0); simpl in *; [destruct (Z.eqb_spec s1 0); simpl in *|]; lia.
    + destruct (Z.eqb_spec m2 0); simpl in *; [destruct (Z.eqb_spec s2 0); simpl in *|]; lia.
    + apply from_h_inj in Heq; [|done..]. destruct Heq as (-> & -> & -> & ->). done.
  - intros Ht. assert (h1 = 0 ∧ m1 = 0 ∧ s1 = 0) as (-> & -> & ->) by lia. done.
  - intros Ht. assert (h1 = 0 ∧ m1 = 0 ∧ s1 ≠ 0) as (-> & -> & Hs) by lia.
    simpl. by destruct (Z.eqb_spec s1 0).
  - intros Ht. assert (h1 = 0 ∧ m1 ≠ 0) as (-> & Hm) by lia.
    simpl. by destruct (Z.eqb_spec m1 0).
  - intros Ht. assert (h1 ≠ 0) as Hh by lia. by destruct (Z.eqb_spec h1 0).
Qed.

Lemma expand_text_determines_milliseconds_witness :
  expand 3723.5 = inr "01h 02m 03s 500ms"%string
  ∧ (expand 3723.5009765625 = inr "01h 02m 03s 500ms"%string -> 3723500 = 3723500)
  ∧ (17 <= String.length "01h 02m 03s 500ms")%nat.
Proof.
  split; [reflexivity|].
  destruct (expand_text_determines_milliseconds 3723.5 3723.5009765625 3723500 3723500
              "01h 02m 03s 500ms" eq_refl eq_refl eq_refl) as (Hinj & _ & _ & _ & H17).
  split; [exact Hinj|]. apply H17. right. lia.
Defined.
